(** * change_defines.py: rewriting the numeric values of preprocessor defines

    A shallow embedding of [device/scripts/change_defines.py] and of the
    Python built-ins it calls ([str.find], [str.replace], [str], [range],
    [int], [getopt.getopt]), followed by the properties of the script. *)

From Stdlib Require Import Ascii String DecimalString.
From Stdlib Require Import List ZArith Bool Lia Sorted.
From Stdlib Require Import Relations.Relation_Operators.
Import ListNotations.
Open Scope Z_scope.

Set Implicit Arguments.

#[local] Arguments ascii_dec : simpl never.

(** ** Python strings *)

(** A Python [str] is a sequence of characters. *)
Definition pystr := list ascii.

(** String literals of the script. *)
Definition lit (s : string) : pystr := list_ascii_of_string s.

Definition pystr_eq_dec : forall a b : pystr, {a = b} + {a <> b} :=
  list_eq_dec ascii_dec.

(** [a == b] on strings. *)
Definition streq (a b : pystr) : bool :=
  if pystr_eq_dec a b then true else false.

(** [s.startswith(p)] *)
Fixpoint startswith (s p : pystr) {struct p} : bool :=
  match p, s with
  | [], _ => true
  | _ :: _, [] => false
  | x :: p', y :: s' => if ascii_dec x y then startswith s' p' else false
  end.

(** [s.endswith(p)] *)
Definition endswith (s p : pystr) : bool := startswith (rev s) (rev p).

(** [s.find(sub)]: the lowest index at which [sub] occurs in [s], or -1. *)
Fixpoint find_from (i : Z) (s sub : pystr) : Z :=
  if startswith s sub then i
  else match s with
       | [] => -1
       | _ :: s' => find_from (i + 1) s' sub
       end.

Definition find (s sub : pystr) : Z := find_from 0 s sub.

(** [s.replace(old, new)]: every occurrence of [old], found scanning from the
    left and never overlapping an occurrence already taken, becomes [new].
    [skip] counts the characters of the occurrence just taken that the scan
    still has to step over. *)
Fixpoint replace_scan (old new : pystr) (skip : nat) (s : pystr) : pystr :=
  match s with
  | [] => []
  | c :: s' =>
      match skip with
      | S k => replace_scan old new k s'
      | O =>
          if startswith s old
          then new ++ replace_scan old new (Nat.pred (length old)) s'
          else c :: replace_scan old new 0 s'
      end
  end.

Definition replace (s old new : pystr) : pystr :=
  match old with
  | [] => new ++ flat_map (fun c => c :: new) s
  | _ :: _ => replace_scan old new 0 s
  end.

(** [str(i)] for an integer: its decimal numeral, with a leading "-" when
    negative. *)
Definition str (i : Z) : pystr :=
  list_ascii_of_string (NilZero.string_of_int (Z.to_int i)).

(** [range(lo, hi)]: the integers from [lo] up to, not including, [hi]. *)
Definition range (lo hi : Z) : list Z :=
  map (fun k => lo + Z.of_nat k) (seq 0 (Z.to_nat (hi - lo))).

(** *** [int(s)] for a string

    Surrounding white space is dropped, one sign is allowed, and the rest is
    decimal digits, where single underscores may separate digits.  Anything
    else is a ValueError ([None]).  The numeral may be of any length.

    The white space [int] drops is tab, line feed, vertical tab, form feed,
    carriage return and space (9 to 13 and 32) and, of the characters above
    127, next line (133) and no-break space (160).  The separators 28 to 31
    are white space for [str.isspace] but not for [int], which raises
    ValueError on them. *)
Definition isspace (c : ascii) : bool :=
  let n := nat_of_ascii c in
  (((9 <=? n) && (n <=? 13)) || (n =? 32) || (n =? 133) || (n =? 160))%nat.

Definition isdigit (c : ascii) : bool :=
  let n := nat_of_ascii c in ((48 <=? n) && (n <=? 57))%nat.

Definition digit_value (c : ascii) : Z := Z.of_nat (nat_of_ascii c) - 48.

Fixpoint lstrip (s : pystr) : pystr :=
  match s with
  | [] => []
  | c :: s' => if isspace c then lstrip s' else s
  end.

Definition strip (s : pystr) : pystr := rev (lstrip (rev (lstrip s))).

Fixpoint int_digits (acc : Z) (after_digit : bool) (s : pystr) : option Z :=
  match s with
  | [] => if after_digit then Some acc else None
  | c :: s' =>
      if isdigit c then int_digits (10 * acc + digit_value c) true s'
      else if ascii_dec c "_"%char
           then (if after_digit then int_digits acc false s' else None)
           else None
  end.

Definition int (s : pystr) : option Z :=
  match strip s with
  | c :: s' =>
      if ascii_dec c "-"%char then option_map Z.opp (int_digits 0 false s')
      else if ascii_dec c "+"%char then int_digits 0 false s'
      else int_digits 0 false (c :: s')
  | [] => None
  end.

(** ** The process: files, console, and how a call ends *)

(** What the script does to the outside world, in the order it does it. *)
Inductive event : Type :=
  | Printed (text : pystr)
  | FileRead (path : pystr)
  | FileWritten (path : pystr) (lines : list pystr).

(** The contents of a file are kept as the list of its lines, the way
    [readlines] returns them and [writelines] stores them. *)
Record world : Type := World {
  files : pystr -> option (list pystr);
  trace : list event
}.

Inductive exn : Type :=
  | RuntimeError        (* a bare [raise] with no exception being handled *)
  | ValueError          (* [int] of a string that is no integer *)
  | FileNotFoundError.  (* [open] of a path that does not exist *)

(** A call returns a value, leaves through [sys.exit], or raises. *)
Inductive result (A : Type) : Type :=
  | Ret (a : A)
  | Exit (status : Z)
  | Raise (e : exn).

Arguments Ret {A} a.
Arguments Exit {A} status.
Arguments Raise {A} e.

Definition M (A : Type) : Type := world -> result A * world.

Definition ret {A} (a : A) : M A := fun w => (Ret a, w).

Definition bind {A B} (c : M A) (k : A -> M B) : M B :=
  fun w =>
    match c w with
    | (Ret a, w') => k a w'
    | (Exit n, w') => (Exit n, w')
    | (Raise e, w') => (Raise e, w')
    end.

Notation "x <- c ;; k" := (bind c (fun x => k))
  (at level 61, c at next level, right associativity).
Notation "c ;;; k" := (bind c (fun _ => k))
  (at level 61, right associativity).

Definition emit (e : event) : M unit :=
  fun w => (Ret tt, World (files w) (trace w ++ [e])).

(** [print(text)] *)
Definition print (text : pystr) : M unit := emit (Printed text).

(** [raise] *)
Definition raise {A} (e : exn) : M A := fun w => (Raise e, w).

(** [sys.exit(status)]; [sys.exit()] is [sys.exit(0)]. *)
Definition sys_exit {A} (status : Z) : M A := fun w => (Exit status, w).

(** [with open(path, "r") as file: filedata = file.readlines()] *)
Definition readlines (path : pystr) : M (list pystr) :=
  fun w =>
    match files w path with
    | Some lines => (Ret lines, World (files w) (trace w ++ [FileRead path]))
    | None => (Raise FileNotFoundError, w)
    end.

Definition store (path : pystr) (lines : list pystr)
    (fs : pystr -> option (list pystr)) : pystr -> option (list pystr) :=
  fun p => if pystr_eq_dec p path then Some lines else fs p.

(** [with open(path, "w") as file: file.writelines(lines)] *)
Definition writelines (path : pystr) (lines : list pystr) : M unit :=
  fun w =>
    (Ret tt, World (store path lines (files w))
                   (trace w ++ [FileWritten path lines])).

(** ** The script *)

Definition space : pystr := lit " ".

(** The body of the inner loop, line 26. *)
Definition rep_value (base_string : pystr) (set_val : Z)
    (line : pystr) (i : Z) : pystr :=
  replace line (base_string ++ space ++ str i)
               (base_string ++ space ++ str set_val).

(** Lines 23 to 27: what becomes of one line. *)
Definition new_line (base_string : pystr) (min_val max_val set_val : Z)
    (line : pystr) : pystr :=
  if negb (find line base_string =? -1)
  then fold_left (rep_value base_string set_val)
                 (range min_val (max_val + 1)) line
  else line.

(** The body of the outer loop, lines 22 to 28: the line, rewritten when it
    holds [base_string], is appended to [newfiledata]. *)
Definition rep_line (base_string : pystr) (min_val max_val set_val : Z)
    (newfiledata : list pystr) (line : pystr) : list pystr :=
  newfiledata ++ [new_line base_string min_val max_val set_val line].

Definition file_line_rep (filedata : list pystr) (base_string : pystr)
    (min_val max_val set_val : Z) : M (list pystr) :=
  print (lit "Setting " ++ base_string ++ lit " to " ++ str set_val) ;;;
  (if max_val <? min_val
   then print (lit "ERROR: max_val or min_val is set incorrectly") ;;;
        raise RuntimeError
   else ret tt) ;;;
  (if (set_val >? max_val) || (set_val <? min_val)
   then print (lit "ERROR: max_val or min_val or set_val is set incorrectly") ;;;
        raise RuntimeError
   else ret tt) ;;;
  ret (fold_left (rep_line base_string min_val max_val set_val) filedata []).

Definition user_defines_h : pystr := lit "lib/user_defines.h".

Definition set_ifft_define (set_val : Z) : M unit :=
  filedata <- readlines user_defines_h ;;
  newfiledata <- file_line_rep filedata (lit "#define SE_IFFT_TYPE") 0 2 set_val ;;
  writelines user_defines_h newfiledata.

Definition set_ntt_define (set_val : Z) : M unit :=
  filedata <- readlines user_defines_h ;;
  newfiledata <- file_line_rep filedata (lit "#define SE_NTT_TYPE") 0 3 set_val ;;
  writelines user_defines_h newfiledata.

Definition set_index_map_define (set_val : Z) : M unit :=
  filedata <- readlines user_defines_h ;;
  newfiledata <- file_line_rep filedata (lit "#define SE_INDEX_MAP_TYPE") 0 4 set_val ;;
  writelines user_defines_h newfiledata.

Definition set_sk_define (set_val : Z) : M unit :=
  filedata <- readlines user_defines_h ;;
  newfiledata <- file_line_rep filedata (lit "#define SE_SK_TYPE") 0 2 set_val ;;
  writelines user_defines_h newfiledata.

Definition set_data_load_define (set_val : Z) : M unit :=
  filedata <- readlines user_defines_h ;;
  newfiledata <- file_line_rep filedata (lit "#define SE_DATA_LOAD_TYPE") 0 2 set_val ;;
  writelines user_defines_h newfiledata.

(** *** [getopt.getopt] of the standard library

    An option list is a list of pairs (option, argument); a GetoptError is
    [None]. *)
Definition optlist := list (pystr * pystr).

Fixpoint short_has_arg (opt : ascii) (shortopts : pystr) : option bool :=
  match shortopts with
  | [] => None
  | c :: rest =>
      if ascii_dec opt c
      then if ascii_dec c ":"%char then short_has_arg opt rest
           else Some (startswith rest (lit ":"))
      else short_has_arg opt rest
  end.

Fixpoint do_shorts (opts : optlist) (optstring shortopts : pystr)
    (args : list pystr) : option (optlist * list pystr) :=
  match optstring with
  | [] => Some (opts, args)
  | opt :: optstring =>
      match short_has_arg opt shortopts with
      | None => None
      | Some true =>
          match optstring with
          | [] =>
              match args with
              | [] => None
              | optarg :: args => Some (opts ++ [(lit "-" ++ [opt], optarg)], args)
              end
          | _ :: _ => Some (opts ++ [(lit "-" ++ [opt], optstring)], args)
          end
      | Some false =>
          do_shorts (opts ++ [(lit "-" ++ [opt], [])]) optstring shortopts args
      end
  end.

(** [opt[:i], opt[i+1:]] for [i = opt.index('=')], when there is one. *)
Fixpoint split_at_equals (opt : pystr) : option (pystr * pystr) :=
  match opt with
  | [] => None
  | c :: rest =>
      if ascii_dec c "="%char then Some ([], rest)
      else match split_at_equals rest with
           | Some (name, optarg) => Some (c :: name, optarg)
           | None => None
           end
  end.

Definition long_has_args (opt : pystr) (longopts : list pystr)
    : option (bool * pystr) :=
  let possibilities := filter (fun o => startswith o opt) longopts in
  match possibilities with
  | [] => None
  | unique_match :: others =>
      if existsb (streq opt) possibilities then Some (false, opt)
      else if existsb (streq (opt ++ lit "=")) possibilities then Some (true, opt)
      else match others with
           | _ :: _ => None
           | [] =>
               if endswith unique_match (lit "=")
               then Some (true, removelast unique_match)
               else Some (false, unique_match)
           end
  end.

Definition do_longs (opts : optlist) (opt : pystr) (longopts args : list pystr)
    : option (optlist * list pystr) :=
  let '(opt, optarg) :=
    match split_at_equals opt with
    | Some (name, optarg) => (name, Some optarg)
    | None => (opt, None)
    end in
  match long_has_args opt longopts with
  | None => None
  | Some (true, opt) =>
      match optarg, args with
      | Some optarg, _ => Some (opts ++ [(lit "--" ++ opt, optarg)], args)
      | None, [] => None
      | None, optarg :: args => Some (opts ++ [(lit "--" ++ opt, optarg)], args)
      end
  | Some (false, opt) =>
      match optarg with
      | Some _ => None
      | None => Some (opts ++ [(lit "--" ++ opt, [])], args)
      end
  end.

(** The loop of [getopt]; every round takes at least one argument off
    [args], so [length args] rounds are enough. *)
Fixpoint getopt_loop (rounds : nat) (opts : optlist) (args : list pystr)
    (shortopts : pystr) (longopts : list pystr)
    : option (optlist * list pystr) :=
  match rounds, args with
  | S rounds, arg0 :: rest =>
      if startswith arg0 (lit "-") && negb (streq arg0 (lit "-")) then
        if streq arg0 (lit "--") then Some (opts, rest)
        else
          match (if startswith arg0 (lit "--")
                 then do_longs opts (skipn 2 arg0) longopts rest
                 else do_shorts opts (skipn 1 arg0) shortopts rest) with
          | None => None
          | Some (opts, args) => getopt_loop rounds opts args shortopts longopts
          end
      else Some (opts, args)
  | _, _ => Some (opts, args)
  end.

Definition getopt (args : list pystr) (shortopts : pystr)
    (longopts : list pystr) : option (optlist * list pystr) :=
  getopt_loop (length args) [] args shortopts longopts.

(** *** [main] *)

Definition usage : pystr :=
  lit "change_defines.py -i <ifft_option> -n <ntt_option> -m <index_map_option> -s <sk_option> -d <data_load_option>".

(** The five local variables of [main]. *)
Record settings : Type := Settings {
  ifft_set_val : Z;
  ntt_set_val : Z;
  index_map_set_val : Z;
  sk_set_val : Z;
  data_load_set_val : Z
}.

(** [int(arg)], raising ValueError. *)
Definition int_arg (arg : pystr) : M Z :=
  match int arg with
  | Some n => ret n
  | None => raise ValueError
  end.

(** [opt in (a, b)] *)
Definition opt_in (opt : pystr) (a b : string) : bool :=
  streq opt (lit a) || streq opt (lit b).

(** The body of the loop over [opts], lines 112 to 125. *)
Definition main_option (v : settings) (oa : pystr * pystr) : M settings :=
  let '(opt, arg) := oa in
  if streq opt (lit "-h") then print usage ;;; sys_exit 0
  else if opt_in opt "-i" "--ifft" then
    n <- int_arg arg ;;
    ret (Settings n (ntt_set_val v) (index_map_set_val v) (sk_set_val v)
                  (data_load_set_val v))
  else if opt_in opt "-n" "--ntt" then
    n <- int_arg arg ;;
    ret (Settings (ifft_set_val v) n (index_map_set_val v) (sk_set_val v)
                  (data_load_set_val v))
  else if opt_in opt "-m" "--index_map" then
    n <- int_arg arg ;;
    ret (Settings (ifft_set_val v) (ntt_set_val v) n (sk_set_val v)
                  (data_load_set_val v))
  else if opt_in opt "-s" "--sk" then
    n <- int_arg arg ;;
    ret (Settings (ifft_set_val v) (ntt_set_val v) (index_map_set_val v) n
                  (data_load_set_val v))
  else if opt_in opt "-d" "--data_load" then
    n <- int_arg arg ;;
    ret (Settings (ifft_set_val v) (ntt_set_val v) (index_map_set_val v)
                  (sk_set_val v) n)
  else ret v.

(** [for opt, arg in opts: ...], lines 105 to 125. *)
Fixpoint main_options (v : settings) (opts : optlist) : M settings :=
  match opts with
  | [] => ret v
  | oa :: opts => v <- main_option v oa ;; main_options v opts
  end.

(** Lines 127 to 141. *)
Definition main_checks (v : settings) : M unit :=
  if ifft_set_val v <? 0 then
    print (lit "Error: Need to choose an ifft option") ;;; sys_exit 0
  else if ntt_set_val v <? 0 then
    print (lit "Error: Need to choose an ntt option") ;;; sys_exit 0
  else if index_map_set_val v <? 0 then
    print (lit "Error: Need to choose an index_map option") ;;; sys_exit 0
  else if sk_set_val v <? 0 then
    print (lit "Error: Need to choose an sk option") ;;; sys_exit 0
  else if data_load_set_val v <? 0 then
    print (lit "Error: Need to choose a data load option") ;;; sys_exit 0
  else ret tt.

(** Lines 143 to 147. *)
Definition main_rewrites (v : settings) : M unit :=
  set_ifft_define (ifft_set_val v) ;;;
  set_ntt_define (ntt_set_val v) ;;;
  set_index_map_define (index_map_set_val v) ;;;
  set_sk_define (sk_set_val v) ;;;
  set_data_load_define (data_load_set_val v).

Definition shortopts : pystr := lit "hi:n:m:s:d:".

Definition longopts : list pystr :=
  [lit "ifft="; lit "ntt="; lit "index_map="; lit "sk="; lit "data_load="].

Definition main (argv : list pystr) : M unit :=
  match getopt argv shortopts longopts with
  | None => print usage ;;; sys_exit 2
  | Some (opts, _) =>
      v <- main_options (Settings (-1) (-1) (-1) (-1) (-1)) opts ;;
      main_checks v ;;;
      main_rewrites v
  end.

(** ** The five macros of the script *)

Inductive macro : Type := Ifft | Ntt | IndexMap | Sk | DataLoad.

(** The order in which [main] checks and rewrites them. *)
Definition macros : list macro := [Ifft; Ntt; IndexMap; Sk; DataLoad].

Definition macro_name (m : macro) : pystr :=
  match m with
  | Ifft => lit "#define SE_IFFT_TYPE"
  | Ntt => lit "#define SE_NTT_TYPE"
  | IndexMap => lit "#define SE_INDEX_MAP_TYPE"
  | Sk => lit "#define SE_SK_TYPE"
  | DataLoad => lit "#define SE_DATA_LOAD_TYPE"
  end.

Definition macro_min (m : macro) : Z := 0.

Definition macro_max (m : macro) : Z :=
  match m with
  | Ifft => 2
  | Ntt => 3
  | IndexMap => 4
  | Sk => 2
  | DataLoad => 2
  end.

Definition set_define (m : macro) : Z -> M unit :=
  match m with
  | Ifft => set_ifft_define
  | Ntt => set_ntt_define
  | IndexMap => set_index_map_define
  | Sk => set_sk_define
  | DataLoad => set_data_load_define
  end.

Definition setting (m : macro) (v : settings) : Z :=
  match m with
  | Ifft => ifft_set_val v
  | Ntt => ntt_set_val v
  | IndexMap => index_map_set_val v
  | Sk => sk_set_val v
  | DataLoad => data_load_set_val v
  end.

(** The message of lines 128 to 140 for each macro. *)
Definition need_to_choose (m : macro) : pystr :=
  match m with
  | Ifft => lit "Error: Need to choose an ifft option"
  | Ntt => lit "Error: Need to choose an ntt option"
  | IndexMap => lit "Error: Need to choose an index_map option"
  | Sk => lit "Error: Need to choose an sk option"
  | DataLoad => lit "Error: Need to choose a data load option"
  end.

(** ** The vocabulary of the properties *)

(** [sub] occurs in [s]. *)
Definition occurs (sub s : pystr) : Prop :=
  exists pre post, s = pre ++ sub ++ post.

(** No occurrence of [old] in [s] starts before the end of [pre]. *)
Definition leftmost (old pre s : pystr) : Prop :=
  forall pre' post', s = pre' ++ old ++ post' -> (length pre <= length pre')%nat.

(** Every occurrence replaced: [old] is looked for from the left; the first
    occurrence found becomes [new], and the search goes on behind it. *)
Inductive all_replaced (old new : pystr) : pystr -> pystr -> Prop :=
  | AR_none s :
      ~ occurs old s -> all_replaced old new s s
  | AR_first pre rest rest' :
      leftmost old pre (pre ++ old ++ rest) ->
      all_replaced old new rest rest' ->
      all_replaced old new (pre ++ old ++ rest) (pre ++ new ++ rest').

(** The message of line 10. *)
Definition setting_message (base_string : pystr) (set_val : Z) : pystr :=
  lit "Setting " ++ base_string ++ lit " to " ++ str set_val.

(** The second message of a call that raises, line 13 or line 16. *)
Definition complaint (min_val max_val : Z) : pystr :=
  if max_val <? min_val
  then lit "ERROR: max_val or min_val is set incorrectly"
  else lit "ERROR: max_val or min_val or set_val is set incorrectly".

(** The world [w] after these texts were printed, and nothing else done. *)
Definition said (w : world) (texts : list pystr) : world :=
  World (files w) (trace w ++ map Printed texts).

(** "<name> <k>" *)
Definition name_value (name : pystr) (k : Z) : pystr := name ++ space ++ str k.

(** Every occurrence of "<name> <k>" becomes "<name> <target>", for one [k]
    after the other, each time in what the earlier ones left. *)
Inductive replaced_in_turn (name : pystr) (target : Z)
    : list Z -> pystr -> pystr -> Prop :=
  | turn_done s : replaced_in_turn name target [] s s
  | turn_next k ks s s' s'' :
      all_replaced (name_value name k) (name_value name target) s s' ->
      replaced_in_turn name target ks s' s'' ->
      replaced_in_turn name target (k :: ks) s s''.

(** [ks] is [min; min + 1; ...; max]. *)
Definition counts_up (min max : Z) (ks : list Z) : Prop :=
  StronglySorted Z.lt ks /\ forall k, In k ks <-> min <= k <= max.

(** What C1 asks of a line and its rewriting. *)
Definition line_rewritten (name : pystr) (min max target : Z)
    (line line' : pystr) : Prop :=
  (occurs name line ->
   exists ks, counts_up min max ks /\ replaced_in_turn name target ks line line')
  /\ (~ occurs name line -> line' = line).

(** One edit of a line: behind some "<name> ", the numeral of a [k] of the
    range gives way to the numeral of the target; whatever stands before the
    name and behind the numeral stays as it is. *)
Inductive value_edit (name : pystr) (min max target : Z)
    : pystr -> pystr -> Prop :=
  | value_edit_at pre post k :
      min <= k <= max ->
      value_edit name min max target
        (pre ++ name ++ space ++ str k ++ post)
        (pre ++ name ++ space ++ str target ++ post).

(** Any number of such edits, one after the other. *)
Definition value_edits (name : pystr) (min max target : Z)
    : pystr -> pystr -> Prop :=
  clos_refl_trans pystr (value_edit name min max target).

(** A world to run examples in: no file, nothing done yet. *)
Definition empty_world : world := World (fun _ => None) [].

(** The character of a digit. *)
Definition digit (k : Z) : ascii := ascii_of_nat (48 + Z.to_nat k).

(** A name without digits. *)
Definition digit_free (name : pystr) : Prop :=
  Forall (fun c => isdigit c = false) name.

(** Character by character, [y] is [x], or an [a] that became [b]. *)
Definition kept_or_set (a b x y : ascii) : Prop := x = y \/ (x = a /\ y = b).

(** The five variables before the option loop, lines 105 to 109. *)
Definition unset : settings := Settings (-1) (-1) (-1) (-1) (-1).

(** The lines [set_define m set_val] writes when it finds [filedata]. *)
Definition rewritten (m : macro) (set_val : Z) (filedata : list pystr)
    : list pystr :=
  map (new_line (macro_name m) (macro_min m) (macro_max m) set_val) filedata.

(** The first macro, in the order of the checks, whose variable is
    negative. *)
Definition first_missing (v : settings) : option macro :=
  List.find (fun m => setting m v <? 0) macros.

(** A text line: its characters and the newline that ends it. *)
Definition text_line (s : string) : pystr := lit s ++ ["010"%char].

(** A world whose only file is the header, with these lines. *)
Definition header (lines : list pystr) : world :=
  World (fun p => if pystr_eq_dec p user_defines_h then Some lines else None) [].

(** The command line of C4: -i 5, the other four options valid. *)
Definition argv_i5 : list pystr :=
  [lit "-i"; lit "5"; lit "-n"; lit "3"; lit "-m"; lit "0";
   lit "-s"; lit "0"; lit "-d"; lit "0"].

(** A command line with 5 for index_map and the other four options valid. *)
Definition argv_m5 : list pystr :=
  [lit "-i"; lit "2"; lit "-n"; lit "3"; lit "-m"; lit "5";
   lit "-s"; lit "0"; lit "-d"; lit "0"].

(** The header of the spec's example. *)
Definition two_defines : list pystr :=
  [text_line "#define SE_IFFT_TYPE 0"; text_line "#define SE_NTT_TYPE 1"].

(** The command line of the spec's example: every option but --sk. *)
Definition argv_no_sk : list pystr :=
  [lit "-i"; lit "2"; lit "-n"; lit "3"; lit "-m"; lit "0"; lit "-d"; lit "0"].

(** The command line of the spec's example. *)
Definition argv_all : list pystr :=
  [lit "-i"; lit "2"; lit "-n"; lit "3"; lit "-m"; lit "0";
   lit "-s"; lit "0"; lit "-d"; lit "0"].

(** A command line with 3 for sk and the other four options valid. *)
Definition argv_s3 : list pystr :=
  [lit "-i"; lit "2"; lit "-n"; lit "3"; lit "-m"; lit "4";
   lit "-s"; lit "3"; lit "-d"; lit "0"].

(** *** Command lines with malformed option syntax

    The flags of the script: h stands alone; i, n, m, s and d take an
    argument. *)
Definition help_flag (c : ascii) : bool :=
  if ascii_dec c "h"%char then true else false.

Definition value_flag (c : ascii) : bool :=
  existsb (fun a => if ascii_dec c a then true else false) (lit "inmsd").

(** The names of the long options; each of them takes an argument. *)
Definition long_names : list pystr :=
  [lit "ifft"; lit "ntt"; lit "index_map"; lit "sk"; lit "data_load"].

(** [name] is the beginning of exactly one long option name: a long option
    may be abbreviated as long as it stays apart from the others. *)
Definition long_known (name : pystr) : bool :=
  match filter (fun n => startswith n name) long_names with
  | [_] => true
  | _ => false
  end.

Definition no_equals (name : pystr) : Prop := ~ In "="%char name.

(** [malformed_at cluster rest]: the words of the command line are read from
    the left, an option word and then the word that is its argument where it
    needs one and none is joined; [cluster] is what is left of a word of
    short flags being read, [rest] the words behind it.  The reading comes to
    a flag that is not known, to a long option whose name is not known, or to
    an option that needs an argument where the command line ends.  It does
    not come so far when a word that is no option, or the word "--", stands
    before: there the reading of options ends. *)
Inductive malformed_at : pystr -> list pystr -> Prop :=
  | short_word c cluster rest :
      c <> "-"%char -> malformed_at (c :: cluster) rest ->
      malformed_at [] (("-"%char :: c :: cluster) :: rest)
  | flag_unknown c cluster rest :
      value_flag c = false -> help_flag c = false ->
      malformed_at (c :: cluster) rest
  | flag_help c cluster rest :
      help_flag c = true -> malformed_at cluster rest ->
      malformed_at (c :: cluster) rest
  | flag_missing c :
      value_flag c = true -> malformed_at [c] []
  | flag_next c value rest :
      value_flag c = true -> malformed_at [] rest ->
      malformed_at [c] (value :: rest)
  | flag_joined c v value rest :
      value_flag c = true -> malformed_at [] rest ->
      malformed_at (c :: v :: value) rest
  | long_unknown name rest :
      name <> [] -> no_equals name -> long_known name = false ->
      malformed_at [] ((lit "--" ++ name) :: rest)
  | long_unknown_joined name value rest :
      no_equals name -> long_known name = false ->
      malformed_at [] ((lit "--" ++ name ++ "="%char :: value) :: rest)
  | long_missing name :
      no_equals name -> long_known name = true ->
      malformed_at [] [lit "--" ++ name]
  | long_next name value rest :
      no_equals name -> long_known name = true -> malformed_at [] rest ->
      malformed_at [] ((lit "--" ++ name) :: value :: rest)
  | long_joined name value rest :
      no_equals name -> long_known name = true -> malformed_at [] rest ->
      malformed_at [] ((lit "--" ++ name ++ "="%char :: value) :: rest).

(** A command line with malformed option syntax. *)
Definition malformed (argv : list pystr) : Prop := malformed_at [] argv.

(** A command line in which -i is followed by the next option instead of its
    argument, and one with an unknown flag behind a word that is no
    option. *)
Definition argv_i_n : list pystr :=
  [lit "-i"; lit "-n"; lit "3"; lit "-m"; lit "0"; lit "-s"; lit "0";
   lit "-d"; lit "0"].

Definition argv_stray_x : list pystr :=
  [lit "-i"; lit "2"; lit "-n"; lit "3"; lit "-m"; lit "0"; lit "-s"; lit "0";
   lit "-d"; lit "0"; lit "stray"; lit "-x"].

(** [opt] is one of the two spellings of the option of [m]. *)
Definition option_of (m : macro) (opt : pystr) : bool :=
  match m with
  | Ifft => opt_in opt "-i" "--ifft"
  | Ntt => opt_in opt "-n" "--ntt"
  | IndexMap => opt_in opt "-m" "--index_map"
  | Sk => opt_in opt "-s" "--sk"
  | DataLoad => opt_in opt "-d" "--data_load"
  end.

(** One branch of [main_option] that returns. *)
Ltac run_option arg w :=
  unfold bind; destruct (int_arg arg w) as [[?n| |] ?w1] eqn:?E;
  try discriminate; unfold ret;
  let H := fresh in intros H; injection H as <- _.

(** *** Rewriting seen as one pass over the line

    [seen] holds the characters of the line before the current one, the
    nearest first. *)
Fixpoint map_seen (f : pystr -> ascii -> ascii) (seen s : pystr) : pystr :=
  match s with
  | [] => []
  | c :: s' => f seen c :: map_seen f (c :: seen) s'
  end.

(** A character of [D] that stands directly behind the stem, whose reverse
    is [stem_rev], becomes [b]; every other character is kept. *)
Definition set_one (stem_rev : pystr) (D : ascii -> bool) (b : ascii)
    (seen : pystr) (c : ascii) : ascii :=
  if D c && startswith seen stem_rev then b else c.

Definition set_behind (stem_rev : pystr) (D : ascii -> bool) (b : ascii)
    : pystr -> pystr -> pystr :=
  map_seen (set_one stem_rev D b).

(** [seen'] is what [map_seen f] made of the characters [seen]. *)
Inductive seen_image (f : pystr -> ascii -> ascii) : pystr -> pystr -> Prop :=
  | image_nil : seen_image f [] []
  | image_cons seen seen' c :
      seen_image f seen seen' -> seen_image f (c :: seen) (f seen c :: seen').

(** [c] is the character [a]. *)
Definition is_char (a c : ascii) : bool :=
  if ascii_dec c a then true else false.

(** [c] is the digit of one of [ks]. *)
Definition digit_of (ks : list Z) (c : ascii) : bool :=
  existsb (fun k => is_char (digit k) c) ks.

(** The pass that [new_line] amounts to for a name without digits and a range
    of single digits: every digit of the range that stands directly behind
    the name and one space becomes the digit of the target. *)
Definition set_values (name : pystr) (min max target : Z) (line : pystr)
    : pystr :=
  set_behind (rev (name ++ space)) (digit_of (range min (max + 1)))
             (digit target) [] line.

(** Neither name, followed by a space, ends where the other does. *)
Definition apart (name1 name2 : pystr) : Prop :=
  startswith (rev (name1 ++ space)) (rev (name2 ++ space)) = false
  /\ startswith (rev (name2 ++ space)) (rev (name1 ++ space)) = false.

(** [y] is the character [x], or the digit of the target where [x] is a
    digit of the range. *)
Definition kept_or_target (min max target : Z) (x y : ascii) : Prop :=
  y = x \/ exists k, min <= k <= max /\ x = digit k /\ y = digit target.

(** The rewrites of lines 143 to 147 for the macros [ms], one after the
    other. *)
Fixpoint set_defines (ms : list macro) (v : settings) : M unit :=
  match ms with
  | [] => ret tt
  | m :: ms => set_define m (setting m v) ;;; set_defines ms v
  end.

(** The lines of the header after the rewrites for [ms]. *)
Definition rewritten_all (ms : list macro) (v : settings)
    (filedata : list pystr) : list pystr :=
  fold_left (fun lines m => rewritten m (setting m v) lines) ms filedata.

(** The events of the rewrites for [ms] of a header that held [filedata]. *)
Fixpoint rewrite_events (ms : list macro) (v : settings)
    (filedata : list pystr) : list event :=
  match ms with
  | [] => []
  | m :: ms =>
      [FileRead user_defines_h;
       Printed (setting_message (macro_name m) (setting m v));
       FileWritten user_defines_h (rewritten m (setting m v) filedata)]
      ++ rewrite_events ms v (rewritten m (setting m v) filedata)
  end.

(** [y] is the character [x], or both are digits. *)
Definition kept_or_digit (x y : ascii) : Prop :=
  y = x \/ (isdigit x = true /\ isdigit y = true).

(** The command line is empty, or its first word is not an option: it does
    not start with "-", or it is "-" or "--". *)
Definition no_option_first (argv : list pystr) : Prop :=
  match argv with
  | [] => True
  | word :: _ =>
      startswith word (lit "-") = false \/ word = lit "-" \/ word = lit "--"
  end.

(** The variable of [m] set to [n]. *)
Definition put (m : macro) (n : Z) (v : settings) : settings :=
  match m with
  | Ifft => Settings n (ntt_set_val v) (index_map_set_val v) (sk_set_val v)
                     (data_load_set_val v)
  | Ntt => Settings (ifft_set_val v) n (index_map_set_val v) (sk_set_val v)
                    (data_load_set_val v)
  | IndexMap => Settings (ifft_set_val v) (ntt_set_val v) n (sk_set_val v)
                         (data_load_set_val v)
  | Sk => Settings (ifft_set_val v) (ntt_set_val v) (index_map_set_val v) n
                   (data_load_set_val v)
  | DataLoad => Settings (ifft_set_val v) (ntt_set_val v)
                         (index_map_set_val v) (sk_set_val v) n
  end.

(** The short spelling of an option given in its long spelling. *)
Definition to_short (oa : pystr * pystr) : pystr * pystr :=
  let '(opt, arg) := oa in
  if streq opt (lit "--ifft") then (lit "-i", arg)
  else if streq opt (lit "--ntt") then (lit "-n", arg)
  else if streq opt (lit "--index_map") then (lit "-m", arg)
  else if streq opt (lit "--sk") then (lit "-s", arg)
  else if streq opt (lit "--data_load") then (lit "-d", arg)
  else (opt, arg).

(** ** The built-ins on examples *)

Example replace_examples :
  replace (lit "xabyab") (lit "ab") (lit "Q") = lit "xQyQ"
  /\ replace (lit "aaaaa") (lit "aa") (lit "ba") = lit "babaa"
  /\ replace (lit "abc") (lit "abcd") (lit "Q") = lit "abc"
  /\ replace (lit "abc") [] (lit "-") = lit "-a-b-c-".
Proof. repeat split; reflexivity. Qed.

Example find_examples :
  find (lit "hello") (lit "l") = 2
  /\ find (lit "hello") (lit "lo") = 3
  /\ find (lit "hello") (lit "z") = -1
  /\ find (lit "hello") [] = 0.
Proof. repeat split; reflexivity. Qed.

Example str_examples :
  str 0 = lit "0" /\ str 42 = lit "42" /\ str (-7) = lit "-7".
Proof. repeat split; reflexivity. Qed.

Example range_examples :
  range 0 3 = [0; 1; 2] /\ range (-1) 2 = [-1; 0; 1] /\ range 3 1 = [].
Proof. repeat split; reflexivity. Qed.

Example int_examples :
  int (lit "2") = Some 2
  /\ int (lit " -12 ") = Some (-12)
  /\ int (lit "+1_000") = Some 1000
  /\ int (lit "007") = Some 7
  /\ int (lit "abc") = None
  /\ int (lit "1__0") = None
  /\ int (lit "- 1") = None
  /\ int [] = None
  /\ int ("009"%char :: lit "5") = Some 5
  /\ int ("031"%char :: lit "5") = None
  /\ int (lit "5" ++ ["028"%char]) = None.
Proof. repeat split; reflexivity. Qed.

Example getopt_examples :
  getopt [lit "-i2"; lit "--ntt=3"; lit "--sk"; lit "0"; lit "-hd"; lit "1";
          lit "rest"; lit "-x"] shortopts longopts
  = Some ([(lit "-i", lit "2"); (lit "--ntt", lit "3"); (lit "--sk", lit "0");
           (lit "-h", []); (lit "-d", lit "1")],
          [lit "rest"; lit "-x"])
  /\ getopt [lit "--index=4"; lit "--"; lit "-x"] shortopts longopts
     = Some ([(lit "--index_map", lit "4")], [lit "-x"])
  /\ getopt [lit "-i"; lit "-1"] shortopts longopts
     = Some ([(lit "-i", lit "-1")], [])
  /\ getopt [lit "--i"; lit "1"] shortopts longopts = None
  /\ getopt [lit "-x"] shortopts longopts = None
  /\ getopt [lit "-n"] shortopts longopts = None.
Proof. repeat split; reflexivity. Qed.

(** ** Occurrences of a substring *)

Lemma app_same_length (A : Type) (a b x y : list A) :
  a ++ x = b ++ y -> length a = length b -> a = b /\ x = y.
Proof.
  revert b; induction a as [|h a IH]; intros [|h' b] E L;
    simpl in *; try discriminate; auto.
  injection E as -> E. injection L as L.
  destruct (IH _ E L) as [-> ->]. auto.
Qed.

Lemma startswith_app (p r : pystr) : startswith (p ++ r) p = true.
Proof.
  induction p as [|x p IH]; simpl; [reflexivity|].
  destruct (ascii_dec x x); [exact IH | congruence].
Qed.

Lemma startswith_inv (s p : pystr) :
  startswith s p = true -> exists r, s = p ++ r.
Proof.
  revert s; induction p as [|x p IH]; intros s H.
  - exists s; reflexivity.
  - destruct s as [|y s]; simpl in H; [discriminate|].
    destruct (ascii_dec x y) as [->|]; [|discriminate].
    destruct (IH _ H) as [r ->]. exists r; reflexivity.
Qed.

Lemma startswith_iff (s p : pystr) :
  startswith s p = true <-> exists r, s = p ++ r.
Proof.
  split; [apply startswith_inv|]. intros [r ->]. apply startswith_app.
Qed.

Lemma occurs_here (sub s : pystr) : startswith s sub = true -> occurs sub s.
Proof.
  intros H. destruct (startswith_inv _ _ H) as [r ->]. exists [], r; reflexivity.
Qed.

Lemma occurs_later (sub s : pystr) c : occurs sub s -> occurs sub (c :: s).
Proof. intros (pre & post & ->). exists (c :: pre), post; reflexivity. Qed.

Lemma occurs_cons_inv (sub s : pystr) c :
  occurs sub (c :: s) -> startswith (c :: s) sub = true \/ occurs sub s.
Proof.
  intros (pre & post & E). destruct pre as [|x pre]; simpl in E.
  - left. rewrite E. apply startswith_app.
  - right. injection E as _ ->. exists pre, post; reflexivity.
Qed.

Lemma occurs_nil_inv (sub : pystr) : occurs sub [] -> sub = [].
Proof.
  intros (pre & post & E). symmetry in E.
  apply app_eq_nil in E as [_ E]. apply app_eq_nil in E as [E _]. exact E.
Qed.

Lemma occurs_app_l (sub s pre : pystr) : occurs sub s -> occurs sub (pre ++ s).
Proof. induction pre; simpl; auto using occurs_later. Qed.

Lemma find_from_range (i : Z) (s sub : pystr) :
  find_from i s sub = -1 \/ i <= find_from i s sub.
Proof.
  revert i; induction s as [|c s IH]; intros i; simpl.
  - destruct (startswith [] sub); [right; lia | left; reflexivity].
  - destruct (startswith (c :: s) sub); [right; lia|].
    destruct (IH (i + 1)) as [->|]; [left; reflexivity | right; lia].
Qed.

Lemma find_from_none (i : Z) (s sub : pystr) :
  0 <= i -> (find_from i s sub = -1 <-> ~ occurs sub s).
Proof.
  revert i; induction s as [|c s IH]; intros i Hi; simpl.
  - destruct (startswith [] sub) eqn:E.
    + split; [lia|]. intros H; elim H. apply occurs_here, E.
    + split; [|reflexivity]. intros _ H. apply occurs_nil_inv in H. subst sub.
      discriminate.
  - destruct (startswith (c :: s) sub) eqn:E.
    + split; [lia|]. intros H; elim H. apply occurs_here, E.
    + rewrite (IH (i + 1)) by lia. split; intros H O.
      * apply occurs_cons_inv in O as [O|O]; [congruence | auto].
      * apply H, occurs_later, O.
Qed.

(** [find] answers -1 exactly when the substring does not occur. *)
Lemma find_none (s sub : pystr) : find s sub = -1 <-> ~ occurs sub s.
Proof. apply find_from_none; lia. Qed.

Lemma find_from_found (i : Z) (s sub : pystr) :
  find_from i s sub <> -1 -> occurs sub s.
Proof.
  revert i; induction s as [|c s IH]; intros i; simpl.
  - destruct (startswith [] sub) eqn:S; [intros _; apply occurs_here, S|].
    congruence.
  - destruct (startswith (c :: s) sub) eqn:S; [intros _; apply occurs_here, S|].
    intros F. apply occurs_later, (IH (i + 1)), F.
Qed.

(** The test of line 23. *)
Lemma find_test (s sub : pystr) :
  negb (find s sub =? -1) = true <-> occurs sub s.
Proof.
  rewrite negb_true_iff, Z.eqb_neq. split.
  - apply find_from_found.
  - intros O F. apply find_none in F. exact (F O).
Qed.

(** ** [replace], equation by equation *)

Lemma replace_scan_skip (old new : pystr) (n : nat) (s : pystr) :
  replace_scan old new n s = replace_scan old new 0 (skipn n s).
Proof.
  revert n; induction s as [|c s IH]; intros [|n]; simpl; auto.
Qed.

Lemma replace_scan_nil (old new : pystr) : replace_scan old new 0 [] = [].
Proof. reflexivity. Qed.

Lemma replace_scan_hit (old new r : pystr) :
  old <> [] ->
  replace_scan old new 0 (old ++ r) = new ++ replace_scan old new 0 r.
Proof.
  destruct old as [|o old]; [congruence|]. intros _.
  change ((o :: old) ++ r) with (o :: (old ++ r)).
  cbn [replace_scan]. change (o :: old ++ r) with ((o :: old) ++ r).
  rewrite startswith_app. f_equal.
  rewrite replace_scan_skip. cbn [length Nat.pred].
  rewrite skipn_app, skipn_all, Nat.sub_diag. reflexivity.
Qed.

Lemma replace_scan_miss (old new s : pystr) c :
  startswith (c :: s) old = false ->
  replace_scan old new 0 (c :: s) = c :: replace_scan old new 0 s.
Proof. intros H. cbn [replace_scan]. rewrite H. reflexivity. Qed.

Lemma replace_eq (s old new : pystr) :
  old <> [] -> replace s old new = replace_scan old new 0 s.
Proof. destruct old; [congruence | reflexivity]. Qed.

(** Induction along the scan of [replace]: nothing left, an occurrence at
    the front, or a character that starts none. *)
Lemma scan_ind (old : pystr) (P : pystr -> Prop) :
  old <> [] ->
  P [] ->
  (forall r, P r -> P (old ++ r)) ->
  (forall c s, startswith (c :: s) old = false -> P s -> P (c :: s)) ->
  forall s, P s.
Proof.
  intros Hold Hnil Hhit Hmiss s.
  assert (forall n s, (length s <= n)%nat -> P s) as H; [|exact (H _ s (le_n _))].
  clear s. induction n as [|n IH]; intros s Hs.
  - destruct s; [exact Hnil | simpl in Hs; lia].
  - destruct s as [|c s]; [exact Hnil|].
    destruct (startswith (c :: s) old) eqn:E.
    + destruct (startswith_inv _ _ E) as [r Er]. rewrite Er. apply Hhit, IH.
      apply (f_equal (@length _)) in Er. rewrite length_app in Er.
      simpl in Er, Hs. destruct old; [congruence | simpl in Er; lia].
    + apply Hmiss; [exact E|]. apply IH. simpl in Hs. lia.
Qed.

Lemma replace_absent (s old new : pystr) :
  ~ occurs old s -> replace s old new = s.
Proof.
  intros H. destruct old as [|o old].
  - elim H. exists [], s. reflexivity.
  - cbn [replace]. induction s as [|c s IH]; [reflexivity|].
    rewrite replace_scan_miss.
    + f_equal. apply IH. intros O. apply H, occurs_later, O.
    + destruct (startswith (c :: s) (o :: old)) eqn:E; [|reflexivity].
      elim H. apply occurs_here, E.
Qed.

Lemma replace_same (s old : pystr) : old <> [] -> replace s old old = s.
Proof.
  intros Hold. rewrite replace_eq by exact Hold.
  revert s. apply (@scan_ind old); [exact Hold | | |].
  - reflexivity.
  - intros r IH. rewrite replace_scan_hit by exact Hold. congruence.
  - intros c s Hc IH. rewrite replace_scan_miss by assumption. congruence.
Qed.

Lemma all_replaced_cons (old new s r : pystr) c :
  startswith (c :: s) old = false ->
  all_replaced old new s r -> all_replaced old new (c :: s) (c :: r).
Proof.
  intros Hc H. destruct H as [s Hno | pre rest rest' Hl Hr].
  - apply AR_none. intros O. apply occurs_cons_inv in O as [O|O]; congruence.
  - apply (AR_first (new := new) (pre := c :: pre)); [|exact Hr].
    intros pre' post' E. destruct pre' as [|x pre'].
    + simpl in E. rewrite E, startswith_app in Hc. discriminate.
    + simpl in E. injection E as _ E. apply Hl in E. simpl. lia.
Qed.

(** [replace] replaces every occurrence. *)
Lemma replace_all_replaced (s old new : pystr) :
  old <> [] -> all_replaced old new s (replace s old new).
Proof.
  intros Hold. rewrite replace_eq by exact Hold.
  revert s. apply (@scan_ind old); [exact Hold | | |].
  - apply AR_none. intros O. apply occurs_nil_inv in O. congruence.
  - intros r IH. rewrite replace_scan_hit by exact Hold.
    apply (AR_first (pre := [])); [|assumption].
    intros pre' post' _. simpl. lia.
  - intros c s Hc IH. rewrite replace_scan_miss by assumption.
    apply all_replaced_cons; assumption.
Qed.

(** ... and "every occurrence replaced" leaves one result only. *)
Lemma all_replaced_unique (old new s r1 r2 : pystr) :
  all_replaced old new s r1 -> all_replaced old new s r2 -> r1 = r2.
Proof.
  intros H1; revert r2.
  induction H1 as [s Hno | pre rest rest' Hl Hr IH]; intros r2 H2.
  - inversion H2 as [|pre2 rest2 rest2' Hl2 Hr2 E]; subst; [reflexivity|].
    elim Hno. exists pre2, rest2. reflexivity.
  - inversion H2 as [s' Hno E|pre2 rest2 rest2' Hl2 Hr2 E]; subst.
    + elim Hno. exists pre, rest. reflexivity.
    + assert (length pre = length pre2) as Hlen.
      { apply Nat.le_antisymm; [apply (Hl pre2 rest2) | apply (Hl2 pre rest)];
          congruence. }
      apply app_same_length in E as [E1 E2]; [|congruence].
      subst pre2. apply app_inv_head in E2. subst rest2.
      rewrite (IH _ Hr2). reflexivity.
Qed.

(** ** [range] *)

Lemma in_range (lo hi k : Z) : In k (range lo hi) <-> lo <= k < hi.
Proof.
  unfold range. rewrite in_map_iff. split.
  - intros (n & <- & Hn). apply in_seq in Hn. lia.
  - intros H. exists (Z.to_nat (k - lo)). split; [lia|]. apply in_seq. lia.
Qed.

Lemma range_sorted (lo hi : Z) : StronglySorted Z.lt (range lo hi).
Proof.
  unfold range. generalize (Z.to_nat (hi - lo)) as n. generalize 0%nat as i.
  intros i n; revert i; induction n as [|n IH]; intros i; simpl.
  - constructor.
  - constructor; [apply IH|]. apply Forall_forall. intros x Hx.
    apply in_map_iff in Hx as (j & <- & Hj). apply in_seq in Hj. lia.
Qed.

(** ** [file_line_rep], call by call *)

Lemma rep_line_fold (base_string : pystr) (min_val max_val set_val : Z)
    (filedata newfiledata : list pystr) :
  fold_left (rep_line base_string min_val max_val set_val) filedata newfiledata
  = newfiledata ++ map (new_line base_string min_val max_val set_val) filedata.
Proof.
  revert newfiledata; induction filedata as [|line filedata IH];
    intros newfiledata; simpl.
  - rewrite app_nil_r. reflexivity.
  - rewrite IH. unfold rep_line. rewrite <- app_assoc. reflexivity.
Qed.

(** With a well-formed range and a target inside it, the call prints its one
    message and returns every line after [new_line]. *)
Lemma file_line_rep_returns (filedata : list pystr) (base_string : pystr)
    (min_val max_val set_val : Z) (w : world) :
  min_val <= max_val -> min_val <= set_val <= max_val ->
  file_line_rep filedata base_string min_val max_val set_val w
  = (Ret (map (new_line base_string min_val max_val set_val) filedata),
     said w [setting_message base_string set_val]).
Proof.
  intros Hr Ht. unfold file_line_rep, bind, print, emit, ret, said.
  simpl.
  destruct (max_val <? min_val) eqn:E1; [apply Z.ltb_lt in E1; lia|].
  destruct (set_val >? max_val) eqn:E2; [apply Z.gtb_lt in E2; lia|].
  destruct (set_val <? min_val) eqn:E3; [apply Z.ltb_lt in E3; lia|].
  simpl. rewrite rep_line_fold. reflexivity.
Qed.

(** Otherwise it prints a second message and raises; nothing is returned. *)
Lemma file_line_rep_raises (filedata : list pystr) (base_string : pystr)
    (min_val max_val set_val : Z) (w : world) :
  max_val < min_val \/ set_val < min_val \/ max_val < set_val ->
  file_line_rep filedata base_string min_val max_val set_val w
  = (Raise RuntimeError,
     said w [setting_message base_string set_val; complaint min_val max_val]).
Proof.
  intros H. unfold file_line_rep, bind, print, emit, ret, raise, said, complaint.
  simpl.
  destruct (max_val <? min_val) eqn:E1.
  - simpl. rewrite <- app_assoc. reflexivity.
  - apply Z.ltb_ge in E1. simpl.
    destruct ((set_val >? max_val) || (set_val <? min_val)) eqn:E2.
    + simpl. rewrite <- app_assoc. reflexivity.
    + apply orb_false_iff in E2 as [E2 E3].
      apply Z.ltb_ge in E3. rewrite Z.gtb_ltb in E2. apply Z.ltb_ge in E2. lia.
Qed.

(** ** The rewriting of one line, said without [replace] *)

Lemma name_value_not_nil (name : pystr) (k : Z) : name_value name k <> [].
Proof.
  unfold name_value, space. intros E. apply app_eq_nil in E as [_ E].
  discriminate.
Qed.

Lemma rep_value_fold_in_turn (name : pystr) (target : Z) (ks : list Z)
    (line : pystr) :
  replaced_in_turn name target ks line
    (fold_left (rep_value name target) ks line).
Proof.
  revert line; induction ks as [|k ks IH]; intros line; simpl.
  - constructor.
  - econstructor; [|apply IH]. unfold rep_value.
    apply replace_all_replaced, name_value_not_nil.
Qed.

Lemma counts_up_range (min max : Z) : counts_up min max (range min (max + 1)).
Proof.
  split; [apply range_sorted|]. intros k. rewrite in_range. lia.
Qed.

Lemma new_line_rewritten (name : pystr) (min max target : Z) (line : pystr) :
  line_rewritten name min max target line (new_line name min max target line).
Proof.
  unfold new_line. destruct (negb (find line name =? -1)) eqn:E.
  - apply find_test in E. split; [|tauto]. intros _.
    exists (range min (max + 1)). split; [apply counts_up_range|].
    apply rep_value_fold_in_turn.
  - split; [|reflexivity]. intros O. apply find_test in O. congruence.
Qed.

(** [counts_up] and [replaced_in_turn] leave no choice. *)
Lemma counts_up_unique (min max : Z) (ks1 ks2 : list Z) :
  counts_up min max ks1 -> counts_up min max ks2 -> ks1 = ks2.
Proof.
  intros [S1 I1] [S2 I2].
  assert (forall k, In k ks1 <-> In k ks2) as I by (intros; rewrite I1, I2; tauto).
  clear I1 I2 min max. revert ks2 S2 I.
  induction S1 as [|a l1 S1 IH F1]; intros ks2 S2 I.
  - destruct ks2 as [|b l2]; [reflexivity|]. destruct (proj2 (I b)); simpl; auto.
  - destruct S2 as [|b l2 S2 F2]; [destruct (proj1 (I a)); simpl; auto|].
    rewrite Forall_forall in F1, F2.
    assert (a = b) as ->.
    { destruct (proj1 (I a)) as [|Ha]; [simpl; auto | congruence |].
      destruct (proj2 (I b)) as [|Hb]; [simpl; auto | congruence |].
      apply F1 in Hb. apply F2 in Ha. lia. }
    f_equal. apply IH; [exact S2|]. intros k. split; intros Hk.
    + destruct (proj1 (I k)) as [<-|]; [simpl; auto | | assumption].
      apply F1 in Hk. lia.
    + destruct (proj2 (I k)) as [<-|]; [simpl; auto | | assumption].
      apply F2 in Hk. lia.
Qed.

Lemma replaced_in_turn_unique (name : pystr) (target : Z) (ks : list Z)
    (s r1 r2 : pystr) :
  replaced_in_turn name target ks s r1 ->
  replaced_in_turn name target ks s r2 -> r1 = r2.
Proof.
  intros H1; revert r2. induction H1 as [|k ks s s' s'' Hk Hks IH]; intros r2 H2.
  - inversion H2; subst. reflexivity.
  - inversion H2 as [|k' ks' t t' t'' Hk' Hks']; subst.
    rewrite (all_replaced_unique Hk' Hk) in Hks'. apply IH, Hks'.
Qed.

(** So [line_rewritten] names one line: the one [new_line] computes. *)
Lemma line_rewritten_unique (name : pystr) (min max target : Z)
    (line line' : pystr) :
  line_rewritten name min max target line line' ->
  line' = new_line name min max target line.
Proof.
  intros [Hin Hout].
  destruct (new_line_rewritten name min max target line) as [Hin' Hout'].
  destruct (negb (find line name =? -1)) eqn:E.
  - apply find_test in E.
    destruct (Hin E) as (ks & Cks & Rks), (Hin' E) as (ks' & Cks' & Rks').
    rewrite (counts_up_unique Cks Cks') in Rks.
    apply (replaced_in_turn_unique Rks Rks').
  - assert (~ occurs name line) as N.
    { intros O. apply find_test in O. congruence. }
    rewrite (Hout N), (Hout' N). reflexivity.
Qed.

(** ** Edits of a line *)

Lemma value_edits_behind (name : pystr) (min max target : Z)
    (front s s' : pystr) :
  value_edits name min max target s s' ->
  value_edits name min max target (front ++ s) (front ++ s').
Proof.
  induction 1 as [s s' H | s | s u s' _ IH1 _ IH2].
  - apply rt_step. destruct H as [pre post k Hk].
    rewrite !(app_assoc front pre). constructor. exact Hk.
  - apply rt_refl.
  - eapply rt_trans; eassumption.
Qed.

Lemma all_replaced_edits (name : pystr) (min max target k : Z) (s s' : pystr) :
  min <= k <= max ->
  all_replaced (name_value name k) (name_value name target) s s' ->
  value_edits name min max target s s'.
Proof.
  intros Hk. induction 1 as [s _ | pre rest rest' _ _ IH].
  - apply rt_refl.
  - apply rt_trans with (pre ++ name_value name target ++ rest).
    + apply rt_step. unfold name_value. rewrite <- !app_assoc.
      constructor. exact Hk.
    + rewrite !(app_assoc pre). apply value_edits_behind, IH.
Qed.

Lemma replaced_in_turn_edits (name : pystr) (min max target : Z)
    (ks : list Z) (s s' : pystr) :
  (forall k, In k ks -> min <= k <= max) ->
  replaced_in_turn name target ks s s' ->
  value_edits name min max target s s'.
Proof.
  intros Hks. induction 1 as [s | k ks s s' s'' Hk _ IH].
  - apply rt_refl.
  - eapply rt_trans.
    + apply all_replaced_edits with (k := k); [apply Hks; simpl; auto | exact Hk].
    + apply IH. intros j Hj. apply Hks. simpl; auto.
Qed.

Lemma new_line_edits (name : pystr) (min max target : Z) (line : pystr) :
  value_edits name min max target line (new_line name min max target line).
Proof.
  unfold new_line. destruct (negb (find line name =? -1)); [|apply rt_refl].
  apply replaced_in_turn_edits with (ks := range min (max + 1)).
  - intros k Hk. apply in_range in Hk. lia.
  - apply rep_value_fold_in_turn.
Qed.

(** A line in which no "<name> <k>" of the range occurs comes back as it is. *)
Lemma new_line_absent (name : pystr) (min max target : Z) (line : pystr) :
  (forall k, min <= k <= max -> ~ occurs (name_value name k) line) ->
  new_line name min max target line = line.
Proof.
  intros H. unfold new_line.
  destruct (negb (find line name =? -1)); [|reflexivity].
  assert (forall k, In k (range min (max + 1)) -> min <= k <= max) as Hks.
  { intros k Hk. apply in_range in Hk. lia. }
  induction (range min (max + 1)) as [|k ks IH]; simpl; [reflexivity|].
  unfold rep_value at 2. rewrite replace_absent.
  - apply IH. intros j Hj. apply Hks. simpl; auto.
  - apply H, Hks. simpl; auto.
Qed.

(** ** The claims about [file_line_rep] *)

(** C1.  For every line sequence, macro name, range with min <= max and
    target inside the range, [file_line_rep] returns a sequence in which each
    line that holds the name has every occurrence of "<name> <k>" replaced by
    "<name> <target>", for k = min, ..., max in this order and each time in
    the result of the replacements before, and in which each line that does
    not hold the name is the input line. *)
Theorem file_line_rep_rewrites_lines (filedata : list pystr) (base_string : pystr)
    (min_val max_val set_val : Z) (w : world) :
  min_val <= max_val -> min_val <= set_val <= max_val ->
  exists newfiledata w',
    file_line_rep filedata base_string min_val max_val set_val w
    = (Ret newfiledata, w')
    /\ Forall2 (line_rewritten base_string min_val max_val set_val)
               filedata newfiledata.
Proof.
  intros Hr Ht. eexists _, _. split.
  - apply file_line_rep_returns; assumption.
  - induction filedata as [|line filedata IH]; simpl; constructor.
    + apply new_line_rewritten.
    + exact IH.
Qed.

Lemma file_line_rep_rewrites_lines_witness :
  exists newfiledata w',
    file_line_rep [lit "#define SE_IFFT_TYPE 0"; lit "// SE_IFFT_TYPE 0"]
                  (lit "#define SE_IFFT_TYPE") 0 2 1 empty_world
    = (Ret newfiledata, w')
    /\ Forall2 (line_rewritten (lit "#define SE_IFFT_TYPE") 0 2 1)
               [lit "#define SE_IFFT_TYPE 0"; lit "// SE_IFFT_TYPE 0"]
               newfiledata.
Proof. apply file_line_rep_rewrites_lines; lia. Defined.

(** C2.  In every line, the rewrite only does edits that put the numeral of
    the target in the place of a numeral that stands directly behind the
    macro name and one space; every other character of the line, the ones
    that follow the numeral included, is left as it is. *)
Theorem file_line_rep_only_edits_values (filedata : list pystr)
    (base_string : pystr) (min_val max_val set_val : Z) (w : world) :
  min_val <= max_val -> min_val <= set_val <= max_val ->
  exists newfiledata w',
    file_line_rep filedata base_string min_val max_val set_val w
    = (Ret newfiledata, w')
    /\ Forall2 (value_edits base_string min_val max_val set_val)
               filedata newfiledata.
Proof.
  intros Hr Ht. eexists _, _. split.
  - apply file_line_rep_returns; assumption.
  - induction filedata as [|line filedata IH]; simpl; constructor.
    + apply new_line_edits.
    + exact IH.
Qed.

Lemma file_line_rep_only_edits_values_witness :
  exists newfiledata w',
    file_line_rep [lit "#define SE_IFFT_TYPE 23"]
                  (lit "#define SE_IFFT_TYPE") 0 2 1 empty_world
    = (Ret newfiledata, w')
    /\ Forall2 (value_edits (lit "#define SE_IFFT_TYPE") 0 2 1)
               [lit "#define SE_IFFT_TYPE 23"] newfiledata.
Proof. apply file_line_rep_only_edits_values; lia. Defined.

(** The example of C2: of "#define SE_IFFT_TYPE 23" the 2 is rewritten and
    the 3 behind it stays. *)
Example file_line_rep_keeps_following_digit :
  fst (file_line_rep [lit "#define SE_IFFT_TYPE 23"; lit "int x = 2;"]
                     (lit "#define SE_IFFT_TYPE") 0 2 1 empty_world)
  = Ret [lit "#define SE_IFFT_TYPE 13"; lit "int x = 2;"].
Proof. vm_compute. reflexivity. Qed.

(** C9.  The sequence returned has as many lines as the input, in the same
    order: the line at an index of the output is what the rewrite makes of
    the line at that index of the input. *)
Theorem file_line_rep_keeps_line_order (filedata : list pystr)
    (base_string : pystr) (min_val max_val set_val : Z) (w : world) :
  min_val <= max_val -> min_val <= set_val <= max_val ->
  exists newfiledata w',
    file_line_rep filedata base_string min_val max_val set_val w
    = (Ret newfiledata, w')
    /\ length newfiledata = length filedata
    /\ forall i line,
         nth_error filedata i = Some line ->
         nth_error newfiledata i
         = Some (new_line base_string min_val max_val set_val line).
Proof.
  intros Hr Ht. eexists _, _. split; [|split].
  - apply file_line_rep_returns; assumption.
  - apply length_map.
  - intros i line Hi. rewrite nth_error_map, Hi. reflexivity.
Qed.

Lemma file_line_rep_keeps_line_order_witness :
  exists newfiledata w',
    file_line_rep [lit "a"; lit "#define SE_SK_TYPE 2"; lit "b"]
                  (lit "#define SE_SK_TYPE") 0 2 0 empty_world
    = (Ret newfiledata, w')
    /\ length newfiledata = length [lit "a"; lit "#define SE_SK_TYPE 2"; lit "b"]
    /\ forall i line,
         nth_error [lit "a"; lit "#define SE_SK_TYPE 2"; lit "b"] i = Some line ->
         nth_error newfiledata i
         = Some (new_line (lit "#define SE_SK_TYPE") 0 2 0 line).
Proof. apply file_line_rep_keeps_line_order; lia. Defined.

(** C10.  A line that holds the macro name but no "<name> <k>" for a k of the
    range, such as "#define SE_IFFT_TYPE 9" for the range 0 to 2, is returned
    as it is. *)
Theorem file_line_rep_keeps_out_of_range_value (filedata : list pystr)
    (base_string : pystr) (min_val max_val set_val : Z) (w : world)
    (i : nat) (line : pystr) :
  min_val <= max_val -> min_val <= set_val <= max_val ->
  nth_error filedata i = Some line ->
  occurs base_string line ->
  (forall k, min_val <= k <= max_val ->
             ~ occurs (base_string ++ space ++ str k) line) ->
  exists newfiledata w',
    file_line_rep filedata base_string min_val max_val set_val w
    = (Ret newfiledata, w')
    /\ nth_error newfiledata i = Some line.
Proof.
  intros Hr Ht Hi _ Hno. eexists _, _. split.
  - apply file_line_rep_returns; assumption.
  - rewrite nth_error_map, Hi. simpl. f_equal. apply new_line_absent, Hno.
Qed.

Lemma file_line_rep_keeps_out_of_range_value_witness :
  exists newfiledata w',
    file_line_rep [lit "#define SE_IFFT_TYPE 9"]
                  (lit "#define SE_IFFT_TYPE") 0 2 1 empty_world
    = (Ret newfiledata, w')
    /\ nth_error newfiledata 0 = Some (lit "#define SE_IFFT_TYPE 9").
Proof.
  apply file_line_rep_keeps_out_of_range_value; try lia.
  - reflexivity.
  - exists [], (lit " 9"). reflexivity.
  - intros k Hk. apply find_none.
    assert (k = 0 \/ k = 1 \/ k = 2) as [->|[->| ->]] by lia;
      vm_compute; reflexivity.
Defined.

(** ** Ranges of one digit *)

Lemma str_digit (k : Z) : 0 <= k <= 9 -> str k = [digit k].
Proof.
  intros H.
  assert (k = 0 \/ k = 1 \/ k = 2 \/ k = 3 \/ k = 4 \/ k = 5 \/ k = 6
          \/ k = 7 \/ k = 8 \/ k = 9) as D by lia.
  repeat (destruct D as [->|D]; [reflexivity|]). subst k. reflexivity.
Qed.

Lemma digit_isdigit (k : Z) : 0 <= k <= 9 -> isdigit (digit k) = true.
Proof.
  intros H.
  assert (k = 0 \/ k = 1 \/ k = 2 \/ k = 3 \/ k = 4 \/ k = 5 \/ k = 6
          \/ k = 7 \/ k = 8 \/ k = 9) as D by lia.
  repeat (destruct D as [->|D]; [reflexivity|]). subst k. reflexivity.
Qed.

Lemma digit_inj (j k : Z) :
  0 <= j <= 9 -> 0 <= k <= 9 -> digit j = digit k -> j = k.
Proof.
  intros Hj Hk E. unfold digit in E.
  apply (f_equal nat_of_ascii) in E.
  rewrite !nat_ascii_embedding in E by lia. lia.
Qed.

Lemma digit_not_in_name (name : pystr) (k : Z) :
  digit_free name -> 0 <= k <= 9 -> ~ In (digit k) (name ++ space).
Proof.
  intros Hn Hk Hin. apply in_app_iff in Hin as [Hin|Hin].
  - unfold digit_free in Hn. rewrite Forall_forall in Hn.
    apply Hn in Hin. rewrite digit_isdigit in Hin by exact Hk. discriminate.
  - destruct Hin as [E|[]]. apply (f_equal isdigit) in E.
    rewrite digit_isdigit in E by exact Hk. discriminate.
Qed.

(** ** Occurrences after a replacement of one character behind a stem *)

Lemma occurs_app_inv (pat x y : pystr) :
  occurs pat (x ++ y) ->
  (exists x1 x2, x = x1 ++ x2 /\ x2 <> [] /\ startswith (x2 ++ y) pat = true)
  \/ occurs pat y.
Proof.
  induction x as [|h x IH]; intros O; [right; exact O|].
  simpl in O. apply occurs_cons_inv in O as [O|O].
  - left. exists [], (h :: x). repeat split; [discriminate | exact O].
  - destruct (IH O) as [(x1 & x2 & -> & Hx2 & S)|Oy]; [left | right; exact Oy].
    exists (h :: x1), x2. repeat split; assumption.
Qed.

Lemma occurs_stem (stem tail s : pystr) : occurs (stem ++ tail) s -> occurs stem s.
Proof.
  intros (pre & post & ->). exists pre, (tail ++ post).
  rewrite <- app_assoc. reflexivity.
Qed.

Section OneCharacter.

(** [stem ++ [a]] is replaced by [stem ++ [b]], where [b] is no character
    of [stem]. *)
Variables (stem : pystr) (a b : ascii).
Hypothesis b_fresh : ~ In b stem.

Let old : pystr := stem ++ [a].
Let new : pystr := stem ++ [b].

Let old_not_nil : old <> [].
Proof. unfold old. intros E. apply app_eq_nil in E as [_ E]. discriminate. Qed.

Lemma kept_refl (s : pystr) : Forall2 (kept_or_set a b) s s.
Proof. induction s; constructor; [left; reflexivity | assumption]. Qed.

Lemma replace_scan_kept_or_set (s : pystr) :
  Forall2 (kept_or_set a b) s (replace_scan old new 0 s).
Proof.
  revert s. apply (@scan_ind old); [exact old_not_nil | | |].
  - constructor.
  - intros r IH. rewrite replace_scan_hit by exact old_not_nil.
    apply Forall2_app; [|exact IH]. unfold old, new.
    apply Forall2_app; [apply kept_refl|].
    constructor; [right; split; reflexivity | constructor].
  - intros c s Hc IH. rewrite replace_scan_miss by exact Hc.
    constructor; [left; reflexivity | exact IH].
Qed.

(** An occurrence of [stem ++ [c]], [c] other than [b], at the front of
    the result was at the front of the input. *)
Lemma startswith_before (c : ascii) (s s' : pystr) :
  c <> b ->
  Forall2 (kept_or_set a b) s s' ->
  startswith s' (stem ++ [c]) = true -> startswith s (stem ++ [c]) = true.
Proof.
  intros Hc. revert s s' b_fresh. clear old new old_not_nil.
  induction stem as [|n st IH]; intros s s' Hb F S.
  - destruct F as [|x y s s' Hxy F]; [discriminate|]. simpl in *.
    destruct (ascii_dec c y) as [<-|]; [|discriminate].
    destruct Hxy as [->|[_ ->]]; [|congruence].
    destruct (ascii_dec c c); [reflexivity | congruence].
  - destruct F as [|x y s s' Hxy F]; [discriminate|]. simpl in *.
    destruct (ascii_dec n y) as [<-|]; [|discriminate].
    destruct Hxy as [->|[_ E]]; [|elim Hb; auto].
    destruct (ascii_dec n n); [|congruence].
    apply (IH s s'); [tauto | exact F | exact S].
Qed.

(** [stem ++ [c]] does not start inside a [stem ++ [b]]. *)
Lemma not_inside_new (c : ascii) (x1 x2 y : pystr) :
  c <> b -> new = x1 ++ x2 -> x2 <> [] ->
  startswith (x2 ++ y) (stem ++ [c]) = false.
Proof.
  intros Hc E Hx2.
  destruct (startswith (x2 ++ y) (stem ++ [c])) eqn:S; [exfalso|reflexivity].
  apply startswith_inv in S as [rest S].
  destruct (exists_last Hx2) as (x2' & z & ->).
  unfold new in E. rewrite app_assoc in E.
  apply app_inj_tail in E as [E <-].
  rewrite <- !app_assoc in S. simpl in S.
  apply app_eq_app in S as [l [[S1 S2]|[S1 S2]]].
  - assert (l = []) as ->.
    { apply (f_equal (@length _)) in S1. rewrite E, !length_app in S1.
      destruct l; [reflexivity | simpl in S1; lia]. }
    simpl in S2. congruence.
  - destruct l as [|h l]; simpl in S2; [congruence|].
    injection S2 as <- _. apply b_fresh. rewrite S1.
    apply in_or_app. right. simpl. auto.
Qed.

(** After the replacement, [stem ++ [c]] occurs only where it occurred
    before, and [stem ++ [a]] no more. *)
Lemma occurs_after_replace (c : ascii) (s : pystr) :
  c <> b ->
  occurs (stem ++ [c]) (replace s old new) ->
  occurs (stem ++ [c]) s /\ c <> a.
Proof.
  intros Hc. rewrite replace_eq by exact old_not_nil.
  revert s.
  apply (@scan_ind old
           (fun s => occurs (stem ++ [c]) (replace_scan old new 0 s) ->
                     occurs (stem ++ [c]) s /\ c <> a));
    [exact old_not_nil | | |].
  - intros O. apply occurs_nil_inv, app_eq_nil in O as [_ O]. discriminate.
  - intros r IH O. rewrite replace_scan_hit in O by exact old_not_nil.
    apply occurs_app_inv in O as [(x1 & x2 & E & Hx2 & S)|O].
    + rewrite (@not_inside_new c x1 x2 _ Hc E Hx2) in S. discriminate.
    + destruct (IH O) as [Or Hca]. split; [|exact Hca].
      apply occurs_app_l, Or.
  - intros h s Hmiss IH O. rewrite replace_scan_miss in O by exact Hmiss.
    apply occurs_cons_inv in O as [S|O].
    + apply (startswith_before (s := h :: s)) in S;
        [|exact Hc | constructor;
                     [left; reflexivity | apply replace_scan_kept_or_set]].
      split; [apply occurs_here, S|].
      intros ->. unfold old in Hmiss. congruence.
    + destruct (IH O) as [Os Hca]. split; [|exact Hca].
      apply occurs_later, Os.
Qed.

End OneCharacter.

(** ** A second pass over a rewritten line *)

Lemma name_value_digit (name : pystr) (k : Z) :
  0 <= k <= 9 -> name_value name k = (name ++ space) ++ [digit k].
Proof.
  intros Hk. unfold name_value. rewrite str_digit by exact Hk.
  apply app_assoc.
Qed.

(** What still occurs behind the name after the inner loop occurred there
    before the loop, and is none of the values the loop went through. *)
Lemma occurs_after_values (name : pystr) (target : Z) (ks : list Z)
    (line : pystr) (c : ascii) :
  (forall k, In k ks -> 0 <= k <= 9) -> 0 <= target <= 9 ->
  ~ In (digit target) (name ++ space) -> c <> digit target ->
  occurs ((name ++ space) ++ [c]) (fold_left (rep_value name target) ks line) ->
  occurs ((name ++ space) ++ [c]) line /\ forall k, In k ks -> c <> digit k.
Proof.
  intros Hks Ht Hfresh Hc. revert line.
  induction ks as [|k ks IH]; intros line O; simpl in O.
  - split; [exact O | intros k []].
  - apply IH in O as [O Hrest]; [|intros j Hj; apply Hks; simpl; auto].
    unfold rep_value in O. fold (name_value name k) in O.
    fold (name_value name target) in O.
    rewrite (name_value_digit name (k := k)) in O by (apply Hks; simpl; auto).
    rewrite (name_value_digit name (k := target)) in O by exact Ht.
    apply occurs_after_replace in O as [O Hk]; [|exact Hfresh | exact Hc].
    split; [exact O|]. intros j [<-|Hj]; [exact Hk | apply Hrest, Hj].
Qed.

(** A line in which, of the values of the range, only the target stands
    behind the name comes back as it is. *)
Lemma new_line_settled (name : pystr) (min max target : Z) (line : pystr) :
  (forall k, min <= k <= max -> k <> target ->
             ~ occurs (name_value name k) line) ->
  new_line name min max target line = line.
Proof.
  intros H. unfold new_line.
  destruct (negb (find line name =? -1)); [|reflexivity].
  assert (forall k, In k (range min (max + 1)) -> min <= k <= max) as Hks.
  { intros k Hk. apply in_range in Hk. lia. }
  induction (range min (max + 1)) as [|k ks IH]; simpl; [reflexivity|].
  assert (rep_value name target line k = line) as ->.
  { unfold rep_value. destruct (Z.eq_dec k target) as [->|Hk].
    - apply replace_same, name_value_not_nil.
    - apply replace_absent, H; [apply Hks; simpl; auto | exact Hk]. }
  apply IH. intros j Hj. apply Hks. simpl; auto.
Qed.

Lemma new_line_twice (name : pystr) (min max target : Z) (line : pystr) :
  digit_free name -> 0 <= min -> max <= 9 -> min <= target <= max ->
  new_line name min max target (new_line name min max target line)
  = new_line name min max target line.
Proof.
  intros Hn Hmin Hmax Ht. apply new_line_settled. intros k Hk Hkt O.
  unfold new_line in O. destruct (negb (find line name =? -1)) eqn:E.
  - rewrite name_value_digit in O by lia.
    apply occurs_after_values in O as [_ O].
    + apply (O k); [apply in_range; lia | reflexivity].
    + intros j Hj. apply in_range in Hj. lia.
    + lia.
    + apply digit_not_in_name; [exact Hn | lia].
    + intros D. apply digit_inj in D; lia.
  - apply occurs_stem, find_test in O. congruence.
Qed.

(** The names of the five macros hold no digit, and their ranges are ranges
    of one digit. *)
Lemma macro_name_digit_free (m : macro) : digit_free (macro_name m).
Proof. destruct m; repeat constructor. Qed.

Lemma macro_range_one_digit (m : macro) :
  0 <= macro_min m /\ macro_min m <= macro_max m /\ macro_max m <= 9.
Proof. destruct m; unfold macro_min, macro_max; lia. Qed.

(** ** C6: rewriting twice *)

(** C6, as stated, fails.  With a range that reaches 10 and the target 10,
    one call turns "#define SE_IFFT_TYPE 1" into "#define SE_IFFT_TYPE 10",
    and a second call with the same name, range and target turns that line,
    which holds "<name> <target>", into "#define SE_IFFT_TYPE 100".  And
    with the range 0 to 2 of the macro itself, a line that holds
    "<name> <target>" is still changed where another value of the range
    stands behind a second occurrence of the name. *)
Lemma file_line_rep_twice_differs :
  fst (file_line_rep [lit "#define SE_IFFT_TYPE 1"]
                     (lit "#define SE_IFFT_TYPE") 0 10 10 empty_world)
  = Ret [lit "#define SE_IFFT_TYPE 10"]
  /\ fst (file_line_rep [lit "#define SE_IFFT_TYPE 10"]
                        (lit "#define SE_IFFT_TYPE") 0 10 10 empty_world)
     = Ret [lit "#define SE_IFFT_TYPE 100"]
  /\ fst (file_line_rep
            [lit "#define SE_IFFT_TYPE 1 // was #define SE_IFFT_TYPE 0"]
            (lit "#define SE_IFFT_TYPE") 0 2 1 empty_world)
     = Ret [lit "#define SE_IFFT_TYPE 1 // was #define SE_IFFT_TYPE 1"].
Proof. repeat split; vm_compute; reflexivity. Qed.

(** C6, amended.  For a macro name that holds no decimal digit and a range of
    single digits, 0 <= min <= max <= 9, as the five macros of the script
    have them, and a target inside the range: [file_line_rep] applied to its
    own result, with the same name, range and target, returns that result. *)
Theorem file_line_rep_twice (filedata : list pystr) (base_string : pystr)
    (min_val max_val set_val : Z) (w : world) :
  digit_free base_string ->
  0 <= min_val -> max_val <= 9 -> min_val <= set_val <= max_val ->
  exists newfiledata w1 w2,
    file_line_rep filedata base_string min_val max_val set_val w
    = (Ret newfiledata, w1)
    /\ file_line_rep newfiledata base_string min_val max_val set_val w1
       = (Ret newfiledata, w2).
Proof.
  intros Hn Hmin Hmax Ht. eexists _, _, _. split.
  - apply file_line_rep_returns; lia.
  - rewrite file_line_rep_returns by lia. f_equal. f_equal.
    rewrite map_map. apply map_ext. intros line.
    apply new_line_twice; assumption.
Qed.

Lemma file_line_rep_twice_witness :
  exists newfiledata w1 w2,
    file_line_rep [lit "#define SE_NTT_TYPE 3 // or #define SE_NTT_TYPE 0"]
                  (lit "#define SE_NTT_TYPE") 0 3 1 empty_world
    = (Ret newfiledata, w1)
    /\ file_line_rep newfiledata (lit "#define SE_NTT_TYPE") 0 3 1 w1
       = (Ret newfiledata, w2).
Proof.
  apply file_line_rep_twice; try lia. repeat constructor.
Defined.

(** ** [getopt]: the rounds given to its loop are enough *)

Lemma do_shorts_args (opts : optlist) (optstring so : pystr)
    (args : list pystr) opts' args' :
  do_shorts opts optstring so args = Some (opts', args') ->
  (length args' <= length args)%nat.
Proof.
  revert opts; induction optstring as [|opt optstring IH]; intros opts H;
    simpl in H.
  - injection H as _ <-. lia.
  - destruct (short_has_arg opt so) as [[|]|]; [| |discriminate].
    + destruct optstring.
      * destruct args; [discriminate|]. injection H as _ <-. simpl. lia.
      * injection H as _ <-. lia.
    + apply IH in H. exact H.
Qed.

Lemma do_longs_args (opts : optlist) (opt : pystr) (lo args : list pystr)
    opts' args' :
  do_longs opts opt lo args = Some (opts', args') ->
  (length args' <= length args)%nat.
Proof.
  unfold do_longs. destruct (split_at_equals opt) as [[name optarg]|].
  - destruct (long_has_args name lo) as [[[|] o]|]; [| |discriminate].
    + intros H. injection H as _ <-. lia.
    + discriminate.
  - destruct (long_has_args opt lo) as [[[|] o]|]; [| |discriminate].
    + destruct args; [discriminate|]. intros H. injection H as _ <-. simpl. lia.
    + intros H. injection H as _ <-. lia.
Qed.

(** More rounds than arguments change nothing: the loop never stops for
    want of rounds. *)
Lemma getopt_loop_rounds (n m : nat) (opts : optlist) (args : list pystr)
    (so : pystr) (lo : list pystr) :
  (length args <= n)%nat -> (length args <= m)%nat ->
  getopt_loop n opts args so lo = getopt_loop m opts args so lo.
Proof.
  revert m opts args; induction n as [|n IH]; intros m opts args Hn Hm.
  - destruct args; [|simpl in Hn; lia]. destruct m; reflexivity.
  - destruct args as [|arg0 rest]; [destruct m; reflexivity|].
    destruct m as [|m]; [simpl in Hm; lia|]. simpl in Hn, Hm.
    cbn [getopt_loop].
    destruct (startswith arg0 (lit "-") && negb (streq arg0 (lit "-")));
      [|reflexivity].
    destruct (streq arg0 (lit "--")); [reflexivity|].
    destruct (startswith arg0 (lit "--")).
    + destruct (do_longs opts (skipn 2 arg0) lo rest) as [[opts' args']|] eqn:E;
        [|reflexivity].
      apply do_longs_args in E. apply IH; lia.
    + destruct (do_shorts opts (skipn 1 arg0) so rest) as [[opts' args']|] eqn:E;
        [|reflexivity].
      apply do_shorts_args in E. apply IH; lia.
Qed.

(** ** [getopt]: which command lines it refuses *)

Lemma streq_true (a b : pystr) : streq a b = true -> a = b.
Proof. unfold streq. destruct (pystr_eq_dec a b); [auto | discriminate]. Qed.

(** One round of the loop on a word of short flags, and on a long option. *)
Lemma getopt_loop_short_word (n : nat) (opts : optlist) (c : ascii)
    (cluster : pystr) (rest : list pystr) :
  c <> "-"%char ->
  getopt_loop (S n) opts (("-"%char :: c :: cluster) :: rest) shortopts longopts
  = match do_shorts opts (c :: cluster) shortopts rest with
    | None => None
    | Some (opts, args) => getopt_loop n opts args shortopts longopts
    end.
Proof.
  intros Hc. cbn [getopt_loop].
  replace (startswith ("-"%char :: c :: cluster) (lit "-")) with true
    by reflexivity.
  replace (streq ("-"%char :: c :: cluster) (lit "-")) with false
    by (unfold streq; destruct (pystr_eq_dec _ _); [discriminate | reflexivity]).
  replace (streq ("-"%char :: c :: cluster) (lit "--")) with false
    by (unfold streq; destruct (pystr_eq_dec _ _) as [E|];
        [injection E; congruence | reflexivity]).
  replace (startswith ("-"%char :: c :: cluster) (lit "--")) with false
    by (simpl; destruct (ascii_dec "-" c); [congruence | reflexivity]).
  reflexivity.
Qed.

Lemma getopt_loop_long_word (n : nat) (opts : optlist) (body : pystr)
    (rest : list pystr) :
  body <> [] ->
  getopt_loop (S n) opts ((lit "--" ++ body) :: rest) shortopts longopts
  = match do_longs opts body longopts rest with
    | None => None
    | Some (opts, args) => getopt_loop n opts args shortopts longopts
    end.
Proof.
  intros Hb. change (lit "--" ++ body) with ("-"%char :: "-"%char :: body).
  cbn [getopt_loop].
  replace (startswith ("-"%char :: "-"%char :: body) (lit "-")) with true
    by reflexivity.
  replace (streq ("-"%char :: "-"%char :: body) (lit "-")) with false
    by (unfold streq; destruct (pystr_eq_dec _ _); [discriminate | reflexivity]).
  replace (streq ("-"%char :: "-"%char :: body) (lit "--")) with false
    by (unfold streq; destruct (pystr_eq_dec _ _) as [E|];
        [injection E; congruence | reflexivity]).
  replace (startswith ("-"%char :: "-"%char :: body) (lit "--")) with true
    by reflexivity.
  reflexivity.
Qed.

(** The flags the option string "hi:n:m:s:d:" declares. *)
Lemma short_has_arg_flags (c : ascii) :
  short_has_arg c shortopts
  = if value_flag c then Some true
    else if help_flag c then Some false else None.
Proof.
  unfold shortopts, value_flag, help_flag.
  change (lit "hi:n:m:s:d:")
    with ["h"; "i"; ":"; "n"; ":"; "m"; ":"; "s"; ":"; "d"; ":"]%char.
  change (lit "inmsd") with ["i"; "n"; "m"; "s"; "d"]%char.
  cbn [short_has_arg existsb].
  repeat match goal with
         | |- context [ascii_dec c ?a] =>
             destruct (ascii_dec c a) as [->|?]; [reflexivity|]
         end.
  reflexivity.
Qed.

Lemma help_is_no_value_flag (c : ascii) :
  help_flag c = true -> value_flag c = false.
Proof.
  unfold help_flag. destruct (ascii_dec c "h") as [->|]; [|discriminate].
  reflexivity.
Qed.

(** The name and the argument of a long option are parted at the first
    "=". *)
Lemma split_at_equals_none (body : pystr) :
  no_equals body -> split_at_equals body = None.
Proof.
  unfold no_equals. induction body as [|c body IH]; intros H; simpl;
    [reflexivity|].
  destruct (ascii_dec c "="); [exfalso; apply H; left; auto|].
  rewrite IH; [reflexivity|]. intros Hin. apply H. right. exact Hin.
Qed.

Lemma split_at_equals_some (name value : pystr) :
  no_equals name ->
  split_at_equals (name ++ "="%char :: value) = Some (name, value).
Proof.
  unfold no_equals. induction name as [|c name IH]; intros H; simpl.
  - destruct (ascii_dec "=" "="); [reflexivity | congruence].
  - destruct (ascii_dec c "="); [exfalso; apply H; left; auto|].
    rewrite IH; [reflexivity|]. intros Hin. apply H. right. exact Hin.
Qed.

Lemma split_at_equals_inv (body : pystr) :
  match split_at_equals body with
  | None => no_equals body
  | Some (name, value) => body = name ++ "="%char :: value /\ no_equals name
  end.
Proof.
  unfold no_equals. induction body as [|c body IH]; simpl; [tauto|].
  destruct (ascii_dec c "=") as [->|Hc]; [split; [reflexivity | tauto]|].
  destruct (split_at_equals body) as [[name value]|].
  - destruct IH as [-> Hn]. split; [reflexivity|]. simpl.
    intros [E|Hin]; auto.
  - simpl. intros [E|Hin]; auto.
Qed.

(** A name without "=" begins a long option as it begins the option's entry
    in the list given to [getopt], where "=" ends each entry. *)
Lemma startswith_entry (n name : pystr) :
  no_equals name -> startswith (n ++ lit "=") name = startswith n name.
Proof.
  unfold no_equals. revert n. induction name as [|c name IH]; intros n H;
    [destruct n; reflexivity|].
  destruct n as [|d n]; simpl.
  - destruct (ascii_dec c "=") as [->|?]; [exfalso; apply H; left; auto|].
    reflexivity.
  - destruct (ascii_dec c d); [|reflexivity].
    apply IH. intros Hin. apply H. right. exact Hin.
Qed.

Lemma possibilities_entries (name : pystr) (names : list pystr) :
  no_equals name ->
  filter (fun o => startswith o name) (map (fun n => n ++ lit "=") names)
  = map (fun n => n ++ lit "=") (filter (fun n => startswith n name) names).
Proof.
  intros H. induction names as [|n names IH]; cbn [map filter];
    [reflexivity|].
  rewrite (startswith_entry n H).
  destruct (startswith n name); cbn [map]; rewrite IH; reflexivity.
Qed.

Lemma no_entry_is_name (name : pystr) (names : list pystr) :
  no_equals name ->
  existsb (streq name) (map (fun n => n ++ lit "=") names) = false.
Proof.
  intros H. induction names as [|n names IH]; cbn [map existsb];
    [reflexivity|].
  rewrite IH, orb_false_r. unfold streq.
  destruct (pystr_eq_dec name (n ++ lit "=")) as [E|]; [|reflexivity].
  exfalso. apply H. rewrite E. apply in_or_app. right. left. reflexivity.
Qed.

(** No long option name begins another one. *)
Lemma long_names_apart (n n' : pystr) :
  In n long_names -> In n' long_names -> startswith n' n = true -> n' = n.
Proof.
  unfold long_names. simpl.
  intros [<-|[<-|[<-|[<-|[<-|[]]]]]] [<-|[<-|[<-|[<-|[<-|[]]]]]];
    try reflexivity; intros H; discriminate H.
Qed.

Lemma long_names_NoDup : NoDup long_names.
Proof.
  unfold long_names.
  repeat (constructor;
          [simpl; intros H;
           repeat (destruct H as [H|H]; [discriminate H|]); exact H|]).
  constructor.
Qed.

Lemma long_has_args_unknown (name : pystr) :
  no_equals name -> long_known name = false ->
  long_has_args name longopts = None.
Proof.
  intros Hn Hk. unfold long_has_args, long_known in *.
  change longopts with (map (fun n => n ++ lit "=") long_names).
  rewrite (possibilities_entries long_names Hn).
  pose proof (filter_In (fun n => startswith n name)) as Hin.
  pose proof (NoDup_filter (fun n => startswith n name) long_names_NoDup)
    as Hnd.
  destruct (filter (fun n => startswith n name) long_names)
    as [|n1 [|n2 l]] eqn:E; [reflexivity | discriminate |].
  rewrite (no_entry_is_name (n1 :: n2 :: l) Hn).
  destruct (existsb (streq (name ++ lit "="))
                    (map (fun n => n ++ lit "=") (n1 :: n2 :: l))) eqn:Ex;
    [|reflexivity].
  exfalso. apply existsb_exists in Ex. destruct Ex as (o & Ho & Eo).
  apply in_map_iff in Ho. destruct Ho as (n & <- & Hnl).
  apply streq_true in Eo. apply app_inv_tail in Eo. subst n.
  assert (forall n', In n' (n1 :: n2 :: l) -> n' = name) as Hall.
  { intros n' Hn'. rewrite <- E in Hn', Hnl.
    apply Hin in Hn'. apply Hin in Hnl.
    apply long_names_apart; tauto. }
  rewrite (Hall n1), (Hall n2) in Hnd by (simpl; auto).
  inversion Hnd as [|? ? Hnot _]. apply Hnot. left. reflexivity.
Qed.

Lemma long_has_args_known (name : pystr) :
  no_equals name -> long_known name = true ->
  exists full, long_has_args name longopts = Some (true, full).
Proof.
  intros Hn Hk. unfold long_has_args, long_known in *.
  change longopts with (map (fun n => n ++ lit "=") long_names).
  rewrite (possibilities_entries long_names Hn).
  destruct (filter (fun n => startswith n name) long_names)
    as [|n1 [|n2 l]]; [discriminate | | discriminate].
  rewrite (no_entry_is_name [n1] Hn).
  destruct (existsb (streq (name ++ lit "="))
                    (map (fun n => n ++ lit "=") [n1]));
    [eexists; reflexivity|].
  cbn [map]. unfold endswith. rewrite rev_app_distr.
  change (rev (lit "=")) with ["="%char]. cbn [app startswith].
  destruct (ascii_dec "=" "="); [|congruence].
  eexists; reflexivity.
Qed.

(** Every command line with malformed option syntax is refused, whatever
    options were taken before. *)
Lemma malformed_at_refused (cluster : pystr) (rest : list pystr) :
  malformed_at cluster rest ->
  forall opts n, (length rest <= n)%nat ->
    match do_shorts opts cluster shortopts rest with
    | None => True
    | Some (opts', args) => getopt_loop n opts' args shortopts longopts = None
    end.
Proof.
  induction 1 as [c cluster rest Hc _ IH | c cluster rest Hv Hh
                 | c cluster rest Hh _ IH | c Hv | c value rest Hv _ IH
                 | c v value rest Hv _ IH
                 | name rest Hne Hn Hk | name value rest Hn Hk
                 | name Hn Hk | name value rest Hn Hk _ IH
                 | name value rest Hn Hk _ IH];
    intros opts n Hlen.
  - cbn [do_shorts]. destruct n as [|n]; [simpl in Hlen; lia|].
    rewrite getopt_loop_short_word by exact Hc.
    specialize (IH opts n). simpl in Hlen.
    destruct (do_shorts opts (c :: cluster) shortopts rest) as [[o a]|];
      [apply IH; lia | reflexivity].
  - cbn [do_shorts]. rewrite short_has_arg_flags, Hv, Hh. exact I.
  - cbn [do_shorts].
    rewrite short_has_arg_flags, (help_is_no_value_flag c Hh), Hh.
    apply IH, Hlen.
  - cbn [do_shorts]. rewrite short_has_arg_flags, Hv. exact I.
  - cbn [do_shorts]. rewrite short_has_arg_flags, Hv.
    apply (IH (opts ++ [(lit "-" ++ [c], value)]) n). simpl in Hlen. lia.
  - cbn [do_shorts]. rewrite short_has_arg_flags, Hv.
    apply (IH (opts ++ [(lit "-" ++ [c], v :: value)]) n Hlen).
  - cbn [do_shorts]. destruct n as [|n]; [simpl in Hlen; lia|].
    rewrite getopt_loop_long_word by exact Hne.
    unfold do_longs. rewrite (split_at_equals_none Hn).
    rewrite (long_has_args_unknown Hn Hk). reflexivity.
  - cbn [do_shorts]. destruct n as [|n]; [simpl in Hlen; lia|].
    rewrite getopt_loop_long_word by (destruct name; discriminate).
    unfold do_longs. rewrite (split_at_equals_some value Hn).
    rewrite (long_has_args_unknown Hn Hk). reflexivity.
  - cbn [do_shorts]. destruct n as [|n]; [simpl in Hlen; lia|].
    rewrite getopt_loop_long_word by (destruct name; discriminate).
    unfold do_longs. rewrite (split_at_equals_none Hn).
    destruct (long_has_args_known Hn Hk) as [full ->]. reflexivity.
  - cbn [do_shorts]. destruct n as [|n]; [simpl in Hlen; lia|].
    rewrite getopt_loop_long_word by (destruct name; discriminate).
    unfold do_longs. rewrite (split_at_equals_none Hn).
    destruct (long_has_args_known Hn Hk) as [full ->].
    apply (IH (opts ++ [(lit "--" ++ full, value)]) n). simpl in Hlen. lia.
  - cbn [do_shorts]. destruct n as [|n]; [simpl in Hlen; lia|].
    rewrite getopt_loop_long_word by (destruct name; discriminate).
    unfold do_longs. rewrite (split_at_equals_some value Hn).
    destruct (long_has_args_known Hn Hk) as [full ->].
    apply (IH (opts ++ [(lit "--" ++ full, value)]) n). simpl in Hlen. lia.
Qed.

Lemma malformed_refused (argv : list pystr) :
  malformed argv -> getopt argv shortopts longopts = None.
Proof.
  intros H. apply (malformed_at_refused H [] (le_n (length argv))).
Qed.

(** And [getopt] refuses no other command line. *)
Lemma option_word_inv (word : pystr) :
  startswith word (lit "-") && negb (streq word (lit "-")) = true ->
  streq word (lit "--") = false ->
  (exists c cluster,
      word = "-"%char :: c :: cluster /\ c <> "-"%char
      /\ startswith word (lit "--") = false)
  \/ (exists body,
         word = lit "--" ++ body /\ body <> []
         /\ startswith word (lit "--") = true).
Proof.
  intros T D. apply andb_true_iff in T. destruct T as [T1 T2].
  destruct word as [|a [|c rest]]; [discriminate T1 | |].
  - exfalso. cbn in T1. destruct (ascii_dec "-" a) as [<-|]; discriminate.
  - cbn in T1. destruct (ascii_dec "-" a) as [<-|]; [|discriminate].
    destruct (ascii_dec c "-") as [->|Hc].
    + right. exists rest. split; [reflexivity|]. split; [|reflexivity].
      intros ->. discriminate D.
    + left. exists c, rest. split; [reflexivity|]. split; [exact Hc|].
      cbn. destruct (ascii_dec "-" "-"); [|congruence].
      destruct (ascii_dec "-" c); [congruence | reflexivity].
Qed.

Lemma refused_cluster (n : nat) :
  (forall opts args, (length args <= n)%nat ->
     getopt_loop n opts args shortopts longopts = None ->
     malformed_at [] args) ->
  forall cluster opts rest,
    (length rest <= n)%nat -> cluster <> [] ->
    match do_shorts opts cluster shortopts rest with
    | None => None
    | Some (opts', args) => getopt_loop n opts' args shortopts longopts
    end = None ->
    malformed_at cluster rest.
Proof.
  intros IHn. induction cluster as [|c cluster IHc]; intros opts rest Hlen Hne;
    [congruence|].
  cbn [do_shorts]. rewrite short_has_arg_flags.
  destruct (value_flag c) eqn:V; [|destruct (help_flag c) eqn:Hh].
  - destruct cluster as [|v value]; [destruct rest as [|value rest]|].
    + intros _. apply flag_missing, V.
    + intros H. apply flag_next; [exact V|].
      eapply IHn; [|exact H]. simpl in Hlen. lia.
    + intros H. apply flag_joined; [exact V|].
      exact (IHn _ _ Hlen H).
  - intros H. apply flag_help; [exact Hh|].
    destruct cluster as [|c' cluster].
    + cbn [do_shorts] in H. exact (IHn _ _ Hlen H).
    + eapply IHc; [exact Hlen | discriminate | exact H].
  - intros _. apply flag_unknown; assumption.
Qed.

Lemma refused_malformed_at (n : nat) (opts : optlist) (args : list pystr) :
  (length args <= n)%nat ->
  getopt_loop n opts args shortopts longopts = None ->
  malformed_at [] args.
Proof.
  revert opts args. induction n as [|n IH]; intros opts args Hlen.
  - destruct args; discriminate.
  - destruct args as [|word rest]; [discriminate|]. simpl in Hlen.
    cbn [getopt_loop].
    destruct (startswith word (lit "-") && negb (streq word (lit "-"))) eqn:T;
      [|discriminate].
    destruct (streq word (lit "--")) eqn:D; [discriminate|].
    destruct (option_word_inv word T D)
      as [(c & cluster & -> & Hc & S)|(body & -> & Hb & S)]; rewrite S.
    + cbn [skipn]. intros H. apply short_word; [exact Hc|].
      eapply (refused_cluster IH); [| |exact H]; [lia | discriminate].
    + change (skipn 2 (lit "--" ++ body)) with body. unfold do_longs.
      pose proof (split_at_equals_inv body) as Hs.
      destruct (split_at_equals body) as [[name value]|].
      * destruct Hs as [-> Hn]. destruct (long_known name) eqn:K.
        -- destruct (long_has_args_known Hn K) as [full ->]. intros H.
           apply long_joined; [exact Hn | exact K |].
           eapply IH; [|exact H]. lia.
        -- intros _. apply long_unknown_joined; assumption.
      * destruct (long_known body) eqn:K.
        -- destruct (long_has_args_known Hs K) as [full ->].
           destruct rest as [|value rest].
           ++ intros _. apply long_missing; assumption.
           ++ intros H. apply long_next; [exact Hs | exact K |].
              eapply IH; [|exact H]. simpl in Hlen. lia.
        -- intros _. apply long_unknown; assumption.
Qed.

(** The command lines with malformed option syntax are the ones [getopt]
    refuses. *)
Lemma malformed_iff_refused (argv : list pystr) :
  malformed argv <-> getopt argv shortopts longopts = None.
Proof.
  split; [apply malformed_refused|].
  apply refused_malformed_at, le_n.
Qed.

(** ** The option loop of [main] touches nothing *)

Lemma int_arg_pure (arg : pystr) (w w' : world) (n : Z) :
  int_arg arg w = (Ret n, w') -> w' = w /\ int arg = Some n.
Proof.
  unfold int_arg. destruct (int arg); unfold ret, raise; intros H;
    [injection H as <- <-; auto | discriminate].
Qed.

Lemma main_option_pure (v v' : settings) (oa : pystr * pystr) (w w' : world) :
  main_option v oa w = (Ret v', w') -> w' = w.
Proof.
  destruct oa as [opt arg]. unfold main_option.
  destruct (streq opt (lit "-h")); [discriminate|].
  repeat match goal with
         | |- context [if opt_in ?o ?a ?b then _ else _] =>
             destruct (opt_in o a b);
             [unfold bind; destruct (int_arg arg w) as [[n| |] w1] eqn:E;
              try discriminate; apply int_arg_pure in E as [-> _];
              unfold ret; intros H; injection H as _ <-; reflexivity|]
         end.
  unfold ret. intros H. injection H as _ <-. reflexivity.
Qed.

Lemma main_options_pure (opts : optlist) (v v' : settings) (w w' : world) :
  main_options v opts w = (Ret v', w') -> w' = w.
Proof.
  revert v w; induction opts as [|oa opts IH]; intros v w; simpl.
  - unfold ret. intros H. injection H as _ <-. reflexivity.
  - unfold bind. destruct (main_option v oa w) as [[v1| |] w1] eqn:E;
      try discriminate.
    apply main_option_pure in E as ->. apply IH.
Qed.

(** ** One rewrite of the header *)

Lemma set_define_eq (m : macro) (set_val : Z) :
  set_define m set_val
  = (filedata <- readlines user_defines_h ;;
     newfiledata <- file_line_rep filedata (macro_name m) (macro_min m)
                                  (macro_max m) set_val ;;
     writelines user_defines_h newfiledata).
Proof. destruct m; reflexivity. Qed.

(** With the target in the range of the macro, the header is read, the
    message printed and the header written, in this order. *)
Lemma set_define_returns (m : macro) (set_val : Z) (w : world)
    (filedata : list pystr) :
  macro_min m <= set_val <= macro_max m ->
  files w user_defines_h = Some filedata ->
  set_define m set_val w
  = (Ret tt,
     World (store user_defines_h (rewritten m set_val filedata) (files w))
           (trace w ++ [FileRead user_defines_h;
                        Printed (setting_message (macro_name m) set_val);
                        FileWritten user_defines_h
                                    (rewritten m set_val filedata)])).
Proof.
  intros Ht Hf. rewrite set_define_eq. unfold bind at 1, readlines.
  rewrite Hf. unfold bind.
  rewrite file_line_rep_returns
    by (try exact Ht; destruct (macro_range_one_digit m); lia).
  unfold writelines, said. cbn [files trace map]. rewrite <- !app_assoc.
  reflexivity.
Qed.

(** With the target outside, the header is read and two messages are
    printed; then the call raises, and nothing is written. *)
Lemma set_define_raises (m : macro) (set_val : Z) (w : world)
    (filedata : list pystr) :
  set_val < macro_min m \/ macro_max m < set_val ->
  files w user_defines_h = Some filedata ->
  set_define m set_val w
  = (Raise RuntimeError,
     World (files w)
           (trace w ++ [FileRead user_defines_h;
                        Printed (setting_message (macro_name m) set_val);
                        Printed (complaint (macro_min m) (macro_max m))])).
Proof.
  intros Ht Hf. rewrite set_define_eq. unfold bind at 1, readlines.
  rewrite Hf. unfold bind.
  rewrite file_line_rep_raises by (right; exact Ht).
  unfold said. cbn [files trace map]. rewrite <- !app_assoc. reflexivity.
Qed.

(** Without the header, [open] raises at once. *)
Lemma set_define_no_file (m : macro) (set_val : Z) (w : world) :
  files w user_defines_h = None ->
  set_define m set_val w = (Raise FileNotFoundError, w).
Proof.
  intros Hf. rewrite set_define_eq. unfold bind, readlines. rewrite Hf.
  reflexivity.
Qed.

(** ** [main], block by block *)

Lemma main_after_options (argv : list pystr) (opts : optlist)
    (args : list pystr) (v : settings) (w w1 : world) :
  getopt argv shortopts longopts = Some (opts, args) ->
  main_options unset opts w = (Ret v, w1) ->
  main argv w = (main_checks v ;;; main_rewrites v) w.
Proof.
  intros Hg Ho. unfold main. rewrite Hg. fold unset. unfold bind at 1.
  rewrite Ho. rewrite (main_options_pure _ _ _ Ho). reflexivity.
Qed.

Lemma main_checks_missing (v : settings) (m : macro) (w : world) :
  first_missing v = Some m ->
  main_checks v w = (Exit 0, said w [need_to_choose m]).
Proof.
  unfold first_missing, macros, main_checks. cbn [List.find setting].
  destruct (ifft_set_val v <? 0);
    [intros H; injection H as <-; reflexivity|].
  destruct (ntt_set_val v <? 0);
    [intros H; injection H as <-; reflexivity|].
  destruct (index_map_set_val v <? 0);
    [intros H; injection H as <-; reflexivity|].
  destruct (sk_set_val v <? 0);
    [intros H; injection H as <-; reflexivity|].
  destruct (data_load_set_val v <? 0);
    [intros H; injection H as <-; reflexivity|].
  discriminate.
Qed.

Lemma main_checks_pass (v : settings) (w : world) :
  (forall m, 0 <= setting m v) -> main_checks v w = (Ret tt, w).
Proof.
  intros H. unfold main_checks.
  pose proof (H Ifft) as H1. pose proof (H Ntt) as H2.
  pose proof (H IndexMap) as H3. pose proof (H Sk) as H4.
  pose proof (H DataLoad) as H5. cbn [setting] in *.
  repeat match goal with
         | |- context [?x <? 0] =>
             destruct (x <? 0) eqn:?E; [apply Z.ltb_lt in E; lia|]; clear E
         end.
  reflexivity.
Qed.

(** [first_missing] is the first in the order of the checks: the variable of
    [m] is negative, and those of the macros checked before are not. *)
Lemma first_missing_first (v : settings) (m : macro) :
  first_missing v = Some m <->
  setting m v < 0
  /\ exists before after,
       macros = before ++ m :: after
       /\ forall m', In m' before -> 0 <= setting m' v.
Proof.
  unfold first_missing, macros. cbn [List.find setting]. split.
  - destruct (ifft_set_val v <? 0) eqn:E1.
    { intros H; injection H as <-. apply Z.ltb_lt in E1.
      split; [exact E1|]. exists [], [Ntt; IndexMap; Sk; DataLoad].
      split; [reflexivity | intros m' []]. }
    destruct (ntt_set_val v <? 0) eqn:E2.
    { intros H; injection H as <-. apply Z.ltb_lt in E2. apply Z.ltb_ge in E1.
      split; [exact E2|]. exists [Ifft], [IndexMap; Sk; DataLoad].
      split; [reflexivity|]. intros m' [<-|[]]. exact E1. }
    destruct (index_map_set_val v <? 0) eqn:E3.
    { intros H; injection H as <-. apply Z.ltb_lt in E3.
      apply Z.ltb_ge in E1, E2.
      split; [exact E3|]. exists [Ifft; Ntt], [Sk; DataLoad].
      split; [reflexivity|]. intros m' [<-|[<-|[]]]; assumption. }
    destruct (sk_set_val v <? 0) eqn:E4.
    { intros H; injection H as <-. apply Z.ltb_lt in E4.
      apply Z.ltb_ge in E1, E2, E3.
      split; [exact E4|]. exists [Ifft; Ntt; IndexMap], [DataLoad].
      split; [reflexivity|]. intros m' [<-|[<-|[<-|[]]]]; assumption. }
    destruct (data_load_set_val v <? 0) eqn:E5; [|discriminate].
    intros H; injection H as <-. apply Z.ltb_lt in E5.
    apply Z.ltb_ge in E1, E2, E3, E4.
    split; [exact E5|]. exists [Ifft; Ntt; IndexMap; Sk], [].
    split; [reflexivity|]. intros m' [<-|[<-|[<-|[<-|[]]]]]; assumption.
  - intros (Hm & before & after & E & Hb).
    assert (In Ifft before -> (ifft_set_val v <? 0) = false) as H1
      by (intros Hin; apply Z.ltb_ge, (Hb Ifft Hin)).
    assert (In Ntt before -> (ntt_set_val v <? 0) = false) as H2
      by (intros Hin; apply Z.ltb_ge, (Hb Ntt Hin)).
    assert (In IndexMap before -> (index_map_set_val v <? 0) = false) as H3
      by (intros Hin; apply Z.ltb_ge, (Hb IndexMap Hin)).
    assert (In Sk before -> (sk_set_val v <? 0) = false) as H4
      by (intros Hin; apply Z.ltb_ge, (Hb Sk Hin)).
    apply Z.ltb_lt in Hm. clear Hb.
    destruct before as [|b1 [|b2 [|b3 [|b4 [|b5 before]]]]];
      injection E as <-; intros; subst; cbn [setting] in Hm;
      try rewrite H1 by (simpl; tauto); try rewrite H2 by (simpl; tauto);
      try rewrite H3 by (simpl; tauto); try rewrite H4 by (simpl; tauto);
      try rewrite Hm; try reflexivity.
    destruct before; discriminate.
Qed.

Lemma store_same (path : pystr) (lines : list pystr)
    (fs : pystr -> option (list pystr)) :
  store path lines fs path = Some lines.
Proof. unfold store. destruct (pystr_eq_dec path path); congruence. Qed.

Lemma store_other (path p : pystr) (lines : list pystr)
    (fs : pystr -> option (list pystr)) :
  p <> path -> store path lines fs p = fs p.
Proof. intros H. unfold store. destruct (pystr_eq_dec p path); congruence. Qed.

(** For the five macros, on the header itself: a second [set_define] with the
    same target writes the lines the first one wrote. *)
Lemma set_define_twice (m : macro) (set_val : Z) (w : world)
    (filedata : list pystr) :
  macro_min m <= set_val <= macro_max m ->
  files w user_defines_h = Some filedata ->
  exists w1 w2,
    set_define m set_val w = (Ret tt, w1)
    /\ set_define m set_val w1 = (Ret tt, w2)
    /\ files w2 user_defines_h = files w1 user_defines_h.
Proof.
  intros Ht Hf. eexists _, _. split; [|split].
  - apply set_define_returns; eassumption.
  - apply set_define_returns; [exact Ht | apply store_same].
  - cbn [files]. rewrite !store_same. f_equal. unfold rewritten.
    rewrite map_map. apply map_ext. intros line.
    destruct (macro_range_one_digit m) as (H0 & _ & H9).
    apply new_line_twice; [apply macro_name_digit_free | lia | lia | exact Ht].
Qed.

(** ** What the option loop leaves in the five variables *)

(** An option that is not the one of [m] leaves the variable of [m] alone. *)
Lemma main_option_other (m : macro) (v v' : settings) (opt arg : pystr)
    (w w' : world) :
  option_of m opt = false ->
  main_option v (opt, arg) w = (Ret v', w') ->
  setting m v' = setting m v.
Proof.
  intros Hm. unfold main_option.
  destruct (streq opt (lit "-h")); [discriminate|].
  destruct (opt_in opt "-i" "--ifft") eqn:E1;
    [destruct m; cbn [option_of] in Hm; try congruence;
     run_option arg w; reflexivity|].
  destruct (opt_in opt "-n" "--ntt") eqn:E2;
    [destruct m; cbn [option_of] in Hm; try congruence;
     run_option arg w; reflexivity|].
  destruct (opt_in opt "-m" "--index_map") eqn:E3;
    [destruct m; cbn [option_of] in Hm; try congruence;
     run_option arg w; reflexivity|].
  destruct (opt_in opt "-s" "--sk") eqn:E4;
    [destruct m; cbn [option_of] in Hm; try congruence;
     run_option arg w; reflexivity|].
  destruct (opt_in opt "-d" "--data_load") eqn:E5;
    [destruct m; cbn [option_of] in Hm; try congruence;
     run_option arg w; reflexivity|].
  unfold ret. intros H. injection H as <- _. reflexivity.
Qed.

(** The option of [m] puts the integer of its argument in the variable. *)
Lemma main_option_sets (m : macro) (v v' : settings) (opt arg : pystr)
    (w w' : world) :
  option_of m opt = true ->
  main_option v (opt, arg) w = (Ret v', w') ->
  int arg = Some (setting m v').
Proof.
  intros Hm. unfold main_option.
  assert (streq opt (lit "-h") = false) as ->.
  { destruct m; cbn [option_of] in Hm; unfold opt_in, streq in *;
      repeat match goal with
             | H : context [pystr_eq_dec ?a ?b] |- _ =>
                 destruct (pystr_eq_dec a b); [subst; reflexivity|]
             end; discriminate. }
  assert (forall a1 b1 a2 b2,
             opt_in opt a1 b1 = true ->
             streq (lit a1) (lit a2) = false -> streq (lit a1) (lit b2) = false ->
             streq (lit b1) (lit a2) = false -> streq (lit b1) (lit b2) = false ->
             opt_in opt a2 b2 = false) as Hother.
  { intros a1 b1 a2 b2 H H1 H2 H3 H4. unfold opt_in in *.
    apply orb_true_iff in H. apply orb_false_iff.
    unfold streq in *.
    destruct H as [H|H];
      destruct (pystr_eq_dec opt _) as [->|] in H; try discriminate;
      rewrite ?H1, ?H2, ?H3, ?H4; auto. }
  destruct m; cbn [option_of] in Hm.
  - rewrite Hm. unfold bind.
    destruct (int_arg arg w) as [[n| |] w1] eqn:E; try discriminate.
    apply int_arg_pure in E as [_ ->]. unfold ret. intros H.
    injection H as <- _. reflexivity.
  - rewrite (Hother _ _ "-i"%string "--ifft"%string Hm) by reflexivity.
    rewrite Hm. unfold bind.
    destruct (int_arg arg w) as [[n| |] w1] eqn:E; try discriminate.
    apply int_arg_pure in E as [_ ->]. unfold ret. intros H.
    injection H as <- _. reflexivity.
  - rewrite (Hother _ _ "-i"%string "--ifft"%string Hm) by reflexivity.
    rewrite (Hother _ _ "-n"%string "--ntt"%string Hm) by reflexivity.
    rewrite Hm. unfold bind.
    destruct (int_arg arg w) as [[n| |] w1] eqn:E; try discriminate.
    apply int_arg_pure in E as [_ ->]. unfold ret. intros H.
    injection H as <- _. reflexivity.
  - rewrite (Hother _ _ "-i"%string "--ifft"%string Hm) by reflexivity.
    rewrite (Hother _ _ "-n"%string "--ntt"%string Hm) by reflexivity.
    rewrite (Hother _ _ "-m"%string "--index_map"%string Hm) by reflexivity.
    rewrite Hm. unfold bind.
    destruct (int_arg arg w) as [[n| |] w1] eqn:E; try discriminate.
    apply int_arg_pure in E as [_ ->]. unfold ret. intros H.
    injection H as <- _. reflexivity.
  - rewrite (Hother _ _ "-i"%string "--ifft"%string Hm) by reflexivity.
    rewrite (Hother _ _ "-n"%string "--ntt"%string Hm) by reflexivity.
    rewrite (Hother _ _ "-m"%string "--index_map"%string Hm) by reflexivity.
    rewrite (Hother _ _ "-s"%string "--sk"%string Hm) by reflexivity.
    rewrite Hm. unfold bind.
    destruct (int_arg arg w) as [[n| |] w1] eqn:E; try discriminate.
    apply int_arg_pure in E as [_ ->]. unfold ret. intros H.
    injection H as <- _. reflexivity.
Qed.

(** After the loop, the variable of [m] holds what the loop found it with
    when no option of [opts] is the option of [m]... *)
Lemma main_options_never_supplied (m : macro) (opts : optlist)
    (v v' : settings) (w w' : world) :
  (forall opt arg, In (opt, arg) opts -> option_of m opt = false) ->
  main_options v opts w = (Ret v', w') ->
  setting m v' = setting m v.
Proof.
  revert v w; induction opts as [|[opt arg] opts IH]; intros v w Hno;
    cbn [main_options].
  - unfold ret. intros H. injection H as <- _. reflexivity.
  - unfold bind.
    destruct (main_option v (opt, arg) w) as [[v1| |] w1] eqn:E;
      try discriminate.
    intros H. apply IH in H; [|intros o a Hin; apply (Hno o a); simpl; auto].
    rewrite H. apply (@main_option_other m v v1 opt arg w w1);
      [apply (Hno opt arg); simpl; auto | exact E].
Qed.

(** ... and the integer of the last argument given to the option of [m]
    otherwise. *)
Lemma main_options_last_supplied (m : macro) (before after : optlist)
    (opt arg : pystr) (v v' : settings) (w w' : world) :
  option_of m opt = true ->
  (forall o a, In (o, a) after -> option_of m o = false) ->
  main_options v (before ++ (opt, arg) :: after) w = (Ret v', w') ->
  int arg = Some (setting m v').
Proof.
  intros Hm Hafter. revert v w.
  induction before as [|oa before IH]; intros v w; cbn [main_options app];
    unfold bind.
  - destruct (main_option v (opt, arg) w) as [[v1| |] w1] eqn:E;
      try discriminate.
    intros H.
    rewrite (@main_options_never_supplied m after v1 v' w1 w' Hafter H).
    apply (@main_option_sets m v v1 opt arg w w1 Hm E).
  - destruct (main_option v oa w) as [[v1| |] w1]; try discriminate.
    apply IH.
Qed.

(** The loop runs to its end when no option is -h and every argument is an
    integer. *)
Lemma main_option_completes (v : settings) (opt arg : pystr) (n : Z)
    (w : world) :
  streq opt (lit "-h") = false -> int arg = Some n ->
  exists v', main_option v (opt, arg) w = (Ret v', w).
Proof.
  intros Hh Hn. unfold main_option. rewrite Hh.
  unfold bind, int_arg. rewrite Hn. unfold ret.
  repeat match goal with
         | |- context [if opt_in ?o ?a ?b then _ else _] =>
             destruct (opt_in o a b); [eexists; reflexivity|]
         end.
  eexists; reflexivity.
Qed.

Lemma main_options_completes (opts : optlist) (v : settings) (w : world) :
  Forall (fun oa => streq (fst oa) (lit "-h") = false
                    /\ exists n, int (snd oa) = Some n) opts ->
  exists v', main_options v opts w = (Ret v', w).
Proof.
  intros H. revert v. induction H as [|[opt arg] opts [Hh [n Hn]] _ IH];
    intros v; cbn [main_options].
  - eexists; reflexivity.
  - destruct (@main_option_completes v opt arg n w Hh Hn) as [v1 E].
    unfold bind. rewrite E. apply IH.
Qed.

(** The command line that gives each option once, in the order of the usage
    text, is accepted as it stands, and the loop leaves the five integers. *)
Lemma getopt_five_options (a1 a2 a3 a4 a5 : pystr) :
  getopt [lit "-i"; a1; lit "-n"; a2; lit "-m"; a3; lit "-s"; a4; lit "-d"; a5]
         shortopts longopts
  = Some ([(lit "-i", a1); (lit "-n", a2); (lit "-m", a3); (lit "-s", a4);
           (lit "-d", a5)], []).
Proof. reflexivity. Qed.

Lemma main_options_five_options (a1 a2 a3 a4 a5 : pystr) (i n m s d : Z)
    (w : world) :
  int a1 = Some i -> int a2 = Some n -> int a3 = Some m -> int a4 = Some s ->
  int a5 = Some d ->
  main_options unset
    [(lit "-i", a1); (lit "-n", a2); (lit "-m", a3); (lit "-s", a4);
     (lit "-d", a5)] w
  = (Ret (Settings i n m s d), w).
Proof.
  intros H1 H2 H3 H4 H5. cbn [main_options]. unfold bind, main_option.
  cbn [streq opt_in orb]. unfold int_arg.
  change (streq (lit "-i") (lit "-h")) with false.
  change (opt_in (lit "-i") "-i" "--ifft") with true.
  cbn iota. rewrite H1. unfold ret at 1 2.
  change (streq (lit "-n") (lit "-h")) with false.
  change (opt_in (lit "-n") "-i" "--ifft") with false.
  change (opt_in (lit "-n") "-n" "--ntt") with true.
  cbn iota. rewrite H2. unfold ret at 1 2.
  change (streq (lit "-m") (lit "-h")) with false.
  change (opt_in (lit "-m") "-i" "--ifft") with false.
  change (opt_in (lit "-m") "-n" "--ntt") with false.
  change (opt_in (lit "-m") "-m" "--index_map") with true.
  cbn iota. rewrite H3. unfold ret at 1 2.
  change (streq (lit "-s") (lit "-h")) with false.
  change (opt_in (lit "-s") "-i" "--ifft") with false.
  change (opt_in (lit "-s") "-n" "--ntt") with false.
  change (opt_in (lit "-s") "-m" "--index_map") with false.
  change (opt_in (lit "-s") "-s" "--sk") with true.
  cbn iota. rewrite H4. unfold ret at 1 2.
  change (streq (lit "-d") (lit "-h")) with false.
  change (opt_in (lit "-d") "-i" "--ifft") with false.
  change (opt_in (lit "-d") "-n" "--ntt") with false.
  change (opt_in (lit "-d") "-m" "--index_map") with false.
  change (opt_in (lit "-d") "-s" "--sk") with false.
  change (opt_in (lit "-d") "-d" "--data_load") with true.
  cbn iota. rewrite H5. reflexivity.
Qed.

(** ** The claims about the rewrite and the driver *)

(** C3.  A call of [file_line_rep] with min > max, or with a target outside
    [min, max], raises after its messages and returns no lines; and for each
    of the five macros, [set_define] with a target outside the range of the
    macro raises before anything is written: the files are the ones found,
    and the header was only read. *)
Theorem rewrite_out_of_range_raises (filedata : list pystr)
    (base_string : pystr) (min_val max_val set_val : Z) (m : macro)
    (w : world) :
  (max_val < min_val \/ set_val < min_val \/ max_val < set_val ->
   file_line_rep filedata base_string min_val max_val set_val w
   = (Raise RuntimeError,
      said w [setting_message base_string set_val;
              complaint min_val max_val]))
  /\ (set_val < macro_min m \/ macro_max m < set_val ->
      files w user_defines_h = Some filedata ->
      set_define m set_val w
      = (Raise RuntimeError,
         World (files w)
               (trace w ++ [FileRead user_defines_h;
                            Printed (setting_message (macro_name m) set_val);
                            Printed (complaint (macro_min m) (macro_max m))]))).
Proof.
  split.
  - apply file_line_rep_raises.
  - apply set_define_raises.
Qed.

Lemma rewrite_out_of_range_raises_witness :
  file_line_rep two_defines (lit "#define SE_IFFT_TYPE") 2 0 1
                (header two_defines)
  = (Raise RuntimeError,
     said (header two_defines)
          [setting_message (lit "#define SE_IFFT_TYPE") 1; complaint 2 0])
  /\ set_define Ifft 5 (header two_defines)
     = (Raise RuntimeError,
        World (files (header two_defines))
              (trace (header two_defines)
               ++ [FileRead user_defines_h;
                   Printed (setting_message (macro_name Ifft) 5);
                   Printed (complaint (macro_min Ifft) (macro_max Ifft))])).
Proof.
  split.
  - apply (proj1 (rewrite_out_of_range_raises
                    two_defines (lit "#define SE_IFFT_TYPE") 2 0 1 Ifft
                    (header two_defines))).
    lia.
  - apply (proj2 (rewrite_out_of_range_raises
                    two_defines (lit "#define SE_IFFT_TYPE") 0 2 5 Ifft
                    (header two_defines))).
    + unfold macro_max. lia.
    + reflexivity.
Defined.

(** C4, as stated, fails: ifft is the first macro of the sequence, so with
    -i 5 the run raises in the first rewrite.  The header is read once and
    never written, and its ntt line, for which 3 was asked, still says 1. *)
Lemma main_i5_rewrites_no_line :
  let w := header [text_line "#define SE_IFFT_TYPE 0";
                   text_line "#define SE_NTT_TYPE 1"] in
  let r := main argv_i5 w in
  fst r = Raise RuntimeError
  /\ files (snd r) user_defines_h
     = Some [text_line "#define SE_IFFT_TYPE 0";
             text_line "#define SE_NTT_TYPE 1"]
  /\ trace (snd r)
     = [FileRead user_defines_h;
        Printed (lit "Setting #define SE_IFFT_TYPE to 5");
        Printed (lit "ERROR: max_val or min_val or set_val is set incorrectly")].
Proof. vm_compute. repeat split; reflexivity. Qed.

(** C4, amended.  When the option loop leaves 5 for ifft and no negative
    value, the run raises in the first rewrite: the header is read, two
    messages are printed, and no file is written.  What the claim says of
    -i 5 happens for a later macro: when the values of ifft and ntt are in
    range and 5 is left for index_map, the run raises in the third rewrite,
    with the ifft and ntt rewrites written and not taken back. *)
Theorem main_out_of_range_value (argv : list pystr) (opts : optlist)
    (args : list pystr) (v : settings) (w w1 : world)
    (filedata : list pystr) :
  getopt argv shortopts longopts = Some (opts, args) ->
  main_options unset opts w = (Ret v, w1) ->
  files w user_defines_h = Some filedata ->
  0 <= ntt_set_val v -> 0 <= sk_set_val v -> 0 <= data_load_set_val v ->
  (ifft_set_val v = 5 -> 0 <= index_map_set_val v ->
   main argv w
   = (Raise RuntimeError,
      World (files w)
            (trace w ++ [FileRead user_defines_h;
                         Printed (setting_message (macro_name Ifft) 5);
                         Printed (complaint 0 2)])))
  /\ (0 <= ifft_set_val v <= 2 -> ntt_set_val v <= 3 ->
      index_map_set_val v = 5 ->
      let lines1 := rewritten Ifft (ifft_set_val v) filedata in
      let lines2 := rewritten Ntt (ntt_set_val v) lines1 in
      main argv w
      = (Raise RuntimeError,
         World (store user_defines_h lines2
                      (store user_defines_h lines1 (files w)))
               (trace w
                ++ [FileRead user_defines_h;
                    Printed (setting_message (macro_name Ifft)
                                             (ifft_set_val v));
                    FileWritten user_defines_h lines1;
                    FileRead user_defines_h;
                    Printed (setting_message (macro_name Ntt)
                                             (ntt_set_val v));
                    FileWritten user_defines_h lines2;
                    FileRead user_defines_h;
                    Printed (setting_message (macro_name IndexMap) 5);
                    Printed (complaint 0 4)]))).
Proof.
  intros Hg Ho Hf Hn Hs Hd.
  rewrite (@main_after_options argv opts args v w w1 Hg Ho). split.
  - intros Hi Hm. unfold bind at 1.
    rewrite main_checks_pass by (intros []; cbn [setting]; lia).
    unfold main_rewrites, bind. change set_ifft_define with (set_define Ifft).
    rewrite Hi.
    rewrite (@set_define_raises Ifft 5 w filedata)
      by (try exact Hf; unfold macro_max; lia).
    reflexivity.
  - intros Hi Hn3 Hm lines1 lines2. unfold bind at 1.
    rewrite main_checks_pass by (intros []; cbn [setting]; lia).
    unfold main_rewrites, bind.
    change set_ifft_define with (set_define Ifft).
    change set_ntt_define with (set_define Ntt).
    change set_index_map_define with (set_define IndexMap).
    rewrite (@set_define_returns Ifft _ w filedata)
      by (unfold macro_min, macro_max; try lia; exact Hf).
    rewrite (@set_define_returns Ntt _ _ lines1)
      by (unfold macro_min, macro_max; try lia; apply store_same).
    rewrite Hm.
    rewrite (@set_define_raises IndexMap 5 _ lines2)
      by (try apply store_same; unfold macro_max; lia).
    cbn [files trace]. rewrite <- !app_assoc. reflexivity.
Qed.

Lemma main_out_of_range_value_witness :
  main argv_i5 (header two_defines)
  = (Raise RuntimeError,
     World (files (header two_defines))
           (trace (header two_defines)
            ++ [FileRead user_defines_h;
                Printed (setting_message (macro_name Ifft) 5);
                Printed (complaint 0 2)]))
  /\ main argv_m5 (header two_defines)
     = (Raise RuntimeError,
        World (store user_defines_h
                     (rewritten Ntt 3 (rewritten Ifft 2 two_defines))
                     (store user_defines_h (rewritten Ifft 2 two_defines)
                            (files (header two_defines))))
              (trace (header two_defines)
               ++ [FileRead user_defines_h;
                   Printed (setting_message (macro_name Ifft) 2);
                   FileWritten user_defines_h (rewritten Ifft 2 two_defines);
                   FileRead user_defines_h;
                   Printed (setting_message (macro_name Ntt) 3);
                   FileWritten user_defines_h
                     (rewritten Ntt 3 (rewritten Ifft 2 two_defines));
                   FileRead user_defines_h;
                   Printed (setting_message (macro_name IndexMap) 5);
                   Printed (complaint 0 4)])).
Proof.
  split.
  - apply (@main_out_of_range_value argv_i5
             [(lit "-i", lit "5"); (lit "-n", lit "3"); (lit "-m", lit "0");
              (lit "-s", lit "0"); (lit "-d", lit "0")]
             [] (Settings 5 3 0 0 0) (header two_defines) (header two_defines)
             two_defines);
      try reflexivity; simpl; lia.
  - apply (@main_out_of_range_value argv_m5
             [(lit "-i", lit "2"); (lit "-n", lit "3"); (lit "-m", lit "5");
              (lit "-s", lit "0"); (lit "-d", lit "0")]
             [] (Settings 2 3 5 0 0) (header two_defines) (header two_defines)
             two_defines);
      try reflexivity; simpl; lia.
Defined.

(** C5, as stated, fails: the command line -h supplies none of the five
    options, and the driver prints the usage text, which is not the message
    that asks for an ifft option, and leaves with status 0. *)
Lemma main_help_prints_usage :
  main [lit "-h"] (header two_defines)
  = (Exit 0, said (header two_defines) [usage])
  /\ usage <> need_to_choose Ifft.
Proof. split; [reflexivity | discriminate]. Qed.

(** C5, amended.  For every command line that [getopt] accepts and whose
    option loop runs to its end (no -h, every argument an integer): when a
    variable of the five is negative after the loop, the driver prints the
    message of the first such macro in the order ifft, ntt, index_map, sk,
    data_load and leaves with status 0; it prints nothing else, reads no file
    and writes none. *)
Theorem main_missing_option (argv : list pystr) (opts : optlist)
    (args : list pystr) (v : settings) (m : macro) (w w1 : world) :
  getopt argv shortopts longopts = Some (opts, args) ->
  main_options unset opts w = (Ret v, w1) ->
  first_missing v = Some m ->
  main argv w = (Exit 0, said w [need_to_choose m]).
Proof.
  intros Hg Ho Hm. rewrite (@main_after_options argv opts args v w w1 Hg Ho).
  unfold bind. rewrite (main_checks_missing _ _ Hm). reflexivity.
Qed.

Lemma main_missing_option_witness :
  main argv_no_sk (header two_defines)
  = (Exit 0, said (header two_defines) [need_to_choose Sk]).
Proof.
  apply (@main_missing_option argv_no_sk
           [(lit "-i", lit "2"); (lit "-n", lit "3"); (lit "-m", lit "0");
            (lit "-d", lit "0")]
           [] (Settings 2 3 0 (-1) 0) Sk (header two_defines)
           (header two_defines));
    reflexivity.
Defined.

(** C7.  When the option loop leaves a value inside its range for each of the
    five macros and the header exists, the driver rewrites the header five
    times, for ifft, ntt, index_map, sk and data_load in this order, each
    time reading the header, printing the message and writing the header,
    the next rewrite reading what the one before wrote; then [main] returns. *)
Theorem main_rewrites_in_order (argv : list pystr) (opts : optlist)
    (args : list pystr) (v : settings) (w w1 : world)
    (filedata : list pystr) :
  getopt argv shortopts longopts = Some (opts, args) ->
  main_options unset opts w = (Ret v, w1) ->
  (forall m, macro_min m <= setting m v <= macro_max m) ->
  files w user_defines_h = Some filedata ->
  let lines1 := rewritten Ifft (ifft_set_val v) filedata in
  let lines2 := rewritten Ntt (ntt_set_val v) lines1 in
  let lines3 := rewritten IndexMap (index_map_set_val v) lines2 in
  let lines4 := rewritten Sk (sk_set_val v) lines3 in
  let lines5 := rewritten DataLoad (data_load_set_val v) lines4 in
  exists w',
    main argv w = (Ret tt, w')
    /\ trace w'
       = trace w
         ++ [FileRead user_defines_h;
             Printed (setting_message (macro_name Ifft) (ifft_set_val v));
             FileWritten user_defines_h lines1;
             FileRead user_defines_h;
             Printed (setting_message (macro_name Ntt) (ntt_set_val v));
             FileWritten user_defines_h lines2;
             FileRead user_defines_h;
             Printed (setting_message (macro_name IndexMap)
                                      (index_map_set_val v));
             FileWritten user_defines_h lines3;
             FileRead user_defines_h;
             Printed (setting_message (macro_name Sk) (sk_set_val v));
             FileWritten user_defines_h lines4;
             FileRead user_defines_h;
             Printed (setting_message (macro_name DataLoad)
                                      (data_load_set_val v));
             FileWritten user_defines_h lines5]
    /\ files w' user_defines_h = Some lines5
    /\ forall p, p <> user_defines_h -> files w' p = files w p.
Proof.
  intros Hg Ho Hv Hf lines1 lines2 lines3 lines4 lines5.
  rewrite (@main_after_options argv opts args v w w1 Hg Ho). unfold bind at 1.
  rewrite main_checks_pass
    by (intros m; specialize (Hv m); unfold macro_min in Hv; lia).
  unfold main_rewrites, bind.
  change set_ifft_define with (set_define Ifft).
  change set_ntt_define with (set_define Ntt).
  change set_index_map_define with (set_define IndexMap).
  change set_sk_define with (set_define Sk).
  change set_data_load_define with (set_define DataLoad).
  rewrite (@set_define_returns Ifft _ w filedata)
    by (try exact (Hv Ifft); exact Hf).
  rewrite (@set_define_returns Ntt _ _ lines1)
    by (try exact (Hv Ntt); apply store_same).
  rewrite (@set_define_returns IndexMap _ _ lines2)
    by (try exact (Hv IndexMap); apply store_same).
  rewrite (@set_define_returns Sk _ _ lines3)
    by (try exact (Hv Sk); apply store_same).
  rewrite (@set_define_returns DataLoad _ _ lines4)
    by (try exact (Hv DataLoad); apply store_same).
  eexists. split; [reflexivity|]. cbn [files trace]. split; [|split].
  - rewrite <- !app_assoc. reflexivity.
  - apply store_same.
  - intros p Hp. rewrite !store_other by exact Hp. reflexivity.
Qed.

Lemma main_rewrites_in_order_witness :
  exists w',
    main argv_all (header two_defines) = (Ret tt, w')
    /\ files w' user_defines_h
       = Some (rewritten DataLoad 0
                 (rewritten Sk 0
                    (rewritten IndexMap 0
                       (rewritten Ntt 3 (rewritten Ifft 2 two_defines))))).
Proof.
  destruct (@main_rewrites_in_order argv_all
              [(lit "-i", lit "2"); (lit "-n", lit "3"); (lit "-m", lit "0");
               (lit "-s", lit "0"); (lit "-d", lit "0")]
              [] (Settings 2 3 0 0 0) (header two_defines)
              (header two_defines) two_defines)
    as (w' & E & _ & F & _).
  - reflexivity.
  - reflexivity.
  - intros []; unfold macro_min, macro_max; cbn [setting ifft_set_val
      ntt_set_val index_map_set_val sk_set_val data_load_set_val]; lia.
  - reflexivity.
  - exists w'. split; assumption.
Defined.

(** The example of the spec, end to end. *)
Example main_two_defines :
  let r := main argv_all (header two_defines) in
  fst r = Ret tt
  /\ files (snd r) user_defines_h
     = Some [text_line "#define SE_IFFT_TYPE 2";
             text_line "#define SE_NTT_TYPE 3"].
Proof. vm_compute. split; reflexivity. Qed.

(** C8, as stated, fails: a command line can hold an option without its
    argument, or a flag the script does not know, and not be refused.  In
    the first command line -i is followed by -n; [getopt] gives -n to -i as
    its argument, and the run ends with ValueError, without the usage text
    and without status 2.  In the second the flag -x stands behind a word
    that is no option; [getopt] stops reading options at that word, and the
    run rewrites the header and returns. *)
Lemma main_not_refused :
  main argv_i_n (header two_defines) = (Raise ValueError, header two_defines)
  /\ fst (main argv_stray_x (header two_defines)) = Ret tt
  /\ files (snd (main argv_stray_x (header two_defines))) user_defines_h
     = Some [text_line "#define SE_IFFT_TYPE 2";
             text_line "#define SE_NTT_TYPE 3"].
Proof. vm_compute. repeat split; reflexivity. Qed.

(** C8, amended.  For every command line with malformed option syntax, read
    as [getopt] reads it (the words from the left, each option with the
    argument joined to it or, failing that, with the next word, up to the
    first word that is no option): one on which this reading comes to a short
    flag other than h, i, n, m, s, d, to a long option whose name is not the
    beginning of exactly one of ifft, ntt, index_map, sk, data_load, or to an
    option that needs an argument and ends the command line; the driver
    prints the usage text and leaves with status 2; no file is read and none
    is written. *)
Theorem main_usage_error (argv : list pystr) (w : world) :
  malformed argv ->
  main argv w = (Exit 2, said w [usage]).
Proof.
  intros H. unfold main. rewrite (malformed_refused H). reflexivity.
Qed.

Lemma main_usage_error_witness :
  main [lit "-i"; lit "2"; lit "-hn3"; lit "--sk=0"; lit "--data"; lit "0";
        lit "-x"] (header two_defines)
  = (Exit 2, said (header two_defines) [usage]).
Proof.
  apply main_usage_error.
  apply short_word; [discriminate|].
  apply flag_next; [reflexivity|].
  apply short_word; [discriminate|].
  apply flag_help; [reflexivity|].
  apply flag_joined; [reflexivity|].
  apply (long_joined (name := lit "sk") (lit "0"));
    [intros [H|[H|[]]]; discriminate H | reflexivity |].
  apply (long_next (name := lit "data"));
    [intros [H|[H|[H|[H|[]]]]]; discriminate H | reflexivity |].
  apply short_word; [discriminate|].
  apply flag_unknown; reflexivity.
Defined.

(** A refused option on a command line that also asks for help, and an option
    at the end without its argument: status 2 both times. *)
Example main_usage_error_examples :
  fst (main [lit "-h"; lit "--bogus"] (header two_defines)) = Exit 2
  /\ fst (main [lit "-i"; lit "2"; lit "--sk"] (header two_defines)) = Exit 2
  /\ fst (main [lit "--i"; lit "2"] (header two_defines)) = Exit 2.
Proof. vm_compute. repeat split; reflexivity. Qed.

(** ** One pass over the line *)

Lemma map_seen_app (f : pystr -> ascii -> ascii) (seen u x : pystr) :
  map_seen f seen (u ++ x) = map_seen f seen u ++ map_seen f (rev u ++ seen) x.
Proof.
  revert seen; induction u as [|c u IH]; intros seen; simpl; [reflexivity|].
  rewrite IH, <- app_assoc. reflexivity.
Qed.

Lemma map_seen_length (f : pystr -> ascii -> ascii) (seen s : pystr) :
  length (map_seen f seen s) = length s.
Proof. revert seen; induction s; intros seen; simpl; auto. Qed.

(** Two passes that agree wherever the first characters of the line were
    seen give the same line. *)
Lemma map_seen_ext (f g : pystr -> ascii -> ascii) (front s : pystr) :
  (forall u c, f (rev u ++ front) c = g (rev u ++ front) c) ->
  map_seen f front s = map_seen g front s.
Proof.
  intros H.
  assert (forall u, map_seen f (rev u ++ front) s = map_seen g (rev u ++ front) s)
    as G; [|exact (G [])].
  induction s as [|c s IH]; intros u; simpl; [reflexivity|].
  rewrite H. f_equal. specialize (IH (u ++ [c])).
  rewrite rev_app_distr in IH. exact IH.
Qed.

(** A pass over the result of a pass is a pass. *)
Lemma map_seen_compose (f g h : pystr -> ascii -> ascii) (seen seen' s : pystr) :
  (forall seen seen' c,
      seen_image f seen seen' -> g seen' (f seen c) = h seen c) ->
  seen_image f seen seen' ->
  map_seen g seen' (map_seen f seen s) = map_seen h seen s.
Proof.
  intros H. revert seen seen'.
  induction s as [|c s IH]; intros seen seen' I; simpl; [reflexivity|].
  rewrite (H _ _ _ I). f_equal. apply IH. constructor. exact I.
Qed.

Lemma startswith_both (s p q : pystr) :
  startswith s p = true -> startswith s q = true ->
  startswith p q = true \/ startswith q p = true.
Proof.
  revert s q; induction p as [|x p IH]; intros s q Hp Hq.
  - right. destruct q; reflexivity.
  - destruct q as [|y q]; [left; reflexivity|].
    destruct s as [|z s]; simpl in Hp, Hq; [discriminate|].
    destruct (ascii_dec x z) as [->|]; [|discriminate].
    destruct (ascii_dec y z) as [->|]; [|discriminate].
    simpl. destruct (ascii_dec z z); [|congruence].
    apply (IH s q); assumption.
Qed.

(** What a pass of [set_behind] seen so far differs from the line only in
    characters of [D] that became [b]. *)
Lemma seen_image_kept_or_set (stem_rev : pystr) (D : ascii -> bool) (b : ascii)
    (seen seen' : pystr) :
  seen_image (set_one stem_rev D b) seen seen' ->
  Forall2 (fun x y => y = x \/ (D x = true /\ y = b)) seen seen'.
Proof.
  induction 1 as [|seen seen' c _ IH]; constructor; [|exact IH].
  unfold set_one. destruct (D c) eqn:E; simpl.
  - destruct (startswith seen stem_rev); [right; auto | left; reflexivity].
  - left; reflexivity.
Qed.

(** A stem that holds neither [b] nor a character of [D] is found behind the
    same characters before and after the pass. *)
Lemma startswith_image (stem_rev : pystr) (D : ascii -> bool) (b : ascii)
    (seen seen' : pystr) :
  Forall (fun n => D n = false /\ n <> b) stem_rev ->
  Forall2 (fun x y => y = x \/ (D x = true /\ y = b)) seen seen' ->
  startswith seen' stem_rev = startswith seen stem_rev.
Proof.
  intros Hs. revert seen seen'.
  induction Hs as [|n st [Hn Hb] _ IH]; intros seen seen' F; [reflexivity|].
  destruct F as [|x y seen seen' Hxy F]; [reflexivity|]. simpl.
  destruct Hxy as [->|[Dx ->]].
  - destruct (ascii_dec n x); [apply IH, F | reflexivity].
  - destruct (ascii_dec n b); [congruence|].
    destruct (ascii_dec n x) as [->|]; [congruence | reflexivity].
Qed.

(** A pass that has nothing to set returns the line. *)
Lemma set_behind_nothing (stem_rev : pystr) (D : ascii -> bool) (b : ascii)
    (seen s : pystr) :
  Forall (fun c => D c = false) s -> set_behind stem_rev D b seen s = s.
Proof.
  intros H. revert seen. induction H as [|c s Hc _ IH]; intros seen;
    [reflexivity|].
  unfold set_behind in *. simpl. unfold set_one at 1. rewrite Hc. simpl.
  f_equal. apply IH.
Qed.

Lemma startswith_short_front (x y p : pystr) (a : ascii) :
  startswith (x ++ a :: y) p = true -> (length x < length p)%nat -> In a p.
Proof.
  intros S L. apply startswith_inv in S as [t S].
  apply app_eq_app in S as [l [[S1 S2]|[S1 S2]]].
  - apply (f_equal (@length _)) in S1. rewrite length_app in S1. lia.
  - destruct l as [|h l].
    + rewrite app_nil_r in S1. subst p. lia.
    + simpl in S2. injection S2 as <- _. rewrite S1.
      apply in_or_app. right. simpl. auto.
Qed.

Section ReplaceIsOnePass.

(** [stem ++ [a]] is replaced by [stem ++ [b]], where [a] is no character of
    [stem]: no two occurrences of [stem ++ [a]] overlap. *)
Variables (stem : pystr) (a b : ascii).
Hypothesis a_fresh : ~ In a stem.

Let old : pystr := stem ++ [a].
Let new : pystr := stem ++ [b].

Let old_not_nil : old <> [].
Proof. unfold old. intros E. apply app_eq_nil in E as [_ E]. discriminate. Qed.

(** No [a] among the next characters has the stem before it, begun in what
    was seen. *)
Let clear_ahead (seen s : pystr) : Prop :=
  forall u rest,
    s = u ++ a :: rest -> (length u < length stem)%nat ->
    startswith (rev u ++ seen) (rev stem) = false.

Lemma is_char_same : is_char a a = true.
Proof. unfold is_char. destruct (ascii_dec a a); congruence. Qed.

Lemma set_behind_stem (seen : pystr) :
  set_behind (rev stem) (is_char a) b seen stem = stem.
Proof.
  apply set_behind_nothing. apply Forall_forall. intros c Hc.
  unfold is_char. destruct (ascii_dec c a) as [->|]; [tauto | reflexivity].
Qed.

Lemma set_behind_old (seen r : pystr) :
  set_behind (rev stem) (is_char a) b seen (old ++ r)
  = new ++ set_behind (rev stem) (is_char a) b (rev old ++ seen) r.
Proof.
  unfold set_behind. rewrite map_seen_app. f_equal.
  unfold old, new. rewrite map_seen_app. f_equal; [apply set_behind_stem|].
  simpl. unfold set_one. rewrite is_char_same, startswith_app. reflexivity.
Qed.

Lemma clear_behind_old (seen r : pystr) : clear_ahead (rev old ++ seen) r.
Proof.
  intros u rest _ L.
  destruct (startswith (rev u ++ rev old ++ seen) (rev stem)) eqn:S;
    [exfalso|reflexivity].
  unfold old in S. rewrite rev_app_distr in S. simpl in S.
  apply startswith_short_front in S; [|rewrite !length_rev; exact L].
  apply a_fresh, in_rev, S.
Qed.

Lemma clear_after_miss (seen s : pystr) (c : ascii) :
  startswith (c :: s) old = false ->
  clear_ahead seen (c :: s) -> clear_ahead (c :: seen) s.
Proof.
  intros Hmiss Inv u rest E L.
  destruct (Nat.eq_dec (S (length u)) (length stem)) as [Eq|Ne].
  - destruct (startswith (rev u ++ c :: seen) (rev stem)) eqn:S;
      [exfalso|reflexivity].
    apply startswith_inv in S as [t S].
    change (rev u ++ c :: seen) with (rev u ++ [c] ++ seen) in S.
    rewrite app_assoc in S.
    apply app_same_length in S as [S _];
      [|rewrite length_app, !length_rev; simpl; lia].
    apply (f_equal (@rev _)) in S.
    rewrite rev_app_distr, !rev_involutive in S. simpl in S.
    rewrite E in Hmiss. unfold old in Hmiss.
    assert (c :: u ++ a :: rest = (stem ++ [a]) ++ rest) as E'
      by (rewrite <- S, <- app_assoc; reflexivity).
    rewrite E', startswith_app in Hmiss. discriminate.
  - specialize (Inv (c :: u) rest). simpl in Inv.
    rewrite <- app_assoc in Inv. apply Inv; [rewrite E; reflexivity | lia].
Qed.

Lemma replace_scan_one_pass (s : pystr) :
  forall seen,
    clear_ahead seen s ->
    set_behind (rev stem) (is_char a) b seen s = replace_scan old new 0 s.
Proof.
  revert s.
  apply (@scan_ind old
           (fun s => forall seen, clear_ahead seen s ->
              set_behind (rev stem) (is_char a) b seen s
              = replace_scan old new 0 s));
    [exact old_not_nil | | |].
  - reflexivity.
  - intros r IH seen _. rewrite set_behind_old.
    rewrite replace_scan_hit by exact old_not_nil. f_equal.
    apply IH, clear_behind_old.
  - intros c s Hmiss IH seen Inv.
    rewrite replace_scan_miss by exact Hmiss.
    unfold set_behind. simpl. f_equal.
    + unfold set_one. destruct (is_char a c) eqn:Ec; [|reflexivity].
      unfold is_char in Ec. destruct (ascii_dec c a) as [->|]; [|discriminate].
      destruct (Nat.eq_dec (length stem) 0) as [E0|E0].
      * apply length_zero_iff_nil in E0. unfold old in Hmiss.
        rewrite E0 in Hmiss. simpl in Hmiss.
        destruct (ascii_dec a a); [discriminate | congruence].
      * pose proof (Inv [] s eq_refl) as F. simpl in F.
        rewrite F by lia. reflexivity.
    + apply IH, clear_after_miss; assumption.
Qed.

(** [replace] of [stem ++ [a]] by [stem ++ [b]] is the pass that sets every
    [a] behind the stem to [b]. *)
Lemma replace_one_pass (s : pystr) :
  replace s (stem ++ [a]) (stem ++ [b])
  = set_behind (rev stem) (is_char a) b [] s.
Proof.
  rewrite replace_eq by exact old_not_nil. symmetry.
  apply replace_scan_one_pass. intros u rest _ L.
  rewrite app_nil_r.
  destruct (startswith (rev u) (rev stem)) eqn:S; [exfalso|reflexivity].
  apply startswith_inv in S as [t S]. apply (f_equal (@length _)) in S.
  rewrite length_app, !length_rev in S. lia.
Qed.

End ReplaceIsOnePass.

Lemma set_behind_ext (stem_rev : pystr) (D D' : ascii -> bool) (b : ascii)
    (seen s : pystr) :
  (forall c, D c = D' c) ->
  set_behind stem_rev D b seen s = set_behind stem_rev D' b seen s.
Proof.
  intros H. revert seen. induction s as [|c s IH]; intros seen;
    [reflexivity|].
  unfold set_behind in *. simpl. unfold set_one at 1 3. rewrite H.
  f_equal. apply IH.
Qed.

(** The second of two passes finds its stem where the line had it. *)
Lemma set_one_after (stem1 stem2 : pystr) (D1 D2 : ascii -> bool)
    (b1 b2 : ascii) (seen seen' : pystr) (c : ascii) :
  Forall (fun n => D1 n = false /\ n <> b1) stem2 ->
  seen_image (set_one stem1 D1 b1) seen seen' ->
  set_one stem2 D2 b2 seen' (set_one stem1 D1 b1 seen c)
  = (if D2 (set_one stem1 D1 b1 seen c) && startswith seen stem2
     then b2 else set_one stem1 D1 b1 seen c).
Proof.
  intros Hs I. unfold set_one at 1.
  rewrite (@startswith_image stem2 D1 b1 seen seen' Hs
             (@seen_image_kept_or_set stem1 D1 b1 seen seen' I)).
  reflexivity.
Qed.

(** A pass for one more character, behind the same stem and with the same
    [b], adds the character to the ones that are set. *)
Lemma set_behind_one_more (stem_rev : pystr) (D : ascii -> bool) (a b : ascii)
    (s : pystr) :
  Forall (fun n => D n = false /\ n <> b) stem_rev ->
  set_behind stem_rev (is_char a) b [] (set_behind stem_rev D b [] s)
  = set_behind stem_rev (fun c => D c || is_char a c) b [] s.
Proof.
  intros Hs. unfold set_behind. apply map_seen_compose; [|constructor].
  intros seen seen' c I.
  rewrite (@set_one_after stem_rev stem_rev D (is_char a) b b seen seen' c Hs I).
  unfold set_one.
  destruct (D c); simpl; destruct (startswith seen stem_rev); simpl;
    try reflexivity; try (destruct (is_char a c); reflexivity).
  destruct (is_char a b); reflexivity.
Qed.

(** A pass with another [b'] over the result of a pass puts [b'] where the
    first pass put [b], when [b] is itself one of the characters to set. *)
Lemma set_behind_again (stem_rev : pystr) (D : ascii -> bool) (b b' : ascii)
    (s : pystr) :
  Forall (fun n => D n = false /\ n <> b) stem_rev -> D b = true ->
  set_behind stem_rev D b' [] (set_behind stem_rev D b [] s)
  = set_behind stem_rev D b' [] s.
Proof.
  intros Hs Hb. unfold set_behind. apply map_seen_compose; [|constructor].
  intros seen seen' c I.
  rewrite (@set_one_after stem_rev stem_rev D D b b' seen seen' c Hs I).
  unfold set_one.
  destruct (D c) eqn:Dc; simpl; destruct (startswith seen stem_rev); simpl;
    rewrite ?Hb, ?Dc; reflexivity.
Qed.

(** Passes behind two stems of which neither ends where the other does can
    be made in either order. *)
Lemma set_behind_commute (stem1 stem2 : pystr) (D1 D2 : ascii -> bool)
    (b1 b2 : ascii) (s : pystr) :
  Forall (fun n => D1 n = false /\ n <> b1) stem2 ->
  Forall (fun n => D2 n = false /\ n <> b2) stem1 ->
  startswith stem1 stem2 = false -> startswith stem2 stem1 = false ->
  set_behind stem2 D2 b2 [] (set_behind stem1 D1 b1 [] s)
  = set_behind stem1 D1 b1 [] (set_behind stem2 D2 b2 [] s).
Proof.
  intros H2 H1 A1 A2.
  assert (forall seen, startswith seen stem1 = true ->
                       startswith seen stem2 = false) as Hap.
  { intros seen T1. destruct (startswith seen stem2) eqn:T2; [|reflexivity].
    destruct (@startswith_both seen stem1 stem2 T1 T2); congruence. }
  transitivity
    (map_seen (fun seen c => if D1 c && startswith seen stem1 then b1
                             else if D2 c && startswith seen stem2 then b2
                                  else c) [] s).
  - unfold set_behind. apply map_seen_compose; [|constructor].
    intros seen seen' c I.
    rewrite (@set_one_after stem1 stem2 D1 D2 b1 b2 seen seen' c H2 I).
    unfold set_one.
    destruct (D1 c); simpl; [|reflexivity].
    destruct (startswith seen stem1) eqn:T1; [|reflexivity].
    rewrite (Hap _ T1), andb_false_r. reflexivity.
  - symmetry. unfold set_behind. apply map_seen_compose; [|constructor].
    intros seen seen' c I.
    rewrite (@set_one_after stem2 stem1 D2 D1 b2 b1 seen seen' c H1 I).
    unfold set_one.
    destruct (startswith seen stem1) eqn:T1.
    + rewrite (Hap _ T1), !andb_false_r, andb_true_r. reflexivity.
    + rewrite !andb_false_r.
      destruct (D2 c && startswith seen stem2); reflexivity.
Qed.

(** A pass behind a stem that does not occur in the line returns the line. *)
Lemma set_behind_absent (stem : pystr) (D : ascii -> bool) (b : ascii)
    (line : pystr) :
  ~ occurs stem line -> set_behind (rev stem) D b [] line = line.
Proof.
  intros Hno.
  assert (forall s pre, line = pre ++ s ->
                        set_behind (rev stem) D b (rev pre) s = s) as G;
    [|exact (G line [] eq_refl)].
  induction s as [|c s IH]; intros pre E; [reflexivity|].
  unfold set_behind in *. simpl. f_equal.
  - unfold set_one. destruct (startswith (rev pre) (rev stem)) eqn:S;
      [exfalso | rewrite andb_false_r; reflexivity].
    apply startswith_inv in S as [t S]. apply (f_equal (@rev _)) in S.
    rewrite rev_app_distr, !rev_involutive in S.
    apply Hno. exists (rev t), (c :: s). rewrite E, S, <- app_assoc.
    reflexivity.
  - specialize (IH (pre ++ [c])). rewrite rev_app_distr in IH. apply IH.
    rewrite E, <- app_assoc. reflexivity.
Qed.

(** ** [new_line] is one pass *)

Lemma digit_of_cons (k : Z) (ks : list Z) (c : ascii) :
  digit_of (k :: ks) c = is_char (digit k) c || digit_of ks c.
Proof. reflexivity. Qed.

Lemma digit_of_in (ks : list Z) (c : ascii) :
  digit_of ks c = true <-> exists k, In k ks /\ c = digit k.
Proof.
  unfold digit_of. rewrite existsb_exists. unfold is_char.
  split; intros (k & Hk & E); exists k; split; try exact Hk.
  - destruct (ascii_dec c (digit k)); [assumption | discriminate].
  - destruct (ascii_dec c (digit k)); [reflexivity | contradiction].
Qed.

Lemma stem_free (name : pystr) (D : ascii -> bool) (target : Z) :
  digit_free name -> 0 <= target <= 9 ->
  (forall c, D c = true -> isdigit c = true) ->
  Forall (fun n => D n = false /\ n <> digit target) (rev (name ++ space)).
Proof.
  intros Hn Ht HD. apply Forall_forall. intros n Hin. apply in_rev in Hin.
  assert (isdigit n = false) as Nn.
  { apply in_app_iff in Hin as [Hin|[<-|[]]]; [|reflexivity].
    unfold digit_free in Hn. rewrite Forall_forall in Hn. apply Hn, Hin. }
  split.
  - destruct (D n) eqn:E; [|reflexivity]. apply HD in E. congruence.
  - intros ->. rewrite digit_isdigit in Nn by exact Ht. discriminate.
Qed.

(** The inner loop, begun on the result of a pass, ends on the result of the
    pass that also sets the digits the loop goes through. *)
Lemma values_fold_one_pass (name : pystr) (target : Z) (ks : list Z)
    (D : ascii -> bool) (s : pystr) :
  digit_free name -> 0 <= target <= 9 ->
  (forall k, In k ks -> 0 <= k <= 9) ->
  (forall c, D c = true -> isdigit c = true) ->
  fold_left (rep_value name target) ks
            (set_behind (rev (name ++ space)) D (digit target) [] s)
  = set_behind (rev (name ++ space)) (fun c => D c || digit_of ks c)
               (digit target) [] s.
Proof.
  intros Hn Ht. revert D.
  induction ks as [|k ks IH]; intros D Hks HD; cbn [fold_left].
  - apply set_behind_ext. intros c. rewrite orb_false_r. reflexivity.
  - assert (0 <= k <= 9) as Hk by (apply Hks; simpl; auto).
    unfold rep_value at 2. fold (name_value name k) (name_value name target).
    rewrite !name_value_digit by assumption.
    rewrite replace_one_pass by (apply digit_not_in_name; assumption).
    rewrite set_behind_one_more by (apply stem_free; assumption).
    rewrite IH.
    + apply set_behind_ext. intros c. rewrite digit_of_cons, orb_assoc.
      reflexivity.
    + intros j Hj. apply Hks. simpl; auto.
    + intros c Hc. apply orb_true_iff in Hc as [Hc|Hc]; [apply HD, Hc|].
      unfold is_char in Hc. destruct (ascii_dec c (digit k)) as [->|];
        [apply digit_isdigit, Hk | discriminate].
Qed.

(** For a name without digits and a range of single digits, [new_line] is
    the pass [set_values]. *)
Lemma new_line_one_pass (name : pystr) (min max target : Z) (line : pystr) :
  digit_free name -> 0 <= min -> max <= 9 -> 0 <= target <= 9 ->
  new_line name min max target line = set_values name min max target line.
Proof.
  intros Hn Hmin Hmax Ht. unfold new_line, set_values.
  destruct (negb (find line name =? -1)) eqn:E.
  - rewrite <- (set_behind_nothing (rev (name ++ space)) (fun _ => false)
                  (digit target) [] (s := line)) at 1
      by (apply Forall_forall; reflexivity).
    rewrite values_fold_one_pass; try assumption.
    + apply set_behind_ext. reflexivity.
    + intros k Hk. apply in_range in Hk. lia.
    + discriminate.
  - symmetry. apply set_behind_absent. intros O.
    apply occurs_stem, find_test in O. congruence.
Qed.

(** ** More on [file_line_rep] *)

Lemma Forall2_chain (A : Type) (R1 R2 R3 : A -> A -> Prop) (l1 l2 l3 : list A) :
  (forall x y z, R1 x y -> R2 y z -> R3 x z) ->
  Forall2 R1 l1 l2 -> Forall2 R2 l2 l3 -> Forall2 R3 l1 l3.
Proof.
  intros H F1. revert l3. induction F1 as [|x y l1 l2 Hxy _ IH]; intros l3 F2.
  - inversion F2. constructor.
  - inversion F2 as [|y' z l2' l3' Hyz F2']; subst. constructor.
    + eapply H; eassumption.
    + apply IH, F2'.
Qed.

Lemma Forall2_same (A : Type) (R : A -> A -> Prop) (l : list A) :
  (forall x, R x x) -> Forall2 R l l.
Proof. intros H. induction l; constructor; auto. Qed.

(** Whatever the name, the inner loop over single digits keeps the length of
    the line and sets digits only. *)
Lemma values_fold_kept_or_target (name : pystr) (min max target : Z)
    (ks : list Z) (line : pystr) :
  (forall k, In k ks -> 0 <= k <= 9 /\ min <= k <= max) ->
  0 <= target <= 9 ->
  Forall2 (kept_or_target min max target) line
          (fold_left (rep_value name target) ks line).
Proof.
  intros Hks Ht. revert line.
  induction ks as [|k ks IH]; intros line; cbn [fold_left].
  - apply Forall2_same. intros x. left. reflexivity.
  - destruct (Hks k) as [Hk9 Hk]; [simpl; auto|].
    apply Forall2_chain
      with (R1 := kept_or_set (digit k) (digit target))
           (R2 := kept_or_target min max target)
           (l2 := rep_value name target line k).
    + intros x y z [->|[-> ->]] Hyz; [exact Hyz|].
      destruct Hyz as [->|(j & _ & _ & ->)]; right; exists k; auto.
    + unfold rep_value. fold (name_value name k) (name_value name target).
      rewrite !name_value_digit by assumption.
      rewrite replace_eq
        by (intros E; apply app_eq_nil in E as [_ E]; discriminate).
      apply replace_scan_kept_or_set.
    + apply IH. intros j Hj. apply Hks. simpl; auto.
Qed.

Lemma new_line_kept_or_target (name : pystr) (min max target : Z)
    (line : pystr) :
  0 <= min -> max <= 9 -> 0 <= target <= 9 ->
  Forall2 (kept_or_target min max target) line
          (new_line name min max target line).
Proof.
  intros Hmin Hmax Ht. unfold new_line.
  destruct (negb (find line name =? -1)).
  - apply values_fold_kept_or_target; [|exact Ht].
    intros k Hk. apply in_range in Hk. lia.
  - apply Forall2_same. intros x. left. reflexivity.
Qed.

(** X1.  With a range of single digits, 0 <= min and max <= 9, and whatever
    the name is, every line returned has the length of the input line, and
    each of its characters is the character of the input line or, where that
    was a digit of the range, the digit of the target. *)
Theorem file_line_rep_sets_digits_only (filedata : list pystr)
    (base_string : pystr) (min_val max_val set_val : Z) (w : world) :
  0 <= min_val -> max_val <= 9 -> min_val <= set_val <= max_val ->
  exists newfiledata w',
    file_line_rep filedata base_string min_val max_val set_val w
    = (Ret newfiledata, w')
    /\ Forall2 (Forall2 (kept_or_target min_val max_val set_val))
               filedata newfiledata.
Proof.
  intros Hmin Hmax Ht. eexists _, _. split.
  - apply file_line_rep_returns; lia.
  - induction filedata as [|line filedata IH]; simpl; constructor.
    + apply new_line_kept_or_target; lia.
    + exact IH.
Qed.

Lemma file_line_rep_sets_digits_only_witness :
  exists newfiledata w',
    file_line_rep [lit "#define SE_SK_TYPE 2 // 0, 1 or 2"; lit "int x = 0;"]
                  (lit "#define SE_SK_TYPE") 0 2 1 empty_world
    = (Ret newfiledata, w')
    /\ Forall2 (Forall2 (kept_or_target 0 2 1))
               [lit "#define SE_SK_TYPE 2 // 0, 1 or 2"; lit "int x = 0;"]
               newfiledata.
Proof. apply file_line_rep_sets_digits_only; lia. Defined.

(** After [new_line], for a name without digits and a range of single
    digits, the target is the only value of the range left behind the
    name. *)
Lemma new_line_only_target (name : pystr) (min max target k : Z)
    (line : pystr) :
  digit_free name -> 0 <= min -> max <= 9 -> min <= target <= max ->
  min <= k <= max -> k <> target ->
  ~ occurs (name_value name k) (new_line name min max target line).
Proof.
  intros Hn Hmin Hmax Ht Hk Hkt O.
  unfold new_line in O. destruct (negb (find line name =? -1)) eqn:E.
  - rewrite name_value_digit in O by lia.
    apply occurs_after_values in O as [_ O].
    + apply (O k); [apply in_range; lia | reflexivity].
    + intros j Hj. apply in_range in Hj. lia.
    + lia.
    + apply digit_not_in_name; [exact Hn | lia].
    + intros D. apply digit_inj in D; lia.
  - apply occurs_stem, find_test in O. congruence.
Qed.

(** X2.  For a name without digits and a range of single digits: in no line
    returned does another value of the range than the target stand behind
    the name and one space. *)
Theorem file_line_rep_leaves_only_target (filedata : list pystr)
    (base_string : pystr) (min_val max_val set_val : Z) (w : world) :
  digit_free base_string ->
  0 <= min_val -> max_val <= 9 -> min_val <= set_val <= max_val ->
  exists newfiledata w',
    file_line_rep filedata base_string min_val max_val set_val w
    = (Ret newfiledata, w')
    /\ forall line k,
         In line newfiledata -> min_val <= k <= max_val -> k <> set_val ->
         ~ occurs (base_string ++ space ++ str k) line.
Proof.
  intros Hn Hmin Hmax Ht. eexists _, _. split.
  - apply file_line_rep_returns; lia.
  - intros line k Hin Hk Hkt. apply in_map_iff in Hin as (line0 & <- & _).
    apply (new_line_only_target line0 Hn Hmin Hmax Ht Hk Hkt).
Qed.

Lemma file_line_rep_leaves_only_target_witness :
  exists newfiledata w',
    file_line_rep [lit "#define SE_NTT_TYPE 0 // or #define SE_NTT_TYPE 3"]
                  (lit "#define SE_NTT_TYPE") 0 3 1 empty_world
    = (Ret newfiledata, w')
    /\ forall line k,
         In line newfiledata -> 0 <= k <= 3 -> k <> 1 ->
         ~ occurs (lit "#define SE_NTT_TYPE" ++ space ++ str k) line.
Proof.
  apply file_line_rep_leaves_only_target; try lia. repeat constructor.
Defined.

Lemma digit_of_range (min max k : Z) :
  min <= k <= max -> digit_of (range min (max + 1)) (digit k) = true.
Proof.
  intros Hk. apply digit_of_in. exists k. split; [|reflexivity].
  apply in_range. lia.
Qed.

Lemma digit_of_isdigit (ks : list Z) (c : ascii) :
  (forall k, In k ks -> 0 <= k <= 9) ->
  digit_of ks c = true -> isdigit c = true.
Proof.
  intros Hks H. apply digit_of_in in H as (k & Hk & ->).
  apply digit_isdigit, Hks, Hk.
Qed.

Lemma range_digits (min max k : Z) :
  0 <= min -> max <= 9 -> In k (range min (max + 1)) -> 0 <= k <= 9.
Proof. intros Hmin Hmax Hk. apply in_range in Hk. lia. Qed.

(** The value written last is the one that stays. *)
Lemma new_line_again (name : pystr) (min max target target' : Z)
    (line : pystr) :
  digit_free name -> 0 <= min -> max <= 9 ->
  min <= target <= max -> min <= target' <= max ->
  new_line name min max target' (new_line name min max target line)
  = new_line name min max target' line.
Proof.
  intros Hn Hmin Hmax Ht Ht'. rewrite !new_line_one_pass by (assumption || lia).
  unfold set_values. apply set_behind_again.
  - apply stem_free; [exact Hn | lia |].
    intros c. apply digit_of_isdigit. intros k. apply range_digits; assumption.
  - apply digit_of_range, Ht.
Qed.

(** X3.  For a name without digits and a range of single digits: a rewrite
    with the target t' of what a rewrite with the target t returned gives the
    lines that the rewrite with t' gives of the input. *)
Theorem file_line_rep_last_target_stays (filedata : list pystr)
    (base_string : pystr) (min_val max_val set_val set_val' : Z)
    (w w0 : world) :
  digit_free base_string ->
  0 <= min_val -> max_val <= 9 ->
  min_val <= set_val <= max_val -> min_val <= set_val' <= max_val ->
  exists first second w1 w2 w3,
    file_line_rep filedata base_string min_val max_val set_val w
    = (Ret first, w1)
    /\ file_line_rep first base_string min_val max_val set_val' w1
       = (Ret second, w2)
    /\ file_line_rep filedata base_string min_val max_val set_val' w0
       = (Ret second, w3).
Proof.
  intros Hn Hmin Hmax Ht Ht'. eexists _, _, _, _, _. split; [|split].
  - apply file_line_rep_returns; lia.
  - apply file_line_rep_returns; lia.
  - rewrite file_line_rep_returns by lia. f_equal. f_equal.
    rewrite map_map. symmetry. apply map_ext. intros line.
    apply new_line_again; assumption.
Qed.

Lemma file_line_rep_last_target_stays_witness :
  exists first second w1 w2 w3,
    file_line_rep [lit "#define SE_INDEX_MAP_TYPE 4"]
                  (lit "#define SE_INDEX_MAP_TYPE") 0 4 2 empty_world
    = (Ret first, w1)
    /\ file_line_rep first (lit "#define SE_INDEX_MAP_TYPE") 0 4 3 w1
       = (Ret second, w2)
    /\ file_line_rep [lit "#define SE_INDEX_MAP_TYPE 4"]
                     (lit "#define SE_INDEX_MAP_TYPE") 0 4 3 empty_world
       = (Ret second, w3).
Proof.
  apply file_line_rep_last_target_stays; try lia. repeat constructor.
Defined.

(** Rewrites for two names of which neither ends where the other does can be
    made in either order. *)
Lemma new_line_commute (name1 name2 : pystr) (min1 max1 target1 : Z)
    (min2 max2 target2 : Z) (line : pystr) :
  digit_free name1 -> digit_free name2 -> apart name1 name2 ->
  0 <= min1 -> max1 <= 9 -> 0 <= target1 <= 9 ->
  0 <= min2 -> max2 <= 9 -> 0 <= target2 <= 9 ->
  new_line name2 min2 max2 target2 (new_line name1 min1 max1 target1 line)
  = new_line name1 min1 max1 target1 (new_line name2 min2 max2 target2 line).
Proof.
  intros Hn1 Hn2 [A1 A2] Hmin1 Hmax1 Ht1 Hmin2 Hmax2 Ht2.
  rewrite !new_line_one_pass by assumption.
  unfold set_values. apply set_behind_commute; try assumption.
  - apply stem_free; [exact Hn2 | exact Ht1 |].
    intros c. apply digit_of_isdigit. intros k. apply range_digits; assumption.
  - apply stem_free; [exact Hn1 | exact Ht2 |].
    intros c. apply digit_of_isdigit. intros k. apply range_digits; assumption.
Qed.

(** X4.  For two names without digits of which neither, followed by a space,
    ends where the other does, and ranges of single digits: rewriting for the
    one name and then for the other returns the same lines in either
    order. *)
Theorem file_line_rep_order_of_names (filedata : list pystr)
    (name1 name2 : pystr) (min1 max1 target1 min2 max2 target2 : Z)
    (w w0 : world) :
  digit_free name1 -> digit_free name2 -> apart name1 name2 ->
  0 <= min1 -> max1 <= 9 -> min1 <= target1 <= max1 ->
  0 <= min2 -> max2 <= 9 -> min2 <= target2 <= max2 ->
  exists first1 first2 both w1 w2 w3 w4,
    file_line_rep filedata name1 min1 max1 target1 w = (Ret first1, w1)
    /\ file_line_rep first1 name2 min2 max2 target2 w1 = (Ret both, w2)
    /\ file_line_rep filedata name2 min2 max2 target2 w0 = (Ret first2, w3)
    /\ file_line_rep first2 name1 min1 max1 target1 w3 = (Ret both, w4).
Proof.
  intros Hn1 Hn2 Ha Hmin1 Hmax1 Ht1 Hmin2 Hmax2 Ht2.
  eexists _, _, _, _, _, _, _. split; [|split; [|split]].
  - apply file_line_rep_returns; lia.
  - apply file_line_rep_returns; lia.
  - apply file_line_rep_returns; lia.
  - rewrite file_line_rep_returns by lia. f_equal. f_equal.
    rewrite !map_map. apply map_ext. intros line. symmetry.
    apply new_line_commute; assumption || lia.
Qed.

Lemma file_line_rep_order_of_names_witness :
  exists first1 first2 both w1 w2 w3 w4,
    file_line_rep [lit "#define SE_SK_TYPE 0 #define SE_IFFT_TYPE 2"]
                  (lit "#define SE_IFFT_TYPE") 0 2 1 empty_world
    = (Ret first1, w1)
    /\ file_line_rep first1 (lit "#define SE_SK_TYPE") 0 2 2 w1
       = (Ret both, w2)
    /\ file_line_rep [lit "#define SE_SK_TYPE 0 #define SE_IFFT_TYPE 2"]
                     (lit "#define SE_SK_TYPE") 0 2 2 empty_world
       = (Ret first2, w3)
    /\ file_line_rep first2 (lit "#define SE_IFFT_TYPE") 0 2 1 w3
       = (Ret both, w4).
Proof.
  apply file_line_rep_order_of_names; try lia.
  - repeat constructor.
  - repeat constructor.
  - split; reflexivity.
Defined.

(** Behind a character that is none of the stem, a pass over a text in which
    the stem does not occur returns the text. *)
Lemma set_behind_tail (stem : pystr) (D : ascii -> bool) (b d : ascii)
    (seen tail : pystr) :
  ~ occurs stem tail -> ~ In d stem ->
  set_behind (rev stem) D b (d :: seen) tail = tail.
Proof.
  intros Hno Hd.
  assert (forall s pre, tail = pre ++ s ->
            set_behind (rev stem) D b (rev pre ++ d :: seen) s = s) as G;
    [|exact (G tail [] eq_refl)].
  induction s as [|c s IH]; intros pre E; [reflexivity|].
  unfold set_behind in *. simpl. f_equal.
  - unfold set_one.
    destruct (startswith (rev pre ++ d :: seen) (rev stem)) eqn:S;
      [exfalso | rewrite andb_false_r; reflexivity].
    apply startswith_inv in S as [t S].
    apply app_eq_app in S as [l [[S1 S2]|[S1 S2]]].
    + apply (f_equal (@rev _)) in S1.
      rewrite rev_app_distr, !rev_involutive in S1.
      apply Hno. exists (rev l), (c :: s). rewrite E, S1, <- app_assoc.
      reflexivity.
    + destruct l as [|h l].
      * rewrite app_nil_r in S1. apply (f_equal (@rev _)) in S1.
        rewrite !rev_involutive in S1.
        apply Hno. exists [], (c :: s). rewrite E, S1. reflexivity.
      * simpl in S2. injection S2 as <- _. apply Hd, in_rev. rewrite S1.
        apply in_or_app. right. simpl. auto.
  - specialize (IH (pre ++ [c])). rewrite rev_app_distr in IH. apply IH.
    rewrite E, <- app_assoc. reflexivity.
Qed.

(** The line of a define: the value behind the name becomes the target, and
    the text behind the value stays, when the name does not occur in it. *)
Lemma new_line_define (name : pystr) (min max target k : Z) (tail : pystr) :
  digit_free name -> 0 <= min -> max <= 9 -> 0 <= target <= 9 ->
  min <= k <= max -> ~ occurs name tail ->
  new_line name min max target (name ++ space ++ str k ++ tail)
  = name ++ space ++ str target ++ tail.
Proof.
  intros Hn Hmin Hmax Ht Hk Hno.
  rewrite new_line_one_pass by assumption.
  rewrite !str_digit by lia. unfold set_values, set_behind.
  rewrite !(app_assoc name space), map_seen_app.
  assert (forall c, digit_of (range min (max + 1)) c = true ->
                    isdigit c = true) as HD.
  { intros c. apply digit_of_isdigit. intros j. apply range_digits; assumption. }
  f_equal.
  - apply set_behind_nothing. apply Forall_forall. intros c Hc.
    destruct (digit_of (range min (max + 1)) c) eqn:E; [|reflexivity].
    apply HD in E. exfalso.
    apply in_app_iff in Hc as [Hc|[<-|[]]]; [|discriminate].
    unfold digit_free in Hn. rewrite Forall_forall in Hn.
    apply Hn in Hc. congruence.
  - cbn [app map_seen]. f_equal.
    + unfold set_one. rewrite digit_of_range by exact Hk.
      rewrite startswith_app. reflexivity.
    + apply set_behind_tail.
      * intros O. apply Hno. apply (occurs_stem _ _ O).
      * apply digit_not_in_name; [exact Hn | lia].
Qed.

(** X5.  For a name without digits and a range of single digits: a line that
    is the name, one space, a value of the range and a text in which the name
    does not occur is returned, at its index, as the name, one space, the
    target and that text. *)
Theorem file_line_rep_sets_define (filedata : list pystr)
    (base_string : pystr) (min_val max_val set_val : Z) (w : world)
    (i : nat) (k : Z) (tail : pystr) :
  digit_free base_string ->
  0 <= min_val -> max_val <= 9 -> min_val <= set_val <= max_val ->
  min_val <= k <= max_val -> ~ occurs base_string tail ->
  nth_error filedata i = Some (base_string ++ space ++ str k ++ tail) ->
  exists newfiledata w',
    file_line_rep filedata base_string min_val max_val set_val w
    = (Ret newfiledata, w')
    /\ nth_error newfiledata i
       = Some (base_string ++ space ++ str set_val ++ tail).
Proof.
  intros Hn Hmin Hmax Ht Hk Hno Hi. eexists _, _. split.
  - apply file_line_rep_returns; lia.
  - rewrite nth_error_map, Hi. simpl. f_equal.
    apply new_line_define; assumption || lia.
Qed.

Lemma file_line_rep_sets_define_witness :
  exists newfiledata w',
    file_line_rep [lit "// header"; text_line "#define SE_IFFT_TYPE 0"]
                  (lit "#define SE_IFFT_TYPE") 0 2 2 empty_world
    = (Ret newfiledata, w')
    /\ nth_error newfiledata 1
       = Some (lit "#define SE_IFFT_TYPE" ++ space ++ str 2 ++ ["010"%char]).
Proof.
  apply (@file_line_rep_sets_define
           [lit "// header"; text_line "#define SE_IFFT_TYPE 0"]
           (lit "#define SE_IFFT_TYPE") 0 2 2 empty_world 1 0 ["010"%char]);
    try lia.
  - repeat constructor.
  - apply find_none. vm_compute. reflexivity.
  - reflexivity.
Defined.

(** ** The five rewrites as one sequence *)

Lemma main_rewrites_eq (v : settings) (w : world) :
  main_rewrites v w = set_defines macros v w.
Proof.
  unfold main_rewrites, macros. cbn [set_defines set_define setting].
  unfold bind.
  destruct (set_ifft_define (ifft_set_val v) w) as [[[]| |] w1]; try reflexivity.
  destruct (set_ntt_define (ntt_set_val v) w1) as [[[]| |] w2]; try reflexivity.
  destruct (set_index_map_define (index_map_set_val v) w2) as [[[]| |] w3];
    try reflexivity.
  destruct (set_sk_define (sk_set_val v) w3) as [[[]| |] w4]; try reflexivity.
  destruct (set_data_load_define (data_load_set_val v) w4) as [[[]| |] w5];
    reflexivity.
Qed.

Lemma rewritten_all_app (ms ms' : list macro) (v : settings)
    (filedata : list pystr) :
  rewritten_all (ms ++ ms') v filedata
  = rewritten_all ms' v (rewritten_all ms v filedata).
Proof. apply fold_left_app. Qed.

(** With every value in its range, the rewrites all take place. *)
Lemma set_defines_returns (ms : list macro) (v : settings) (w : world)
    (filedata : list pystr) :
  (forall m, In m ms -> macro_min m <= setting m v <= macro_max m) ->
  files w user_defines_h = Some filedata ->
  exists w',
    set_defines ms v w = (Ret tt, w')
    /\ files w' user_defines_h = Some (rewritten_all ms v filedata)
    /\ trace w' = trace w ++ rewrite_events ms v filedata
    /\ forall p, p <> user_defines_h -> files w' p = files w p.
Proof.
  revert w filedata. induction ms as [|m ms IH]; intros w filedata Hv Hf.
  - exists w. repeat split; [exact Hf | simpl; rewrite app_nil_r; reflexivity].
  - cbn [set_defines]. unfold bind.
    rewrite (@set_define_returns m (setting m v) w filedata)
      by (try exact Hf; apply Hv; simpl; auto).
    match goal with
    | |- context [set_defines ms v ?w0] =>
        destruct (IH w0 (rewritten m (setting m v) filedata))
          as (w' & E & F & T & O);
        [intros m' Hm'; apply Hv; simpl; auto | apply store_same |]
    end.
    exists w'. split; [exact E|]. split; [exact F|]. split.
    + rewrite T. cbn [trace rewrite_events]. rewrite <- app_assoc. reflexivity.
    + intros p Hp. rewrite (O p Hp). cbn [files]. apply store_other, Hp.
Qed.

(** With a value above its range, the rewrites stop there: the ones before
    are written, the one of the value and the ones behind are not. *)
Lemma set_defines_stops (before after : list macro) (m : macro)
    (v : settings) (w : world) (filedata : list pystr) :
  (forall m', In m' before -> macro_min m' <= setting m' v <= macro_max m') ->
  setting m v < macro_min m \/ macro_max m < setting m v ->
  files w user_defines_h = Some filedata ->
  exists w',
    set_defines (before ++ m :: after) v w = (Raise RuntimeError, w')
    /\ files w' user_defines_h = Some (rewritten_all before v filedata)
    /\ trace w'
       = trace w ++ rewrite_events before v filedata
         ++ [FileRead user_defines_h;
             Printed (setting_message (macro_name m) (setting m v));
             Printed (complaint (macro_min m) (macro_max m))]
    /\ forall p, p <> user_defines_h -> files w' p = files w p.
Proof.
  revert w filedata.
  induction before as [|m0 before IH]; intros w filedata Hv Hm Hf.
  - cbn [app set_defines]. unfold bind.
    rewrite (@set_define_raises m (setting m v) w filedata Hm Hf).
    eexists. split; [reflexivity|]. cbn [files trace rewrite_events app].
    repeat split. exact Hf.
  - cbn [app set_defines]. unfold bind.
    rewrite (@set_define_returns m0 (setting m0 v) w filedata)
      by (try exact Hf; apply Hv; simpl; auto).
    match goal with
    | |- context [set_defines (before ++ m :: after) v ?w0] =>
        destruct (IH w0 (rewritten m0 (setting m0 v) filedata))
          as (w' & E & F & T & O);
        [intros m' Hm'; apply Hv; simpl; auto | exact Hm | apply store_same |]
    end.
    exists w'. split; [exact E|]. split; [exact F|]. split.
    + rewrite T. cbn [trace rewrite_events]. rewrite <- !app_assoc.
      reflexivity.
    + intros p Hp. rewrite (O p Hp). cbn [files]. apply store_other, Hp.
Qed.

Lemma main_runs_rewrites (argv : list pystr) (opts : optlist)
    (args : list pystr) (v : settings) (w w1 : world) :
  getopt argv shortopts longopts = Some (opts, args) ->
  main_options unset opts w = (Ret v, w1) ->
  (forall m, 0 <= setting m v) ->
  main argv w = set_defines macros v w.
Proof.
  intros Hg Ho Hv. rewrite (@main_after_options argv opts args v w w1 Hg Ho).
  unfold bind. rewrite main_checks_pass by exact Hv. apply main_rewrites_eq.
Qed.

(** ** More on the driver *)

(** X6.  When no value is negative and a value lies above its range, the run
    stops at the first such macro of the sequence ifft, ntt, index_map, sk,
    data_load with the range error: the rewrites of the macros before it are
    in the header, nothing is rewritten for it or for a macro behind it, and
    no other file is changed. *)
Theorem main_stops_at_first_out_of_range (argv : list pystr) (opts : optlist)
    (args : list pystr) (v : settings) (w w1 : world)
    (filedata : list pystr) (before after : list macro) (m : macro) :
  getopt argv shortopts longopts = Some (opts, args) ->
  main_options unset opts w = (Ret v, w1) ->
  (forall m', 0 <= setting m' v) ->
  macros = before ++ m :: after ->
  (forall m', In m' before -> setting m' v <= macro_max m') ->
  macro_max m < setting m v ->
  files w user_defines_h = Some filedata ->
  exists w',
    main argv w = (Raise RuntimeError, w')
    /\ files w' user_defines_h = Some (rewritten_all before v filedata)
    /\ trace w'
       = trace w ++ rewrite_events before v filedata
         ++ [FileRead user_defines_h;
             Printed (setting_message (macro_name m) (setting m v));
             Printed (complaint (macro_min m) (macro_max m))]
    /\ forall p, p <> user_defines_h -> files w' p = files w p.
Proof.
  intros Hg Ho Hv Hms Hb Hm Hf.
  rewrite (@main_runs_rewrites argv opts args v w w1 Hg Ho Hv), Hms.
  apply set_defines_stops; [|right; exact Hm | exact Hf].
  intros m' Hm'. split; [apply Hv | apply Hb, Hm'].
Qed.

Lemma main_stops_at_first_out_of_range_witness :
  exists w',
    main argv_s3 (header two_defines) = (Raise RuntimeError, w')
    /\ files w' user_defines_h
       = Some (rewritten_all [Ifft; Ntt; IndexMap] (Settings 2 3 4 3 0)
                             two_defines)
    /\ trace w'
       = trace (header two_defines)
         ++ rewrite_events [Ifft; Ntt; IndexMap] (Settings 2 3 4 3 0)
                           two_defines
         ++ [FileRead user_defines_h;
             Printed (setting_message (macro_name Sk)
                                      (setting Sk (Settings 2 3 4 3 0)));
             Printed (complaint (macro_min Sk) (macro_max Sk))]
    /\ forall p, p <> user_defines_h ->
                 files w' p = files (header two_defines) p.
Proof.
  apply (@main_stops_at_first_out_of_range argv_s3
           [(lit "-i", lit "2"); (lit "-n", lit "3"); (lit "-m", lit "4");
            (lit "-s", lit "3"); (lit "-d", lit "0")]
           [] (Settings 2 3 4 3 0) (header two_defines) (header two_defines)
           two_defines [Ifft; Ntt; IndexMap] [DataLoad] Sk).
  - reflexivity.
  - reflexivity.
  - intros []; simpl; lia.
  - reflexivity.
  - intros m' [<-|[<-|[<-|[]]]]; simpl; lia.
  - simpl. lia.
  - reflexivity.
Defined.

(** ** The five rewrites together *)

Lemma macros_apart (m m' : macro) :
  m <> m' -> apart (macro_name m) (macro_name m').
Proof.
  destruct m, m'; intros H; try (exfalso; apply H; reflexivity);
    split; reflexivity.
Qed.

(** The rewrites for two different macros can be done in either order. *)
Lemma rewritten_commute (m m' : macro) (t t' : Z) (filedata : list pystr) :
  m <> m' ->
  macro_min m <= t <= macro_max m -> macro_min m' <= t' <= macro_max m' ->
  rewritten m' t' (rewritten m t filedata)
  = rewritten m t (rewritten m' t' filedata).
Proof.
  intros Hm Ht Ht'. unfold rewritten. rewrite !map_map. apply map_ext.
  intros line.
  destruct (macro_range_one_digit m) as (H0 & _ & H9).
  destruct (macro_range_one_digit m') as (H0' & _ & H9').
  apply new_line_commute;
    try apply macro_name_digit_free; try lia.
  apply macros_apart, Hm.
Qed.

Lemma rewritten_twice (m : macro) (t : Z) (filedata : list pystr) :
  macro_min m <= t <= macro_max m ->
  rewritten m t (rewritten m t filedata) = rewritten m t filedata.
Proof.
  intros Ht. unfold rewritten. rewrite map_map. apply map_ext. intros line.
  destruct (macro_range_one_digit m) as (H0 & _ & H9).
  apply new_line_twice; [apply macro_name_digit_free | lia | lia | exact Ht].
Qed.

(** After the five rewrites the header is as if the rewrite for [m], whichever
    macro [m] is, had been the last one. *)
Lemma rewritten_all_last (m : macro) (v : settings) (filedata : list pystr) :
  (forall m', macro_min m' <= setting m' v <= macro_max m') ->
  exists lines,
    rewritten_all macros v filedata = rewritten m (setting m v) lines.
Proof.
  intros Hv. unfold rewritten_all, macros. cbn [fold_left].
  destruct m.
  - rewrite (@rewritten_commute Ifft Ntt), (@rewritten_commute Ifft IndexMap),
      (@rewritten_commute Ifft Sk), (@rewritten_commute Ifft DataLoad)
      by (try discriminate; apply Hv).
    eexists; reflexivity.
  - rewrite (@rewritten_commute Ntt IndexMap), (@rewritten_commute Ntt Sk),
      (@rewritten_commute Ntt DataLoad)
      by (try discriminate; apply Hv).
    eexists; reflexivity.
  - rewrite (@rewritten_commute IndexMap Sk),
      (@rewritten_commute IndexMap DataLoad)
      by (try discriminate; apply Hv).
    eexists; reflexivity.
  - rewrite (@rewritten_commute Sk DataLoad) by (try discriminate; apply Hv).
    eexists; reflexivity.
  - eexists; reflexivity.
Qed.

(** After the five rewrites no line holds a macro of the five with a value of
    its range other than the chosen one. *)
Lemma rewritten_all_only_targets (v : settings) (filedata : list pystr)
    (m : macro) (k : Z) (line : pystr) :
  (forall m', macro_min m' <= setting m' v <= macro_max m') ->
  In line (rewritten_all macros v filedata) ->
  macro_min m <= k <= macro_max m -> k <> setting m v ->
  ~ occurs (name_value (macro_name m) k) line.
Proof.
  intros Hv Hin Hk Hne.
  destruct (@rewritten_all_last m v filedata Hv) as (lines & E).
  rewrite E in Hin. unfold rewritten in Hin. apply in_map_iff in Hin.
  destruct Hin as (line0 & <- & _).
  destruct (macro_range_one_digit m) as (H0 & _ & H9).
  apply new_line_only_target;
    [apply macro_name_digit_free | lia | lia | apply Hv | exact Hk
     | exact Hne].
Qed.

(** The five rewrites change nothing in a header they have written. *)
Lemma rewritten_all_twice (v : settings) (filedata : list pystr) :
  (forall m, macro_min m <= setting m v <= macro_max m) ->
  rewritten_all macros v (rewritten_all macros v filedata)
  = rewritten_all macros v filedata.
Proof.
  intros Hv.
  assert (forall m, rewritten m (setting m v) (rewritten_all macros v filedata)
                    = rewritten_all macros v filedata) as H.
  { intros m. destruct (@rewritten_all_last m v filedata Hv) as (lines & ->).
    apply rewritten_twice, Hv. }
  revert H. generalize (rewritten_all macros v filedata) as final.
  intros final H. unfold rewritten_all, macros. cbn [fold_left].
  rewrite (H Ifft), (H Ntt), (H IndexMap), (H Sk), (H DataLoad). reflexivity.
Qed.

Lemma kept_or_digit_chain (x y z : ascii) :
  kept_or_digit x y -> kept_or_digit y z -> kept_or_digit x z.
Proof.
  unfold kept_or_digit. intros [->|[Hx Hy]] [->|[Hy' Hz]]; auto.
Qed.

Lemma rewritten_kept_or_digit (m : macro) (t : Z) (filedata : list pystr) :
  macro_min m <= t <= macro_max m ->
  Forall2 (Forall2 kept_or_digit) filedata (rewritten m t filedata).
Proof.
  intros Ht. destruct (macro_range_one_digit m) as (H0 & _ & H9).
  unfold rewritten. induction filedata as [|line filedata IH]; simpl;
    constructor; [|exact IH].
  eapply Forall2_impl;
    [|apply (@new_line_kept_or_target (macro_name m) (macro_min m)
               (macro_max m) t line); lia].
  intros x y [->|(k & Hk & -> & ->)]; [left; reflexivity|].
  right. split; apply digit_isdigit; lia.
Qed.

Lemma rewritten_all_kept_or_digit (ms : list macro) (v : settings)
    (filedata : list pystr) :
  (forall m, In m ms -> macro_min m <= setting m v <= macro_max m) ->
  Forall2 (Forall2 kept_or_digit) filedata (rewritten_all ms v filedata).
Proof.
  revert filedata. induction ms as [|m ms IH]; intros filedata Hv.
  - apply Forall2_same. intros line. apply Forall2_same. intros x. left.
    reflexivity.
  - unfold rewritten_all. cbn [fold_left].
    apply (@Forall2_chain _ (Forall2 kept_or_digit) (Forall2 kept_or_digit)
             (Forall2 kept_or_digit) filedata
             (rewritten m (setting m v) filedata)).
    + intros l1 l2 l3. apply Forall2_chain. apply kept_or_digit_chain.
    + apply rewritten_kept_or_digit, Hv. simpl. auto.
    + apply IH. intros m' Hm'. apply Hv. simpl. auto.
Qed.

(** The option loop does not look at the files: where it completes, it
    completes on every world, with the same values. *)
Lemma main_option_any_world (v v' : settings) (oa : pystr * pystr)
    (w w' w2 : world) :
  main_option v oa w = (Ret v', w') -> main_option v oa w2 = (Ret v', w2).
Proof.
  destruct oa as [opt arg]. unfold main_option.
  destruct (streq opt (lit "-h")); [discriminate|].
  repeat match goal with
         | |- context [if opt_in ?o ?a ?b then _ else _] =>
             destruct (opt_in o a b);
             [unfold bind, int_arg; destruct (int arg); try discriminate;
              unfold ret; intros H; injection H as <- _; reflexivity|]
         end.
  unfold ret. intros H. injection H as <- _. reflexivity.
Qed.

Lemma main_options_any_world (opts : optlist) (v v' : settings)
    (w w' w2 : world) :
  main_options v opts w = (Ret v', w') -> main_options v opts w2 = (Ret v', w2).
Proof.
  revert v w; induction opts as [|oa opts IH]; intros v w; simpl.
  - unfold ret. intros H. injection H as <- _. reflexivity.
  - unfold bind. destruct (main_option v oa w) as [[v1| |] w1] eqn:E;
      try discriminate.
    rewrite (@main_option_any_world v v1 oa w w1 w2 E). apply IH.
Qed.

Lemma main_returns (argv : list pystr) (opts : optlist) (args : list pystr)
    (v : settings) (w w1 : world) (filedata : list pystr) :
  getopt argv shortopts longopts = Some (opts, args) ->
  main_options unset opts w = (Ret v, w1) ->
  (forall m, macro_min m <= setting m v <= macro_max m) ->
  files w user_defines_h = Some filedata ->
  exists w',
    main argv w = (Ret tt, w')
    /\ files w' user_defines_h = Some (rewritten_all macros v filedata)
    /\ trace w' = trace w ++ rewrite_events macros v filedata
    /\ forall p, p <> user_defines_h -> files w' p = files w p.
Proof.
  intros Hg Ho Hv Hf.
  rewrite (@main_runs_rewrites argv opts args v w w1 Hg Ho).
  - apply set_defines_returns; [intros m _; apply Hv | exact Hf].
  - intros m. destruct (macro_range_one_digit m) as (H0 & _).
    destruct (Hv m). lia.
Qed.

(** X7.  After a run with the five values in their ranges, no line of the
    header holds one of the five macros followed by a value of its range
    other than the one chosen for it: whatever the header held before. *)
Theorem main_leaves_only_chosen_values (argv : list pystr) (opts : optlist)
    (args : list pystr) (v : settings) (w w1 : world)
    (filedata : list pystr) :
  getopt argv shortopts longopts = Some (opts, args) ->
  main_options unset opts w = (Ret v, w1) ->
  (forall m, macro_min m <= setting m v <= macro_max m) ->
  files w user_defines_h = Some filedata ->
  exists w' final,
    main argv w = (Ret tt, w')
    /\ files w' user_defines_h = Some final
    /\ forall m k line,
         In line final -> macro_min m <= k <= macro_max m ->
         k <> setting m v ->
         ~ occurs (name_value (macro_name m) k) line.
Proof.
  intros Hg Ho Hv Hf.
  destruct (@main_returns argv opts args v w w1 filedata Hg Ho Hv Hf)
    as (w' & E & F & _).
  exists w', (rewritten_all macros v filedata).
  split; [exact E|]. split; [exact F|].
  intros m k line Hin Hk Hne.
  apply (@rewritten_all_only_targets v filedata m k line Hv Hin Hk Hne).
Qed.

Lemma main_leaves_only_chosen_values_witness :
  exists w' final,
    main argv_all (header two_defines) = (Ret tt, w')
    /\ files w' user_defines_h = Some final
    /\ forall m k line,
         In line final -> macro_min m <= k <= macro_max m ->
         k <> setting m (Settings 2 3 0 0 0) ->
         ~ occurs (name_value (macro_name m) k) line.
Proof.
  apply (@main_leaves_only_chosen_values argv_all
           [(lit "-i", lit "2"); (lit "-n", lit "3"); (lit "-m", lit "0");
            (lit "-s", lit "0"); (lit "-d", lit "0")]
           [] (Settings 2 3 0 0 0) (header two_defines) (header two_defines)
           two_defines).
  - reflexivity.
  - reflexivity.
  - intros []; unfold macro_min, macro_max; simpl; lia.
  - reflexivity.
Defined.

(** X8.  A run with the five values in their ranges keeps the shape of the
    lines of the header, taken as [readlines] gives them and [writelines]
    takes them in text mode: as many lines as were read, each as long as it
    was read, and every character of a line is the one that was read there,
    or a digit where a digit was read.  (How text mode maps line ends
    between these lines and the bytes on disk is not part of the
    statement.) *)
Theorem main_keeps_shape (argv : list pystr) (opts : optlist)
    (args : list pystr) (v : settings) (w w1 : world)
    (filedata : list pystr) :
  getopt argv shortopts longopts = Some (opts, args) ->
  main_options unset opts w = (Ret v, w1) ->
  (forall m, macro_min m <= setting m v <= macro_max m) ->
  files w user_defines_h = Some filedata ->
  exists w' final,
    main argv w = (Ret tt, w')
    /\ files w' user_defines_h = Some final
    /\ Forall2 (Forall2 kept_or_digit) filedata final.
Proof.
  intros Hg Ho Hv Hf.
  destruct (@main_returns argv opts args v w w1 filedata Hg Ho Hv Hf)
    as (w' & E & F & _).
  exists w', (rewritten_all macros v filedata).
  split; [exact E|]. split; [exact F|].
  apply rewritten_all_kept_or_digit. intros m _. apply Hv.
Qed.

Lemma main_keeps_shape_witness :
  exists w' final,
    main argv_all (header two_defines) = (Ret tt, w')
    /\ files w' user_defines_h = Some final
    /\ Forall2 (Forall2 kept_or_digit) two_defines final.
Proof.
  apply (@main_keeps_shape argv_all
           [(lit "-i", lit "2"); (lit "-n", lit "3"); (lit "-m", lit "0");
            (lit "-s", lit "0"); (lit "-d", lit "0")]
           [] (Settings 2 3 0 0 0) (header two_defines) (header two_defines)
           two_defines).
  - reflexivity.
  - reflexivity.
  - intros []; unfold macro_min, macro_max; simpl; lia.
  - reflexivity.
Defined.

(** X9.  A second run with the same command line, the five values in their
    ranges, leaves every file as the first run left it. *)
Theorem main_twice (argv : list pystr) (opts : optlist)
    (args : list pystr) (v : settings) (w w1 : world)
    (filedata : list pystr) :
  getopt argv shortopts longopts = Some (opts, args) ->
  main_options unset opts w = (Ret v, w1) ->
  (forall m, macro_min m <= setting m v <= macro_max m) ->
  files w user_defines_h = Some filedata ->
  exists w' w'',
    main argv w = (Ret tt, w')
    /\ main argv w' = (Ret tt, w'')
    /\ forall p, files w'' p = files w' p.
Proof.
  intros Hg Ho Hv Hf.
  destruct (@main_returns argv opts args v w w1 filedata Hg Ho Hv Hf)
    as (w' & E & F & _).
  pose proof (@main_options_any_world opts unset v w w1 w' Ho) as Ho'.
  destruct (@main_returns argv opts args v w' w'
              (rewritten_all macros v filedata) Hg Ho' Hv F)
    as (w'' & E' & F' & _ & O').
  exists w', w''. split; [exact E|]. split; [exact E'|].
  intros p. destruct (pystr_eq_dec p user_defines_h) as [->|Hp].
  - rewrite F', F. f_equal. apply rewritten_all_twice, Hv.
  - apply O', Hp.
Qed.

Lemma main_twice_witness :
  exists w' w'',
    main argv_all (header two_defines) = (Ret tt, w')
    /\ main argv_all w' = (Ret tt, w'')
    /\ forall p, files w'' p = files w' p.
Proof.
  apply (@main_twice argv_all
           [(lit "-i", lit "2"); (lit "-n", lit "3"); (lit "-m", lit "0");
            (lit "-s", lit "0"); (lit "-d", lit "0")]
           [] (Settings 2 3 0 0 0) (header two_defines) (header two_defines)
           two_defines).
  - reflexivity.
  - reflexivity.
  - intros []; unfold macro_min, macro_max; simpl; lia.
  - reflexivity.
Defined.

(** ** More on the option loop *)

Lemma option_of_not_help (m : macro) (opt : pystr) :
  option_of m opt = true -> streq opt (lit "-h") = false.
Proof.
  intros Hm. destruct (streq opt (lit "-h")) eqn:E; [|reflexivity].
  apply streq_true in E. subst opt. destruct m; discriminate Hm.
Qed.

Lemma option_of_one (m m' : macro) (opt : pystr) :
  option_of m opt = true -> m' <> m -> option_of m' opt = false.
Proof.
  intros Hm Hne.
  assert (exists s, opt = lit s /\ option_of m (lit s) = true) as (s & -> & _).
  { destruct m; cbn [option_of] in Hm; unfold opt_in in Hm;
      apply orb_true_iff in Hm; destruct Hm as [H|H]; apply streq_true in H;
      subst opt; eexists; split; reflexivity. }
  destruct m, m'; try (exfalso; apply Hne; reflexivity);
    cbn [option_of] in Hm; unfold opt_in in Hm; apply orb_true_iff in Hm;
    destruct Hm as [H|H]; apply streq_true in H;
    apply (f_equal string_of_list_ascii) in H;
    unfold lit in H; rewrite !string_of_list_ascii_of_string in H; subst s;
    reflexivity.
Qed.

(** The branch of the loop body for the option of [m]. *)
Lemma main_option_branch (m : macro) (v : settings) (opt arg : pystr)
    (w : world) :
  option_of m opt = true ->
  main_option v (opt, arg) w = (n <- int_arg arg ;; ret (put m n v)) w.
Proof.
  intros Hm. unfold main_option. rewrite (option_of_not_help m opt Hm).
  pose proof (fun m' => @option_of_one m m' opt Hm) as Hone.
  destruct m; cbn [option_of] in Hm.
  - rewrite Hm. reflexivity.
  - pose proof (Hone Ifft) as H1. cbn [option_of] in H1.
    rewrite H1 by discriminate. rewrite Hm. reflexivity.
  - pose proof (Hone Ifft) as H1. pose proof (Hone Ntt) as H2.
    cbn [option_of] in H1, H2.
    rewrite H1, H2 by discriminate. rewrite Hm. reflexivity.
  - pose proof (Hone Ifft) as H1. pose proof (Hone Ntt) as H2.
    pose proof (Hone IndexMap) as H3. cbn [option_of] in H1, H2, H3.
    rewrite H1, H2, H3 by discriminate. rewrite Hm. reflexivity.
  - pose proof (Hone Ifft) as H1. pose proof (Hone Ntt) as H2.
    pose proof (Hone IndexMap) as H3. pose proof (Hone Sk) as H4.
    cbn [option_of] in H1, H2, H3, H4.
    rewrite H1, H2, H3, H4 by discriminate. rewrite Hm. reflexivity.
Qed.

(** The loop up to an option that ends the run. *)
Lemma main_options_exits (before after : optlist) (oa : pystr * pystr)
    (v : settings) (w w' : world) (status : Z) :
  Forall (fun oa => streq (fst oa) (lit "-h") = false
                    /\ exists n, int (snd oa) = Some n) before ->
  (forall v', main_option v' oa w = (Exit status, w')) ->
  main_options v (before ++ oa :: after) w = (Exit status, w').
Proof.
  intros Hb Hoa. revert v.
  induction Hb as [|[opt arg] before [Hh [n Hn]] _ IH]; intros v;
    cbn [app main_options]; unfold bind.
  - rewrite (Hoa v). reflexivity.
  - destruct (@main_option_completes v opt arg n w Hh Hn) as [v1 E].
    rewrite E. apply IH.
Qed.

(** The loop up to an option that raises. *)
Lemma main_options_raises (before after : optlist) (oa : pystr * pystr)
    (v : settings) (w w' : world) (e : exn) :
  Forall (fun oa => streq (fst oa) (lit "-h") = false
                    /\ exists n, int (snd oa) = Some n) before ->
  (forall v', main_option v' oa w = (Raise e, w')) ->
  main_options v (before ++ oa :: after) w = (Raise e, w').
Proof.
  intros Hb Hoa. revert v.
  induction Hb as [|[opt arg] before [Hh [n Hn]] _ IH]; intros v;
    cbn [app main_options]; unfold bind.
  - rewrite (Hoa v). reflexivity.
  - destruct (@main_option_completes v opt arg n w Hh Hn) as [v1 E].
    rewrite E. apply IH.
Qed.

Lemma last_such (A : Type) (P : A -> bool) (l : list A) :
  Forall (fun x => P x = false) l
  \/ exists before x after,
       l = before ++ x :: after /\ P x = true
       /\ Forall (fun y => P y = false) after.
Proof.
  induction l as [|a l [IH|(before & x & after & -> & Hx & Ha)]].
  - left. constructor.
  - destruct (P a) eqn:E.
    + right. exists [], a, l. repeat split; assumption.
    + left. constructor; assumption.
  - right. exists (a :: before), x, after. repeat split; assumption.
Qed.

(** X10.  On a command line that [getopt] accepts, -h wins over the options
    that follow it: when the options before the first -h are other options
    with integer arguments, the run prints the usage text and exits with
    status 0, whichever options and arguments [getopt] found behind the -h,
    and reads and writes no file.  (A command line that [getopt] refuses
    ends with status 2 before any option is looked at, also when -h comes
    first.) *)
Theorem main_help_first (argv : list pystr) (before after : optlist)
    (arg : pystr) (args : list pystr) (w : world) :
  getopt argv shortopts longopts
  = Some (before ++ (lit "-h", arg) :: after, args) ->
  Forall (fun oa => streq (fst oa) (lit "-h") = false
                    /\ exists n, int (snd oa) = Some n) before ->
  main argv w = (Exit 0, said w [usage]).
Proof.
  intros Hg Hb. unfold main. rewrite Hg. unfold bind at 1.
  rewrite (@main_options_exits before after (lit "-h", arg) _ w
             (said w [usage]) 0 Hb); [reflexivity|].
  intros v'. reflexivity.
Qed.

Lemma main_help_first_witness :
  main [lit "-i"; lit "2"; lit "-h"; lit "-n"; lit "x"] empty_world
  = (Exit 0, said empty_world [usage]).
Proof.
  apply (@main_help_first [lit "-i"; lit "2"; lit "-h"; lit "-n"; lit "x"]
           [(lit "-i", lit "2")] [(lit "-n", lit "x")] [] [] empty_world).
  - reflexivity.
  - constructor; [|constructor]. split; [reflexivity|].
    exists 2. reflexivity.
Defined.

(** X11.  An argument that is no integer stops the run with ValueError at
    the first such option: nothing is printed, no file is read or written,
    and no option behind it is looked at. *)
Theorem main_value_error (argv : list pystr) (before after : optlist)
    (m : macro) (opt arg : pystr) (args : list pystr) (w : world) :
  getopt argv shortopts longopts
  = Some (before ++ (opt, arg) :: after, args) ->
  Forall (fun oa => streq (fst oa) (lit "-h") = false
                    /\ exists n, int (snd oa) = Some n) before ->
  option_of m opt = true ->
  int arg = None ->
  main argv w = (Raise ValueError, w).
Proof.
  intros Hg Hb Hm Ha. unfold main. rewrite Hg. unfold bind at 1.
  rewrite (@main_options_raises before after (opt, arg) _ w w ValueError Hb);
    [reflexivity|].
  intros v'. rewrite (@main_option_branch m v' opt arg w Hm).
  unfold bind, int_arg. rewrite Ha. reflexivity.
Qed.

Lemma main_value_error_witness :
  main [lit "-i"; lit "2"; lit "--ntt=x"; lit "-h"] (header two_defines)
  = (Raise ValueError, header two_defines).
Proof.
  apply (@main_value_error [lit "-i"; lit "2"; lit "--ntt=x"; lit "-h"]
           [(lit "-i", lit "2")] [(lit "-h", [])] Ntt (lit "--ntt") (lit "x")
           [] (header two_defines)).
  - reflexivity.
  - constructor; [|constructor]. split; [reflexivity|].
    exists 2. reflexivity.
  - reflexivity.
  - reflexivity.
Defined.

(** X12.  What the option loop leaves in a variable: -1 when its option is
    not among the options, and otherwise the integer of the argument of the
    last occurrence of its option, in either spelling. *)
Theorem main_options_last_wins (opts : optlist) (v : settings)
    (w w1 : world) (m : macro) :
  main_options unset opts w = (Ret v, w1) ->
  (Forall (fun oa => option_of m (fst oa) = false) opts
   /\ setting m v = -1)
  \/ exists before opt arg after,
       opts = before ++ (opt, arg) :: after
       /\ option_of m opt = true
       /\ Forall (fun oa => option_of m (fst oa) = false) after
       /\ int arg = Some (setting m v).
Proof.
  intros Ho.
  destruct (last_such (fun oa => option_of m (fst oa)) opts)
    as [Hno|(before & [opt arg] & after & E & Hm & Hafter)].
  - left. split; [exact Hno|].
    rewrite (@main_options_never_supplied m opts unset v w w1);
      [destruct m; reflexivity | | exact Ho].
    intros opt arg Hin. rewrite Forall_forall in Hno.
    apply (Hno (opt, arg) Hin).
  - right. exists before, opt, arg, after.
    split; [exact E|]. split; [exact Hm|]. split; [exact Hafter|].
    subst opts.
    apply (@main_options_last_supplied m before after opt arg unset v w w1);
      [exact Hm | | exact Ho].
    intros o a Hin. rewrite Forall_forall in Hafter.
    apply (Hafter (o, a) Hin).
Qed.

Lemma main_options_last_wins_witness :
  (Forall (fun oa => option_of Ifft (fst oa) = false)
          [(lit "-i", lit "1"); (lit "--ifft", lit "2")]
   /\ setting Ifft (Settings 2 (-1) (-1) (-1) (-1)) = -1)
  \/ exists before opt arg after,
       [(lit "-i", lit "1"); (lit "--ifft", lit "2")]
       = before ++ (opt, arg) :: after
       /\ option_of Ifft opt = true
       /\ Forall (fun oa => option_of Ifft (fst oa) = false) after
       /\ int arg = Some (setting Ifft (Settings 2 (-1) (-1) (-1) (-1))).
Proof.
  apply (@main_options_last_wins
           [(lit "-i", lit "1"); (lit "--ifft", lit "2")]
           (Settings 2 (-1) (-1) (-1) (-1)) empty_world empty_world Ifft).
  reflexivity.
Defined.

Lemma getopt_no_option_first (argv : list pystr) :
  no_option_first argv ->
  exists args, getopt argv shortopts longopts = Some ([], args).
Proof.
  unfold getopt. destruct argv as [|word rest]; intros H.
  - exists []. reflexivity.
  - cbn [length getopt_loop]. destruct H as [H|[->| ->]].
    + rewrite H. eexists; reflexivity.
    + eexists; reflexivity.
    + eexists; reflexivity.
Qed.

(** X13.  A command line that is empty or whose first word is not an option
    gives no option at all, whatever follows: the run prints that an ifft
    option is needed and exits with status 0, without reading a file. *)
Theorem main_no_option_first (argv : list pystr) (w : world) :
  no_option_first argv ->
  main argv w = (Exit 0, said w [need_to_choose Ifft]).
Proof.
  intros H. destruct (getopt_no_option_first argv H) as [args E].
  unfold main. rewrite E. reflexivity.
Qed.

Lemma main_no_option_first_witness :
  main [lit "2"; lit "-i"; lit "2"; lit "-n"; lit "3"] empty_world
  = (Exit 0, said empty_world [need_to_choose Ifft]).
Proof.
  apply (@main_no_option_first
           [lit "2"; lit "-i"; lit "2"; lit "-n"; lit "3"] empty_world).
  left. reflexivity.
Defined.

Lemma main_option_to_short (v : settings) (oa : pystr * pystr) (w : world) :
  main_option v (to_short oa) w = main_option v oa w.
Proof.
  destruct oa as [opt arg]. unfold to_short.
  repeat match goal with
         | |- context [if streq opt ?s then _ else _] =>
             destruct (streq opt s) eqn:E;
             [apply streq_true in E; subst opt; reflexivity | clear E]
         end.
  reflexivity.
Qed.

Lemma main_options_to_short (opts : optlist) (v : settings) (w : world) :
  main_options v (map to_short opts) w = main_options v opts w.
Proof.
  revert v w. induction opts as [|oa opts IH]; intros v w;
    cbn [map main_options]; [reflexivity|].
  unfold bind. rewrite main_option_to_short.
  destruct (main_option v oa w) as [[v1| |] w1]; [apply IH | | ]; reflexivity.
Qed.

(** X14.  The spelling of an option does not matter: a command line, and
    one that gives the same options with the same arguments but any of them
    in the short instead of the long spelling, have the same run. *)
Theorem main_long_as_short (argv argv' : list pystr) (opts : optlist)
    (args args' : list pystr) (w : world) :
  getopt argv shortopts longopts = Some (opts, args) ->
  getopt argv' shortopts longopts = Some (map to_short opts, args') ->
  main argv' w = main argv w.
Proof.
  intros Hg Hg'. unfold main. rewrite Hg, Hg'. unfold bind at 1 3.
  rewrite main_options_to_short. reflexivity.
Qed.

Lemma main_long_as_short_witness :
  main argv_all (header two_defines)
  = main [lit "--ifft=2"; lit "--ntt"; lit "3"; lit "-m0"; lit "--sk"; lit "0";
          lit "--data_load=0"] (header two_defines).
Proof.
  apply (@main_long_as_short
           [lit "--ifft=2"; lit "--ntt"; lit "3"; lit "-m0"; lit "--sk";
            lit "0"; lit "--data_load=0"]
           argv_all
           [(lit "--ifft", lit "2"); (lit "--ntt", lit "3");
            (lit "-m", lit "0"); (lit "--sk", lit "0");
            (lit "--data_load", lit "0")]
           [] [] (header two_defines)).
  - reflexivity.
  - reflexivity.
Defined.

(** X15.  Without the header file, a run whose five values are chosen ends
    with FileNotFoundError at the first rewrite: nothing is printed and no
    file is created. *)
Theorem main_without_header (argv : list pystr) (opts : optlist)
    (args : list pystr) (v : settings) (w w1 : world) :
  getopt argv shortopts longopts = Some (opts, args) ->
  main_options unset opts w = (Ret v, w1) ->
  (forall m, 0 <= setting m v) ->
  files w user_defines_h = None ->
  main argv w = (Raise FileNotFoundError, w).
Proof.
  intros Hg Ho Hv Hf.
  rewrite (@main_runs_rewrites argv opts args v w w1 Hg Ho Hv).
  unfold macros. cbn [set_defines]. unfold bind.
  rewrite (@set_define_no_file Ifft (setting Ifft v) w Hf). reflexivity.
Qed.

Lemma main_without_header_witness :
  main argv_all empty_world = (Raise FileNotFoundError, empty_world).
Proof.
  apply (@main_without_header argv_all
           [(lit "-i", lit "2"); (lit "-n", lit "3"); (lit "-m", lit "0");
            (lit "-s", lit "0"); (lit "-d", lit "0")]
           [] (Settings 2 3 0 0 0) empty_world empty_world).
  - reflexivity.
  - reflexivity.
  - intros []; simpl; lia.
  - reflexivity.
Defined.

(** ** The files a run leaves alone *)

Lemma set_define_frame (m : macro) (set_val : Z) (w : world) (p : pystr) :
  p <> user_defines_h ->
  files (snd (set_define m set_val w)) p = files w p.
Proof.
  intros Hp. destruct (files w user_defines_h) as [filedata|] eqn:Hf.
  - destruct (macro_range_one_digit m) as (H0 & H1 & H9).
    destruct (Z_lt_ge_dec set_val (macro_min m)) as [Hlo|Hlo];
      [|destruct (Z_lt_ge_dec (macro_max m) set_val) as [Hhi|Hhi]].
    + rewrite (@set_define_raises m set_val w filedata) by (auto; lia).
      reflexivity.
    + rewrite (@set_define_raises m set_val w filedata) by (auto; lia).
      reflexivity.
    + rewrite (@set_define_returns m set_val w filedata) by (auto; lia).
      cbn [snd files]. apply store_other, Hp.
  - rewrite (@set_define_no_file m set_val w Hf). reflexivity.
Qed.

Lemma set_defines_frame (ms : list macro) (v : settings) (w : world)
    (p : pystr) :
  p <> user_defines_h -> files (snd (set_defines ms v w)) p = files w p.
Proof.
  intros Hp. revert w. induction ms as [|m ms IH]; intros w;
    cbn [set_defines]; [reflexivity|].
  unfold bind.
  pose proof (@set_define_frame m (setting m v) w p Hp) as F.
  destruct (set_define m (setting m v) w) as [[[]| |] w1]; cbn [snd] in *;
    [rewrite IH|..]; exact F.
Qed.

Lemma main_option_files (v : settings) (oa : pystr * pystr) (w : world) :
  files (snd (main_option v oa w)) = files w.
Proof.
  destruct oa as [opt arg]. unfold main_option.
  destruct (streq opt (lit "-h")); [reflexivity|].
  repeat match goal with
         | |- context [if opt_in ?o ?a ?b then _ else _] =>
             destruct (opt_in o a b);
             [unfold bind, int_arg; destruct (int arg); reflexivity|]
         end.
  reflexivity.
Qed.

Lemma main_options_files (opts : optlist) (v : settings) (w : world) :
  files (snd (main_options v opts w)) = files w.
Proof.
  revert v w. induction opts as [|oa opts IH]; intros v w;
    cbn [main_options]; [reflexivity|].
  unfold bind. pose proof (main_option_files v oa w) as F.
  destruct (main_option v oa w) as [[v1| |] w1]; cbn [snd] in *;
    [rewrite IH|..]; exact F.
Qed.

Lemma main_checks_files (v : settings) (w : world) :
  files (snd (main_checks v w)) = files w.
Proof.
  unfold main_checks.
  repeat match goal with
         | |- context [if ?x <? 0 then _ else _] =>
             destruct (x <? 0); [reflexivity|]
         end.
  reflexivity.
Qed.

(** X16.  The header is the only file a run can change: whatever the command
    line and however the run ends, every other file is afterwards as it was
    before, missing ones still missing. *)
Theorem main_changes_header_only (argv : list pystr) (w : world) (p : pystr) :
  p <> user_defines_h ->
  files (snd (main argv w)) p = files w p.
Proof.
  intros Hp. unfold main.
  destruct (getopt argv shortopts longopts) as [[opts args]|]; [|reflexivity].
  unfold bind at 1.
  pose proof (main_options_files opts (Settings (-1) (-1) (-1) (-1) (-1)) w)
    as F.
  destruct (main_options (Settings (-1) (-1) (-1) (-1) (-1)) opts w)
    as [[v| |] w1]; cbn [snd] in *; [|rewrite F; reflexivity..].
  unfold bind. pose proof (main_checks_files v w1) as C.
  destruct (main_checks v w1) as [[[]| |] w2]; cbn [snd] in *;
    [|rewrite C, F; reflexivity..].
  rewrite main_rewrites_eq, set_defines_frame by exact Hp.
  rewrite C, F. reflexivity.
Qed.

Lemma main_changes_header_only_witness :
  files (snd (main argv_all (header two_defines))) (lit "defines.h")
  = files (header two_defines) (lit "defines.h").
Proof.
  apply (@main_changes_header_only argv_all (header two_defines)
           (lit "defines.h")).
  discriminate.
Defined.

(** X17.  [file_line_rep] itself touches no file and reads none, whatever
    its arguments and whether it returns or raises: all it does besides
    computing the lines is print. *)
Theorem file_line_rep_only_prints (filedata : list pystr)
    (base_string : pystr) (min_val max_val set_val : Z) (w : world) :
  files (snd (file_line_rep filedata base_string min_val max_val set_val w))
  = files w
  /\ exists texts,
       trace (snd (file_line_rep filedata base_string min_val max_val
                                 set_val w))
       = trace w ++ map Printed texts.
Proof.
  destruct (Z_lt_ge_dec max_val min_val) as [Hr|Hr];
    [|destruct (Z_lt_ge_dec set_val min_val) as [Hlo|Hlo];
      [|destruct (Z_lt_ge_dec max_val set_val) as [Hhi|Hhi]]].
  - rewrite file_line_rep_raises by auto.
    split; [reflexivity | eexists; reflexivity].
  - rewrite file_line_rep_raises by auto.
    split; [reflexivity | eexists; reflexivity].
  - rewrite file_line_rep_raises by auto.
    split; [reflexivity | eexists; reflexivity].
  - rewrite file_line_rep_returns by lia.
    split; [reflexivity | eexists; reflexivity].
Qed.
